(** * Expectation-Maximization Kalman filter (emkf.py): model and properties

    The class [ExpectationMaximizationKalmanFilter] is embedded as a record
    of attributes threaded through a state-and-exception monad.  Numbers are
    exact rationals, numpy arrays are lists (vectors), lists of lists
    (matrices) and lists of those (time-indexed buffers).  Time indices are
    Python integers, so negative indices wrap as in Python and an index out
    of range raises [IndexError].  The pseudo-inverse of the array backend
    ([xp.linalg.pinv]) is a parameter of the development.  Array arithmetic
    is modelled on operands of conforming shapes. *)

From Stdlib Require Import String ZArith QArith Qabs Qminmax List Bool Lia ZifyBool Lqa.
Import ListNotations.
Local Open Scope Z_scope.

(** ** Arrays *)

Definition vec := list Q.
Definition matrix := list vec.

Definition zeros1 (n : nat) : vec := repeat 0%Q n.
Definition zeros2 (r c : nat) : matrix := repeat (zeros1 c) r.
Definition zeros3 (T r c : nat) : list matrix := repeat (zeros2 r c) T.

Fixpoint zipWith {A B C} (f : A -> B -> C) (l : list A) (l' : list B) : list C :=
  match l, l' with
  | a :: t, b :: t' => f a b :: zipWith f t t'
  | _, _ => []
  end.

Definition vadd (u v : vec) : vec := zipWith Qplus u v.
Definition vsub (u v : vec) : vec := zipWith Qminus u v.
Definition madd (A B : matrix) : matrix := zipWith vadd A B.
Definition msub (A B : matrix) : matrix := zipWith vsub A B.
Definition vscale (k : Q) (v : vec) : vec := map (Qmult k) v.
Definition mscale (k : Q) (A : matrix) : matrix := map (vscale k) A.

Definition dot (u v : vec) : Q := fold_right Qplus 0%Q (zipWith Qmult u v).
Definition matvec (A : matrix) (x : vec) : vec := map (fun row => dot row x) A.

Definition column (j : nat) (A : matrix) : vec := map (fun row => nth j row 0%Q) A.

(** [A.T] *)
Definition transpose (A : matrix) : matrix :=
  match A with
  | [] => []
  | r :: _ => map (fun j => column j A) (seq 0 (length r))
  end.

(** [A @ B] *)
Definition matmul (A B : matrix) : matrix :=
  map (fun row => map (dot row) (transpose B)) A.

(** [xp.outer(u, v)] *)
Definition outer (u v : vec) : matrix := map (fun a => map (Qmult a) v) u.

(** [xp.eye(r, c)] *)
Definition eye (r c : nat) : matrix :=
  map (fun i => map (fun j => if Nat.eqb i j then 1%Q else 0%Q) (seq 0 c)) (seq 0 r).

(** [xp.minimum(xp.maximum(-c, x), c)] on one entry *)
Definition clip (c x : Q) : Q := Qmin (Qmax (- c) x) c.

(** [old - rate * xp.minimum(xp.maximum(-thr, old - cand), thr)], in exact
    arithmetic: the rounding, overflow and NaN of the float32 arrays of the
    source are outside the model, so what is proved of this step is proved
    of the formula, and holds of the arrays up to rounding. *)
Definition damped_clip_entry (rate thr old cand : Q) : Q :=
  (old - rate * clip thr (old - cand))%Q.
Definition damped_clip_vec (rate thr : Q) (old cand : vec) : vec :=
  zipWith (damped_clip_entry rate thr) old cand.
Definition damped_clip (rate thr : Q) (old cand : matrix) : matrix :=
  zipWith (damped_clip_vec rate thr) old cand.

(** Entrywise equality of rationals on vectors and matrices. *)
Definition veq (u v : vec) : Prop := Forall2 Qeq u v.
Definition meq (A B : matrix) : Prop := Forall2 veq A B.

Definition veqb (u v : vec) : bool :=
  Nat.eqb (length u) (length v) && forallb (fun b => b) (zipWith Qeq_bool u v).
Definition meqb (A B : matrix) : bool :=
  Nat.eqb (length A) (length B) && forallb (fun b => b) (zipWith veqb A B).

(** ** Exceptions and Python indexing *)

Inductive exn :=
| ValueError | IndexError | TypeError | AttributeError
| UnboundLocalError | ZeroDivisionError.

Inductive result (A : Type) :=
| Ok (a : A)
| Err (e : exn).
Arguments Ok {A} a.
Arguments Err {A} e.

(** Position addressed by a Python index [i] in a sequence of length [n]. *)
Definition norm_index (n : nat) (i : Z) : option nat :=
  if (0 <=? i) && (i <? Z.of_nat n) then Some (Z.to_nat i)
  else if (- Z.of_nat n <=? i) && (i <? 0) then Some (Z.to_nat (i + Z.of_nat n))
  else None.

Fixpoint upd {A} (l : list A) (k : nat) (a : A) : list A :=
  match l, k with
  | [], _ => []
  | _ :: t, O => a :: t
  | x :: t, S k' => x :: upd t k' a
  end.

(** [l[i]] *)
Definition getitem {A} (l : list A) (i : Z) : result A :=
  match norm_index (length l) i with
  | Some k => match nth_error l k with Some a => Ok a | None => Err IndexError end
  | None => Err IndexError
  end.

(** [l[i] = a] *)
Definition setitem {A} (l : list A) (i : Z) (a : A) : result (list A) :=
  match norm_index (length l) i with
  | Some k => Ok (upd l k a)
  | None => Err IndexError
  end.

(** [range(a, b)] *)
Definition range (a b : Z) : list Z :=
  map (fun k => a + Z.of_nat k) (seq 0 (Z.to_nat (b - a))).

(** [range(0, n, step)]; a zero step raises, a negative one gives no element. *)
Definition range_step (n step : Z) : result (list Z) :=
  if step =? 0 then Err ValueError
  else if step <? 0 then Ok []
  else Ok (map (fun k => Z.of_nat k * step) (seq 0 (Z.to_nat ((n + step - 1) / step)))).

(** A parameter given once or per time step. *)
Inductive tparam (A : Type) :=
| Const (a : A)
| Seq (l : list A).
Arguments Const {A} a.
Arguments Seq {A} l.

(** Modelled from the spec: [_last_dims] of util_functions, which is not
    among the sources.  A parameter carrying a leading time axis is indexed
    at [t]; a constant one is returned as it is. *)
Definition _last_dims {A} (X : tparam A) (t : Z) : result A :=
  match X with
  | Const a => Ok a
  | Seq l => getitem l t
  end.

Definition tmap {A B} (f : A -> B) (X : tparam A) : tparam B :=
  match X with
  | Const a => Const (f a)
  | Seq l => Seq (map f l)
  end.

(** ** The estimator object *)

Inductive mode_t := Filter | Smooth.

Record config := {
  y : list vec;
  initial_mean : vec;
  initial_covariance : matrix;
  Q_cov : tparam matrix;
  H : tparam matrix;
  R : tparam matrix;
  d : tparam vec;
  tau : Z;
  store_transition_matrices_on : bool;
  em_vars : list string;
  iteration : Z;
  eta : Q;
  cutoff : Q;
  etab : Q;
  cutoffb : Q;
  mode : mode_t;
  n_dim_sys : nat;
  n_dim_obs : nat
}.

(** Mutable attributes.  [allocated] tells whether [forward] has created the
    trajectory attributes; before that, reading one raises [AttributeError]. *)
Record emkf := {
  cfg : config;
  F : matrix;
  b : tparam vec;
  Fs : list matrix;
  allocated : bool;
  x_pred : list vec;
  V_pred : list matrix;
  x_filt : list vec;
  V_filt : list matrix;
  x_smooth : list vec;
  V_smooth : list matrix;
  V_pair : list matrix
}.

Definition set_F (v : matrix) (s : emkf) : emkf :=
  {| cfg := cfg s; F := v; b := b s; Fs := Fs s; allocated := allocated s;
     x_pred := x_pred s; V_pred := V_pred s; x_filt := x_filt s; V_filt := V_filt s;
     x_smooth := x_smooth s; V_smooth := V_smooth s; V_pair := V_pair s |}.
Definition set_b (v : tparam vec) (s : emkf) : emkf :=
  {| cfg := cfg s; F := F s; b := v; Fs := Fs s; allocated := allocated s;
     x_pred := x_pred s; V_pred := V_pred s; x_filt := x_filt s; V_filt := V_filt s;
     x_smooth := x_smooth s; V_smooth := V_smooth s; V_pair := V_pair s |}.
Definition set_Fs (v : list matrix) (s : emkf) : emkf :=
  {| cfg := cfg s; F := F s; b := b s; Fs := v; allocated := allocated s;
     x_pred := x_pred s; V_pred := V_pred s; x_filt := x_filt s; V_filt := V_filt s;
     x_smooth := x_smooth s; V_smooth := V_smooth s; V_pair := V_pair s |}.
Definition set_x_pred (v : list vec) (s : emkf) : emkf :=
  {| cfg := cfg s; F := F s; b := b s; Fs := Fs s; allocated := allocated s;
     x_pred := v; V_pred := V_pred s; x_filt := x_filt s; V_filt := V_filt s;
     x_smooth := x_smooth s; V_smooth := V_smooth s; V_pair := V_pair s |}.
Definition set_V_pred (v : list matrix) (s : emkf) : emkf :=
  {| cfg := cfg s; F := F s; b := b s; Fs := Fs s; allocated := allocated s;
     x_pred := x_pred s; V_pred := v; x_filt := x_filt s; V_filt := V_filt s;
     x_smooth := x_smooth s; V_smooth := V_smooth s; V_pair := V_pair s |}.
Definition set_x_filt (v : list vec) (s : emkf) : emkf :=
  {| cfg := cfg s; F := F s; b := b s; Fs := Fs s; allocated := allocated s;
     x_pred := x_pred s; V_pred := V_pred s; x_filt := v; V_filt := V_filt s;
     x_smooth := x_smooth s; V_smooth := V_smooth s; V_pair := V_pair s |}.
Definition set_V_filt (v : list matrix) (s : emkf) : emkf :=
  {| cfg := cfg s; F := F s; b := b s; Fs := Fs s; allocated := allocated s;
     x_pred := x_pred s; V_pred := V_pred s; x_filt := x_filt s; V_filt := v;
     x_smooth := x_smooth s; V_smooth := V_smooth s; V_pair := V_pair s |}.
Definition set_x_smooth (v : list vec) (s : emkf) : emkf :=
  {| cfg := cfg s; F := F s; b := b s; Fs := Fs s; allocated := allocated s;
     x_pred := x_pred s; V_pred := V_pred s; x_filt := x_filt s; V_filt := V_filt s;
     x_smooth := v; V_smooth := V_smooth s; V_pair := V_pair s |}.
Definition set_V_smooth (v : list matrix) (s : emkf) : emkf :=
  {| cfg := cfg s; F := F s; b := b s; Fs := Fs s; allocated := allocated s;
     x_pred := x_pred s; V_pred := V_pred s; x_filt := x_filt s; V_filt := V_filt s;
     x_smooth := x_smooth s; V_smooth := v; V_pair := V_pair s |}.
Definition set_V_pair (v : list matrix) (s : emkf) : emkf :=
  {| cfg := cfg s; F := F s; b := b s; Fs := Fs s; allocated := allocated s;
     x_pred := x_pred s; V_pred := V_pred s; x_filt := x_filt s; V_filt := V_filt s;
     x_smooth := x_smooth s; V_smooth := V_smooth s; V_pair := v |}.

(** ** The monad of methods: state that survives a raised exception *)

Definition M (A : Type) := emkf -> result A * emkf.

Definition ret {A} (a : A) : M A := fun s => (Ok a, s).
Definition raise {A} (e : exn) : M A := fun s => (Err e, s).
Definition bind {A B} (m : M A) (f : A -> M B) : M B :=
  fun s => match m s with
           | (Ok a, s') => f a s'
           | (Err e, s') => (Err e, s')
           end.
Definition gets {A} (f : emkf -> A) : M A := fun s => (Ok (f s), s).
Definition modify (f : emkf -> emkf) : M unit := fun s => (Ok tt, f s).
Definition lift {A} (r : result A) : M A := fun s => (r, s).

Notation "x <- m ;; k" := (bind m (fun x => k))
  (at level 61, m at next level, right associativity).
Notation "m ;;; k" := (bind m (fun _ => k))
  (at level 61, right associativity).

(** [for x in l: body(x)] *)
Fixpoint for_ {X} (l : list X) (body : X -> M unit) : M unit :=
  match l with
  | [] => ret tt
  | x :: l' => body x ;;; for_ l' body
  end.

(** A loop that carries local variables [a] from one round to the next. *)
Fixpoint foldM {X A} (l : list X) (a : A) (body : A -> X -> M A) : M A :=
  match l with
  | [] => ret a
  | x :: l' => a' <- body a x ;; foldM l' a' body
  end.

(** Reading [self.attr[i]] and writing [self.attr[i] = v]. *)
Definition read {A} (attr : emkf -> list A) (i : Z) : M A :=
  fun s => (getitem (attr s) i, s).
Definition write {A} (attr : emkf -> list A) (set : list A -> emkf -> emkf)
    (i : Z) (v : A) : M unit :=
  fun s => match setitem (attr s) i v with
           | Ok l => (Ok tt, set l s)
           | Err e => (Err e, s)
           end.
Definition param {A} (p : emkf -> tparam A) (t : Z) : M A :=
  fun s => (_last_dims (p s) t, s).

(** ** Methods of the class *)

Section Methods.

(** [self.xp.linalg.pinv] of the chosen array backend. *)
Variable pinv : matrix -> matrix.

Definition in_vars (name : string) (vars : list string) : bool :=
  existsb (String.eqb name) vars.

Definition unwrap {A} (o : option A) : M A :=
  match o with
  | Some a => ret a
  | None => raise UnboundLocalError
  end.

(** [_predict_update(t, F)].  [self.F] is a single [n_dim_sys x n_dim_sys]
    matrix, which [_last_dims(self.F, t - 1, 2)] returns as it is. *)
Definition _predict_update (t : Z) (Fo : option matrix) : M unit :=
  Ft <- match Fo with Some f => ret f | None => gets F end ;;
  Qt <- param (fun s => Q_cov (cfg s)) (t - 1) ;;
  bt <- param b (t - 1) ;;
  xf <- read x_filt (t - 1) ;;
  write x_pred set_x_pred t (vadd (matvec Ft xf) bt) ;;;
  Vf <- read V_filt (t - 1) ;;
  write V_pred set_V_pred t (madd (matmul (matmul Ft Vf) (transpose Ft)) Qt).

(** [_predict_update_pair(t, F)] *)
Definition _predict_update_pair (t : Z) (Fo : option matrix) : M unit :=
  Ft <- match Fo with Some f => ret f | None => gets F end ;;
  Qt <- param (fun s => Q_cov (cfg s)) (t - 1) ;;
  bt <- param b (t - 1) ;;
  xf <- read x_filt (t - 1) ;;
  write x_pred set_x_pred t (vadd (matvec Ft xf) bt) ;;;
  Vf <- read V_filt (t - 1) ;;
  write V_pred set_V_pred t (madd (matmul (matmul Ft Vf) (transpose Ft)) Qt) ;;;
  Vf' <- read V_filt (t - 1) ;;
  write V_pair set_V_pair t (matmul Vf' (transpose Ft)).

(** The Kalman gain of [_filter_update], as the source parenthesises it. *)
Definition kalman_gain (Vp Ht Rt : matrix) : matrix :=
  matmul Vp (matmul (transpose Ht)
                    (pinv (madd (matmul Ht (matmul Vp (transpose Ht))) Rt))).

(** [_filter_update(t)] *)
Definition _filter_update (t : Z) : M unit :=
  Ht <- param (fun s => H (cfg s)) t ;;
  Rt <- param (fun s => R (cfg s)) t ;;
  dt <- param (fun s => d (cfg s)) t ;;
  Vp <- read V_pred t ;;
  let K := kalman_gain Vp Ht Rt in
  xp <- read x_pred t ;;
  yt <- read (fun s => y (cfg s)) t ;;
  write x_filt set_x_filt t (vadd xp (matvec K (vsub yt (vadd (matvec Ht xp) dt)))) ;;;
  write V_filt set_V_filt t (msub Vp (matmul K (matmul Ht Vp))).

(** [_filter_update_pair(t)] *)
Definition _filter_update_pair (t : Z) : M unit :=
  Ht <- param (fun s => H (cfg s)) t ;;
  Rt <- param (fun s => R (cfg s)) t ;;
  dt <- param (fun s => d (cfg s)) t ;;
  Vp <- read V_pred t ;;
  let K := kalman_gain Vp Ht Rt in
  xp <- read x_pred t ;;
  yt <- read (fun s => y (cfg s)) t ;;
  write x_filt set_x_filt t (vadd xp (matvec K (vsub yt (vadd (matvec Ht xp) dt)))) ;;;
  write V_filt set_V_filt t (msub Vp (matmul K (matmul Ht Vp))) ;;;
  Vq <- read V_pair t ;;
  write V_pair set_V_pair t (msub Vq (matmul (matmul K Ht) Vq)).

(** The smoother gain [V_filt[t] @ F @ pinv(V_pred[t + 1])]. *)
Definition smoother_gain (Vf Ft Vp1 : matrix) : matrix :=
  matmul (matmul Vf Ft) (pinv Vp1).

(** One round of the loop of [_backward], at time [t]. *)
Definition backward_step (Ft : matrix) (t : Z) : M unit :=
  Vf <- read V_filt t ;;
  Vp1 <- read V_pred (t + 1) ;;
  let A := smoother_gain Vf Ft Vp1 in
  xf <- read x_filt t ;;
  xs1 <- read x_smooth (t + 1) ;;
  xp1 <- read x_pred (t + 1) ;;
  write x_smooth set_x_smooth t (vadd xf (matvec A (vsub xs1 xp1))) ;;;
  Vs1 <- read V_smooth (t + 1) ;;
  write V_smooth set_V_smooth t
        (madd Vf (matmul (matmul A (msub Vs1 Vp1)) (transpose A))) ;;;
  Vs1' <- read V_smooth (t + 1) ;;
  write V_pair set_V_pair (t + 1) (matmul Vs1' (transpose A)).

(** [_backward(s, tau, F)].  Without [F] the method reads its loop variable
    [t] before the loop has bound it. *)
Definition _backward (s tau' : Z) (Fo : option matrix) : M unit :=
  Ft <- unwrap Fo ;;
  xf <- read x_filt s ;;
  write x_smooth set_x_smooth s xf ;;;
  Vf <- read V_filt s ;;
  write V_smooth set_V_smooth s Vf ;;;
  for_ (rev (range (s - tau') s)) (backward_step Ft).

(** The sums [res1], [res2] of the M-step over the times [ts], from the means
    [xs], the covariances [Vs] and the pairwise covariances [self.V_pair]. *)
Definition mstep_sums (xs : emkf -> list vec) (Vs : emkf -> list matrix)
    (ts : list Z) : M (matrix * matrix) :=
  n <- gets (fun st => n_dim_sys (cfg st)) ;;
  foldM ts (zeros2 n n, zeros2 n n) (fun acc t =>
    bt <- param b (t - 1) ;;
    Vq <- read V_pair t ;;
    xt <- read xs t ;;
    xt1 <- read xs (t - 1) ;;
    let res1 := msub (madd (fst acc) (madd Vq (outer xt xt1))) (outer bt xt1) in
    Vt1 <- read Vs (t - 1) ;;
    ret (res1, madd (snd acc) (madd Vt1 (outer xt1 xt1)))).

(** [_update_transition_matrix(s, tau, F)].  [F_est] is bound only when "F"
    is in [em_vars]; the final [return F_est] reads it in any case. *)
Definition _update_transition_matrix (s tau' : Z) (Fo : option matrix) : M matrix :=
  _backward s tau' Fo ;;;
  ev <- gets (fun st => em_vars (cfg st)) ;;
  F_est <- (if in_vars "F" ev then
              res <- mstep_sums x_smooth V_smooth (range (s - tau' + 1) (s + 1)) ;;
              ret (Some (matmul (fst res) (pinv (snd res))))
            else ret None) ;;
  (if in_vars "b" ev && (1 <? tau') then
     n <- gets (fun st => n_dim_sys (cfg st)) ;;
     b_sum <- foldM (range (s - tau' + 1) s) (zeros1 n) (fun acc t =>
                Ft <- gets F ;;
                xt <- read x_smooth t ;;
                xt1 <- read x_smooth (t - 1) ;;
                ret (vadd acc (vsub xt (matvec Ft xt1)))) ;;
     let b_est := map (fun x => x * (1 / inject_Z (tau' - 1)))%Q b_sum in
     modify (fun st =>
       set_b (tmap (fun bv => damped_clip_vec (etab (cfg st)) (cutoffb (cfg st)) bv b_est)
                   (b st)) st)
   else ret tt) ;;;
  unwrap F_est.

(** The damped, clipped step of [self.F] towards [F_est] (the assignment to
    [self.F] in [forward] and in [_update_transition_matrix_approximately]). *)
Definition damped_update_F (F_est : matrix) : M unit :=
  modify (fun st =>
    set_F (damped_clip (eta (cfg st)) (cutoff (cfg st)) (F st) F_est) st).

(** [if self.store_transition_matrices_on: self.Fs[k//self.tau+1] = self.F] *)
Definition store_transition_matrix (k : Z) : M unit :=
  on <- gets (fun st => store_transition_matrices_on (cfg st)) ;;
  if on then
    Fv <- gets F ;;
    tau' <- gets (fun st => tau (cfg st)) ;;
    if tau' =? 0 then raise ZeroDivisionError
    else write Fs set_Fs (k / tau' + 1) Fv
  else ret tt.

(** [_update_transition_matrix_approximately(t)] *)
Definition _update_transition_matrix_approximately (t : Z) : M unit :=
  tau' <- gets (fun st => tau (cfg st)) ;;
  res <- mstep_sums x_filt V_filt (range (t + 1) (t + tau' + 1)) ;;
  let F_est := matmul (fst res) (pinv (snd res)) in
  damped_update_F F_est ;;;
  store_transition_matrix t.

(** Allocation of the trajectory buffers at the start of [forward]. *)
Definition allocate (st : emkf) : emkf :=
  let T := length (y (cfg st)) in
  let n := n_dim_sys (cfg st) in
  {| cfg := cfg st; F := F st; b := b st; Fs := Fs st; allocated := true;
     x_pred := repeat (zeros1 n) T; V_pred := zeros3 T n n;
     x_filt := repeat (zeros1 n) T; V_filt := zeros3 T n n;
     x_smooth := repeat (zeros1 n) T; V_smooth := zeros3 T n n;
     V_pair := zeros3 T n n |}.

(** One round [n] of the refinement loop of a block starting at [s]: the
    local variables are [F_est] and the loop variable [t] of the inner loop,
    which keeps its last value (or stays unbound) when the loop ends. *)
Definition smooth_iteration (s : Z) (loc : matrix * option Z) (n : Z)
    : M (matrix * option Z) :=
  T <- gets (fun st => Z.of_nat (length (y (cfg st)))) ;;
  tau' <- gets (fun st => tau (cfg st)) ;;
  (if n =? 0 then ret tt
   else
     xs <- read x_smooth s ;;
     write x_pred set_x_pred s xs ;;;
     Vs <- read V_smooth s ;;
     xs' <- read x_smooth s ;;
     write V_pred set_V_pred s (msub Vs (outer xs' xs'))) ;;;
  tv <- foldM (range (s + 1) (Z.min (s + tau' + 1) T)) (snd loc) (fun _ t =>
          _predict_update t (Some (fst loc)) ;;;
          _filter_update t ;;;
          ret (Some t)) ;;
  t <- unwrap tv ;;
  F_est <- _update_transition_matrix t
             (Z.of_nat (length (range s (Z.min (s + tau' + 1) T))) - 1)
             (Some (fst loc)) ;;
  ret (F_est, tv).

(** The body of the loop over block starts [s] in "smooth" mode; [tv] is the
    local variable [t] of [forward]. *)
Definition smooth_block (tv : option Z) (s : Z) : M (option Z) :=
  F_est0 <- gets F ;;
  (if s =? 0 then ret tt else _predict_update s (Some F_est0)) ;;;
  _filter_update s ;;;
  iters <- gets (fun st => range 0 (iteration (cfg st))) ;;
  loc <- foldM iters (F_est0, tv) (smooth_iteration s) ;;
  damped_update_F (fst loc) ;;;
  store_transition_matrix s ;;;
  ret (snd loc).

(** The body of the loop over [t] in "filter" mode. *)
Definition filter_step (t : Z) : M unit :=
  T <- gets (fun st => Z.of_nat (length (y (cfg st)))) ;;
  tau' <- gets (fun st => tau (cfg st)) ;;
  (if tau' =? 0 then raise ZeroDivisionError else ret tt) ;;;
  (if ((t - 1) mod tau' =? 0) && (t <? T - tau') then
     for_ (range t (t + tau' + 1)) (fun s =>
       _predict_update s None ;;; _filter_update s) ;;;
     _update_transition_matrix_approximately t
   else ret tt) ;;;
  _predict_update t None ;;;
  _filter_update t.

(** [forward()] *)
Definition forward : M unit :=
  modify allocate ;;;
  T <- gets (fun st => Z.of_nat (length (y (cfg st)))) ;;
  m0 <- gets (fun st => initial_mean (cfg st)) ;;
  write x_pred set_x_pred 0 m0 ;;;
  V0 <- gets (fun st => initial_covariance (cfg st)) ;;
  write V_pred set_V_pred 0 V0 ;;;
  md <- gets (fun st => mode (cfg st)) ;;
  match md with
  | Smooth =>
      tau' <- gets (fun st => tau (cfg st)) ;;
      blocks <- lift (range_step T tau') ;;
      foldM blocks None smooth_block ;;; ret tt
  | Filter =>
      _filter_update 0 ;;;
      for_ (range 1 T) filter_step
  end.

(** ** Result accessors *)

Inductive value :=
| Trajectory (x : list vec)
| Coordinate (x : vec).

(** [try: self.attr[0]  except: compute()] *)
Definition ensure {A} (attr : emkf -> list A) (compute : M unit) : M unit :=
  fun st =>
    if allocated st && negb (Nat.eqb (length (attr st)) 0) then (Ok tt, st)
    else compute st.

(** The three-way branch shared by the accessors.  The last branch builds its
    message by adding the integer [shape[1]] to a string, which raises
    [TypeError] before any [ValueError] is constructed. *)
Definition select (attr : emkf -> list vec) (dim : option Z) : M value :=
  x <- gets attr ;;
  n <- gets (fun st => n_dim_sys (cfg st)) ;;
  match dim with
  | None => ret (Trajectory x)
  | Some j =>
      if j <=? Z.of_nat n then
        match norm_index n j with
        | Some k => ret (Coordinate (column k x))
        | None => raise IndexError
        end
      else raise TypeError
  end.

(** [get_predicted_value(dim)] *)
Definition get_predicted_value (dim : option Z) : M value :=
  ensure x_pred forward ;;; select x_pred dim.

(** [get_filtered_value(dim)] *)
Definition get_filtered_value (dim : option Z) : M value :=
  ensure x_filt forward ;;; select x_filt dim.

(** [get_smoothed_value(dim)]: the class has no method [smooth]. *)
Definition get_smoothed_value (dim : option Z) : M value :=
  ensure x_smooth (raise AttributeError) ;;; select x_smooth dim.

Inductive history :=
| Matrices (l : list matrix)
| Current (m : matrix).

(** [get_transition_matrices(ids)] *)
Definition get_transition_matrices (ids : option (list Z)) : M history :=
  on <- gets (fun st => store_transition_matrices_on (cfg st)) ;;
  if on then
    hist <- gets Fs ;;
    match ids with
    | None => ret (Matrices hist)
    | Some l =>
        sel <- foldM l [] (fun acc i => m <- read Fs i ;; ret (acc ++ [m])) ;;
        ret (Matrices sel)
    end
  else Fv <- gets F ;; ret (Current Fv).

End Methods.

(** ** Construction *)

Record init_args := {
  observation : list vec;
  arg_initial_mean : option vec;
  arg_initial_covariance : option matrix;
  transition_matrices : option matrix;
  observation_matrices : option (tparam matrix);
  transition_covariance : option (tparam matrix);
  observation_covariance : option (tparam matrix);
  transition_offsets : option (tparam vec);
  observation_offsets : option (tparam vec);
  update_interval : Z;
  arg_eta : Q;
  arg_cutoff : Q;
  arg_etab : Q;
  arg_cutoffb : Q;
  arg_iteration : Z;
  arg_store_transition_matrices_on : bool;
  arg_em_vars : list string;
  arg_mode : string;
  arg_n_dim_sys : nat;
  arg_n_dim_obs : nat
}.

Definition default {A} (o : option A) (a : A) : A :=
  match o with Some v => v | None => a end.

Definition parse_mode (m : string) : result mode_t :=
  if String.eqb m "filter" then Ok Filter
  else if String.eqb m "smooth" then Ok Smooth
  else Err ValueError.

(** The normalised list [self.em_vars]. *)
Definition normalise_em_vars (vars : list string) : list string :=
  (if in_vars "F" vars || in_vars "transition_matrices" vars then ["F"%string] else [])
  ++ (if in_vars "b" vars || in_vars "transition_offsets" vars then ["b"%string] else []).

(** [self.Fs = zeros(((len(y)-1)//tau+1+1, F.shape[0], F.shape[1]));
    self.Fs[0] = self.F] *)
Definition init_history (T : nat) (tau' : Z) (F0 : matrix) : result (list matrix) :=
  if tau' =? 0 then Err ZeroDivisionError
  else
    let len := (Z.of_nat T - 1) / tau' + 1 + 1 in
    if len <? 0 then Err ValueError
    else setitem (zeros3 (Z.to_nat len) (length F0) (length (hd [] F0))) 0 F0.

(** [__init__], with the dimensions resolved by [_determine_dimensionality]
    passed in as [arg_n_dim_sys] and [arg_n_dim_obs]. *)
Definition __init__ (a : init_args) : result emkf :=
  let n := arg_n_dim_sys a in
  let m := arg_n_dim_obs a in
  let F0 := default (transition_matrices a) (eye n n) in
  match parse_mode (arg_mode a) with
  | Err e => Err e
  | Ok md =>
      let hist := if arg_store_transition_matrices_on a
                  then init_history (length (observation a)) (update_interval a) F0
                  else Ok [] in
      match hist with
      | Err e => Err e
      | Ok fs =>
          Ok {| cfg := {| y := observation a;
                          initial_mean := default (arg_initial_mean a) (zeros1 n);
                          initial_covariance := default (arg_initial_covariance a) (eye n n);
                          Q_cov := default (transition_covariance a) (Const (eye n n));
                          H := default (observation_matrices a) (Const (eye m n));
                          R := default (observation_covariance a) (Const (eye m m));
                          d := default (observation_offsets a) (Const (zeros1 m));
                          tau := update_interval a;
                          store_transition_matrices_on := arg_store_transition_matrices_on a;
                          em_vars := normalise_em_vars (arg_em_vars a);
                          iteration := arg_iteration a;
                          eta := arg_eta a; cutoff := arg_cutoff a;
                          etab := arg_etab a; cutoffb := arg_cutoffb a;
                          mode := md;
                          n_dim_sys := n; n_dim_obs := m |};
                F := F0;
                b := default (transition_offsets a) (Const (zeros1 n));
                Fs := fs;
                allocated := false;
                x_pred := []; V_pred := []; x_filt := []; V_filt := [];
                x_smooth := []; V_smooth := []; V_pair := [] |}
      end
  end.

(** The pseudo-inverse of a 1 x 1 matrix: the reciprocal, and 0 for 0.  The
    reciprocal is exact: it neither rounds nor overflows as the float32
    reciprocal of the source can. *)
Definition pinv_scalar (A : matrix) : matrix := map (map Qinv) A.


(** ** Vocabulary of the properties *)

(** [preserves I m]: whatever [m] does, and whether it returns or raises,
    it leaves a state satisfying [I] in a state satisfying [I]. *)
Definition preserves {A} (I : emkf -> Prop) (m : M A) : Prop :=
  forall s, I s -> I (snd (m s)).

Definition entry (A : matrix) (i j : nat) : option Q :=
  match nth_error A i with
  | Some r => nth_error r j
  | None => None
  end.

(** No entry present in both [old] and [new] differs by more than [r]. *)
Definition vec_within (r : Q) (old new : vec) : Prop :=
  forall j o n, nth_error old j = Some o -> nth_error new j = Some n ->
    (Qabs (n - o) <= r)%Q.

Definition moves_within (r : Q) (old new : matrix) : Prop :=
  forall i j o n, entry old i j = Some o -> entry new i j = Some n ->
    (Qabs (n - o) <= r)%Q.

(** The same for an offset, given once or per time step. *)
Definition offset_within (r : Q) (old new : tparam vec) : Prop :=
  match old, new with
  | Const u, Const v => vec_within r u v
  | Seq l, Seq l' =>
      forall i u v, nth_error l i = Some u -> nth_error l' i = Some v ->
        vec_within r u v
  | _, _ => False
  end.

(** Everything a method can do to [self.F] in one call: nothing, or one
    damped, clipped step. *)
Definition F_kept (s0 s : emkf) : Prop := cfg s = cfg s0 /\ F s = F s0.
Definition F_stepped (s0 s : emkf) : Prop :=
  cfg s = cfg s0 /\
  (F s = F s0 \/
   exists cand, F s = damped_clip (eta (cfg s0)) (cutoff (cfg s0)) (F s0) cand).

Definition b_kept (s0 s : emkf) : Prop := cfg s = cfg s0 /\ b s = b s0.
Definition b_stepped (s0 s : emkf) : Prop :=
  cfg s = cfg s0 /\
  (b s = b s0 \/
   exists cand, b s = tmap (fun bv =>
     damped_clip_vec (etab (cfg s0)) (cutoffb (cfg s0)) bv cand) (b s0)).

(** One damped, clipped step of an offset towards some candidate, or none. *)
Definition offset_step (rate thr : Q) (old new : tparam vec) : Prop :=
  new = old \/
  exists cand, new = tmap (fun bv => damped_clip_vec rate thr bv cand) old.

(** At most [n] such steps in a row. *)
Fixpoint offset_steps (rate thr : Q) (n : nat) (old new : tparam vec) : Prop :=
  match n with
  | O => new = old
  | S k => exists mid, offset_steps rate thr k old mid /\ offset_step rate thr mid new
  end.

(** Everything [n] refinement rounds can do to [self.b]. *)
Definition b_rounds (n : nat) (s0 s : emkf) : Prop :=
  cfg s = cfg s0 /\ offset_steps (etab (cfg s0)) (cutoffb (cfg s0)) n (b s0) (b s).

(** [leads I K m]: from a state satisfying [I], [m] ends in one satisfying
    [K], whether it returns or raises. *)
Definition leads {A} (I K : emkf -> Prop) (m : M A) : Prop :=
  forall s, I s -> K (snd (m s)).

(** ** A plain Kalman filter with fixed parameters

    The reference of the no-adaptation property, written after the words of
    the specification of the forward recursion: [predict] gives
    F.mean + b and F.cov.F^T + Q; [update] gives the innovation covariance
    S = H.cov.H^T + R, the gain K = cov.H^T.S^+, the mean
    pred + K.(y - H.pred - d) and the covariance cov - K.H.cov. *)

Definition reference_predict (Fm Qm : matrix) (bm : vec) (x : vec) (V : matrix)
    : vec * matrix :=
  (vadd (matvec Fm x) bm, madd (matmul (matmul Fm V) (transpose Fm)) Qm).

Definition reference_update (pinv : matrix -> matrix) (Hm Rm : matrix) (dm : vec)
    (xp : vec) (Vp : matrix) (yt : vec) : vec * matrix :=
  let S := madd (matmul (matmul Hm Vp) (transpose Hm)) Rm in
  let K := matmul (matmul Vp (transpose Hm)) (pinv S) in
  (vadd xp (matvec K (vsub (vsub yt (matvec Hm xp)) dm)),
   msub Vp (matmul (matmul K Hm) Vp)).

(** Filtered means and covariances for the observations [ys], the first of
    which meets the predicted pair [(xp, Vp)]. *)
Fixpoint reference_filter (pinv : matrix -> matrix) (Fm Qm Hm Rm : matrix)
    (bm dm : vec) (xp : vec) (Vp : matrix) (ys : list vec) : list (vec * matrix) :=
  match ys with
  | [] => []
  | yt :: ys' =>
      let f := reference_update pinv Hm Rm dm xp Vp yt in
      let p := reference_predict Fm Qm bm (fst f) (snd f) in
      f :: reference_filter pinv Fm Qm Hm Rm bm dm (fst p) (snd p) ys'
  end.

(** ** Scalar examples *)

(** A one-dimensional model with the default parameters, observing
    1, 2, ..., T, with update rates and cut-offs 1/10. *)
Definition scalar_args (md : string) (vars : list string) (T : nat) (tau' it : Z)
    : init_args :=
  {| observation := map (fun k => [inject_Z (Z.of_nat k + 1)]) (seq 0 T);
     arg_initial_mean := None; arg_initial_covariance := None;
     transition_matrices := None; observation_matrices := None;
     transition_covariance := None; observation_covariance := None;
     transition_offsets := None; observation_offsets := None;
     update_interval := tau';
     arg_eta := 1 # 10; arg_cutoff := 1 # 10;
     arg_etab := 1 # 10; arg_cutoffb := 1 # 10;
     arg_iteration := it; arg_store_transition_matrices_on := true;
     arg_em_vars := vars; arg_mode := md;
     arg_n_dim_sys := 1; arg_n_dim_obs := 1 |}.

(** The object built from [scalar_args] (the empty object stands for a
    constructor that raised, which none of the examples does). *)
Definition empty_object : emkf :=
  {| cfg := {| y := []; initial_mean := []; initial_covariance := [];
               Q_cov := Const []; H := Const []; R := Const []; d := Const [];
               tau := 1; store_transition_matrices_on := false; em_vars := [];
               iteration := 0; eta := 0; cutoff := 0; etab := 0; cutoffb := 0;
               mode := Smooth; n_dim_sys := 0; n_dim_obs := 0 |};
     F := []; b := Const []; Fs := []; allocated := false;
     x_pred := []; V_pred := []; x_filt := []; V_filt := [];
     x_smooth := []; V_smooth := []; V_pair := [] |}.

Definition scalar_object (md : string) (vars : list string) (T : nat) (tau' it : Z)
    : emkf :=
  match __init__ (scalar_args md vars T tau' it) with
  | Ok o => o
  | Err _ => empty_object
  end.

(** Three observations 1, 2, 3 of a scalar state observed without noise
    ([observation_covariance] 0), one block of length 3, [it] refinement rounds,
    both F and b in [em_vars]; everything else as in [scalar_args]. *)
Definition noiseless_args (it : Z) : init_args :=
  {| observation := [[1%Q]; [2%Q]; [3%Q]];
     arg_initial_mean := None; arg_initial_covariance := None;
     transition_matrices := None; observation_matrices := None;
     transition_covariance := None;
     observation_covariance := Some (Const [[0%Q]]);
     transition_offsets := None; observation_offsets := None;
     update_interval := 3;
     arg_eta := 1 # 10; arg_cutoff := 1 # 10;
     arg_etab := 1 # 10; arg_cutoffb := 1 # 10;
     arg_iteration := it; arg_store_transition_matrices_on := true;
     arg_em_vars := ["F"%string; "b"%string]; arg_mode := "smooth"%string;
     arg_n_dim_sys := 1; arg_n_dim_obs := 1 |}.

Definition noiseless_object (it : Z) : emkf :=
  match __init__ (noiseless_args it) with
  | Ok o => o
  | Err _ => empty_object
  end.

(** Exact rationals in lowest terms, for display. *)
Definition reduced (x : list vec) : list vec := map (map Qred) x.

(** All seven trajectory buffers have [T] entries. *)
Definition lens (T : nat) (st : emkf) : Prop :=
  length (x_pred st) = T /\ length (V_pred st) = T /\
  length (x_filt st) = T /\ length (V_filt st) = T /\
  length (x_smooth st) = T /\ length (V_smooth st) = T /\
  length (V_pair st) = T.

(** The equations of the backward recursion at time [t], read in the state
    [st] with the transition matrix [Ft]. *)
Definition rts_at (pinv : matrix -> matrix) (Ft : matrix) (st : emkf) (t : Z) : Prop :=
  exists Vf Vp1 Vs1 xf xp1 xs1,
    getitem (V_filt st) t = Ok Vf /\
    getitem (V_pred st) (t + 1) = Ok Vp1 /\
    getitem (V_smooth st) (t + 1) = Ok Vs1 /\
    getitem (x_filt st) t = Ok xf /\
    getitem (x_pred st) (t + 1) = Ok xp1 /\
    getitem (x_smooth st) (t + 1) = Ok xs1 /\
    let A := matmul (matmul Vf Ft) (pinv Vp1) in
    getitem (x_smooth st) t = Ok (vadd xf (matvec A (vsub xs1 xp1))) /\
    getitem (V_smooth st) t
      = Ok (madd Vf (matmul (matmul A (msub Vs1 Vp1)) (transpose A))) /\
    getitem (V_pair st) (t + 1) = Ok (matmul Vs1 (transpose A)).

(** What [_backward] leaves as it found it. *)
Definition forward_pass_kept (st st' : emkf) : Prop :=
  cfg st' = cfg st /\ F st' = F st /\ b st' = b st /\ Fs st' = Fs st /\
  x_pred st' = x_pred st /\ V_pred st' = V_pred st /\
  x_filt st' = x_filt st /\ V_filt st' = V_filt st.

(** The history buffer has [L] entries, the last of which is [Zm], and the
    configuration is [c0]. *)
Definition hist_inv (c0 : config) (L : nat) (Zm : matrix) (st : emkf) : Prop :=
  cfg st = c0 /\ length (Fs st) = L /\ nth_error (Fs st) (L - 1) = Some Zm.

(** The configuration is [c0] and the buffers have [T] entries. *)
Definition base (c0 : config) (T : nat) (st : emkf) : Prop :=
  cfg st = c0 /\ lens T st.

(** In addition, the smoothed mean and covariance at [t] are the filtered
    ones. *)
Definition boundary (c0 : config) (T : nat) (t : Z) (st : emkf) : Prop :=
  base c0 T st /\
  getitem (x_smooth st) t = getitem (x_filt st) t /\
  getitem (V_smooth st) t = getitem (V_filt st) t.

(** End of the block that starts at [s]. *)
Definition block_end (c0 : config) (T : nat) (s : Z) : Z :=
  Z.min (s + tau c0) (Z.of_nat T - 1).

(** What is known of the local variable [t] of [forward] on entry to the
    block that starts at [s]: if bound and the block has no time after [s],
    it is [s]. *)
Definition t_entry (T : nat) (s : Z) (tv : option Z) : Prop :=
  forall t0, tv = Some t0 -> s + 1 < Z.of_nat T \/ t0 = s.

(** The configuration is [c0] and the pairwise covariances are [Vq]. *)
Definition pair_kept (c0 : config) (Vq : list matrix) (st : emkf) : Prop :=
  cfg st = c0 /\ V_pair st = Vq.

(** The configuration is [c0] and the transition offset is [b0]. *)
Definition offset_kept (c0 : config) (b0 : tparam vec) (st : emkf) : Prop :=
  cfg st = c0 /\ b st = b0.

(** [forward] has created the trajectory buffers, each of [T] entries, and
    the configuration is [c0]. *)
Definition computed (c0 : config) (T : nat) (st : emkf) : Prop :=
  cfg st = c0 /\ allocated st = true /\ lens T st.

(** The accessors with the buffer each of them reads. *)
Definition accessors (pinv : matrix -> matrix)
    : list ((option Z -> M value) * (emkf -> list vec)) :=
  [ (get_predicted_value pinv, x_pred);
    (get_filtered_value pinv, x_filt);
    (get_smoothed_value, x_smooth) ].

(** The configuration is [c0]. *)
Definition configured (c0 : config) (st : emkf) : Prop := cfg st = c0.

(** The configuration is [c0], the transition matrix [F0] and the history
    [Fs0]. *)
Definition model_kept (c0 : config) (F0 : matrix) (Fs0 : list matrix)
    (st : emkf) : Prop :=
  cfg st = c0 /\ F st = F0 /\ Fs st = Fs0.

(** Every entry of the matrix is zero. *)
Definition all_zero (A : matrix) : Prop := Forall (Forall (fun q => q == 0)%Q) A.

(** Two states that differ at most in the pairwise covariances. *)
Definition same_but_V_pair (s1 s2 : emkf) : Prop :=
  set_V_pair [] s1 = set_V_pair [] s2.

(** [succeeds P m Q]: from a state satisfying [P], [m] returns, with a value
    and a final state satisfying [Q]. *)
Definition succeeds {A} (P : emkf -> Prop) (m : M A) (Q : A -> emkf -> Prop) : Prop :=
  forall s, P s -> exists a s', m s = (Ok a, s') /\ Q a s'.

(** [steps I m]: from a state satisfying [I], [m] returns in a state
    satisfying [I]. *)
Definition steps {A} (I : emkf -> Prop) (m : M A) : Prop :=
  succeeds I m (fun _ => I).

(** The covariances, the observation matrix and the observation offset are
    given once, not per time step. *)
Definition constant_parameters (c0 : config) : Prop :=
  (exists m, Q_cov c0 = Const m) /\ (exists m, H c0 = Const m) /\
  (exists m, R c0 = Const m) /\ (exists v, d c0 = Const v).

(** A state in which a run can proceed: the buffers have [T] entries, the
    transition offset is given once, and the history (when kept) has the
    length [__init__] gives it. *)
Definition sound (c0 : config) (T : nat) (st : emkf) : Prop :=
  cfg st = c0 /\ lens T st /\ (exists bv, b st = Const bv) /\
  (store_transition_matrices_on c0 = true ->
   Z.of_nat (length (Fs st)) = (Z.of_nat T - 1) / tau c0 + 2).

(** The configuration is [c0] and the history entry at [i] reads [r0]. *)
Definition entry_kept (c0 : config) (i : Z) (r0 : result matrix) (st : emkf) : Prop :=
  cfg st = c0 /\ getitem (Fs st) i = r0.

(** * The right-hand sides of model.py

    Each class [C(ODE)] has a method [f(x, t)] that allocates
    [perturbation = zeros_like(x)], stores its components one by one and
    returns it.  State vectors are lists of rationals; reading or storing
    past the end raises [IndexError], a name that is bound nowhere raises
    [NameError].  Values are those of exact arithmetic; a division by a zero
    mass, which numpy answers with inf or nan, is read as 0 as in [Q]. *)

Module Ode.

Inductive exn := IndexError | NameError.

Inductive outcome (A : Type) :=
| Done (a : A)
| Raise (e : exn).
Arguments Done {A} a.
Arguments Raise {A} e.

Definition then_ {A B} (r : outcome A) (k : A -> outcome B) : outcome B :=
  match r with
  | Done a => k a
  | Raise e => Raise e
  end.

Notation "x <~ r ;; k" := (then_ r (fun x => k))
  (at level 61, r at next level, right associativity).

(** [x[k]] for a literal index [k] *)
Definition get (x : vec) (k : nat) : outcome Q :=
  match nth_error x k with
  | Some q => Done q
  | None => Raise IndexError
  end.

(** [perturbation[k] = q] for a literal index [k] *)
Definition put (p : vec) (k : nat) (q : Q) : outcome vec :=
  if Nat.ltb k (length p) then Done (upd p k q) else Raise IndexError.

(** [self.xp.zeros_like(x)] *)
Definition zeros_like (x : vec) : vec := repeat 0%Q (length x).

(** [DampedOscillationModel.f] *)
Definition damped_oscillation (m k r : Q) (w : Q -> Q) (x : vec) (t : Q)
    : outcome vec :=
  let p := zeros_like x in
  x1 <~ get x 1 ;;
  p <~ put p 0 x1 ;;
  x0 <~ get x 0 ;;
  x1' <~ get x 1 ;;
  put p 1 ((- k * x0 - r * x1' + w t) / m)%Q.

(** [CoefficientChangedDampedOscillationModel.f] *)
Definition coefficient_changed_damped_oscillation (m : Q) (k r w : Q -> Q)
    (x : vec) (t : Q) : outcome vec :=
  let p := zeros_like x in
  x1 <~ get x 1 ;;
  p <~ put p 0 x1 ;;
  x0 <~ get x 0 ;;
  x1' <~ get x 1 ;;
  put p 1 ((- k t * x0 - r t * x1' + w t) / m)%Q.

(** [DuffingModel.f] *)
Definition duffing (m alpha beta : Q) (x : vec) (t : Q) : outcome vec :=
  let p := zeros_like x in
  x1 <~ get x 1 ;;
  p <~ put p 0 x1 ;;
  x0 <~ get x 0 ;;
  x0' <~ get x 0 ;;
  put p 1 ((- alpha * x0 - beta * x0' ^ 3) / m)%Q.

(** [Lorentz63Model.f] *)
Definition lorentz63 (sigma rho beta : Q) (x : vec) (t : Q) : outcome vec :=
  let p := zeros_like x in
  x1 <~ get x 1 ;;
  x0 <~ get x 0 ;;
  p <~ put p 0 (sigma * (x1 - x0))%Q ;;
  y0 <~ get x 0 ;;
  y2 <~ get x 2 ;;
  y1 <~ get x 1 ;;
  p <~ put p 1 (y0 * (rho - y2) - y1)%Q ;;
  z0 <~ get x 0 ;;
  z1 <~ get x 1 ;;
  z2 <~ get x 2 ;;
  put p 2 (z0 * z1 - beta * z2)%Q.

(** [VanderPol.f]: the second component names [v], which is bound nowhere. *)
Definition vanderpol (mu : Q) (x : vec) (t : Q) : outcome vec :=
  let p := zeros_like x in
  x1 <~ get x 1 ;;
  p <~ put p 0 x1 ;;
  x0 <~ get x 0 ;;
  Raise NameError.

(** [FitzHughNagumo.f] *)
Definition fitzhugh_nagumo (a b c : Q) (I : Q -> Q) (x : vec) (t : Q)
    : outcome vec :=
  let p := zeros_like x in
  x0 <~ get x 0 ;;
  x1 <~ get x 1 ;;
  x0' <~ get x 0 ;;
  p <~ put p 0 (c * (x0 - x1 - x0' ^ 3 / 3 + I t))%Q ;;
  y0 <~ get x 0 ;;
  y1 <~ get x 1 ;;
  put p 1 (a + y0 - b * y1)%Q.

(** [LotkaVolterra.f] *)
Definition lotka_volterra (a b c d : Q) (x : vec) (t : Q) : outcome vec :=
  let p := zeros_like x in
  x0 <~ get x 0 ;;
  x0' <~ get x 0 ;;
  x1 <~ get x 1 ;;
  p <~ put p 0 (a * x0 - b * x0' * x1)%Q ;;
  y0 <~ get x 0 ;;
  y1 <~ get x 1 ;;
  y1' <~ get x 1 ;;
  put p 1 (c * y0 * y1 - d * y1')%Q.

(** [ClockReaction.f] *)
Definition clock_reaction (k1 k2 : Q) (x : vec) (t : Q) : outcome vec :=
  let p := zeros_like x in
  a0 <~ get x 0 ;;
  a1 <~ get x 1 ;;
  p <~ put p 0 (- k1 * a0 * a1)%Q ;;
  b0 <~ get x 0 ;;
  b1 <~ get x 1 ;;
  p <~ put p 1 (- k1 * b0 * b1)%Q ;;
  c0 <~ get x 0 ;;
  c1 <~ get x 1 ;;
  c2 <~ get x 2 ;;
  c3 <~ get x 3 ;;
  p <~ put p 2 (k1 * c0 * c1 - k2 * c2 * c3)%Q ;;
  d2 <~ get x 2 ;;
  d3 <~ get x 3 ;;
  put p 3 (- k2 * d2 * d3)%Q.

(** The models whose [f] can return, each with the number of components it
    reads and stores. *)
Definition models (m k r alpha beta sigma rho a b c d k1 k2 : Q)
    (w kt rt I : Q -> Q) : list ((vec -> Q -> outcome vec) * nat) :=
  [ (damped_oscillation m k r w, 2%nat);
    (coefficient_changed_damped_oscillation m kt rt w, 2%nat);
    (duffing m alpha beta, 2%nat);
    (lorentz63 sigma rho beta, 3%nat);
    (fitzhugh_nagumo a b c I, 2%nat);
    (lotka_volterra a b c d, 2%nat);
    (clock_reaction k1 k2, 4%nat) ].

End Ode.

(** * Properties *)

(** ** Lists and Python indexing *)

Lemma upd_length {A} (l : list A) k a : length (upd l k a) = length l.
Proof.
  revert k; induction l as [|x l IH]; intros [|k]; simpl; auto.
Qed.

Lemma nth_error_upd_same {A} (l : list A) k a :
  (k < length l)%nat -> nth_error (upd l k a) k = Some a.
Proof.
  revert k; induction l as [|x l IH]; intros [|k]; simpl; intros; try lia; auto.
  apply IH; lia.
Qed.

Lemma nth_error_upd_other {A} (l : list A) k j a :
  j <> k -> nth_error (upd l k a) j = nth_error l j.
Proof.
  revert k j; induction l as [|x l IH]; intros [|k] [|j]; simpl; intros; auto;
    try congruence.
Qed.

Lemma norm_index_lt n i k : norm_index n i = Some k -> (k < n)%nat.
Proof.
  unfold norm_index.
  destruct ((0 <=? i) && (i <? Z.of_nat n)) eqn:E1.
  - intros [= <-]. apply andb_prop in E1 as [? ?]. lia.
  - destruct ((- Z.of_nat n <=? i) && (i <? 0)) eqn:E2; [|discriminate].
    intros [= <-]. apply andb_prop in E2 as [? ?]. lia.
Qed.

Lemma norm_index_nonneg n i :
  0 <= i < Z.of_nat n -> norm_index n i = Some (Z.to_nat i).
Proof.
  intros Hi. unfold norm_index.
  replace ((0 <=? i) && (i <? Z.of_nat n)) with true; auto.
  symmetry; apply andb_true_intro; split; lia.
Qed.

Lemma norm_index_nonneg_inv n i k :
  0 <= i -> norm_index n i = Some k -> k = Z.to_nat i /\ i < Z.of_nat n.
Proof.
  intros Hi. unfold norm_index.
  destruct ((0 <=? i) && (i <? Z.of_nat n)) eqn:E1.
  - intros [= <-]. split; auto. lia.
  - destruct ((- Z.of_nat n <=? i) && (i <? 0)) eqn:E2; [|discriminate]. lia.
Qed.

Lemma norm_index_none n i :
  Z.of_nat n <= i -> norm_index n i = None.
Proof.
  intros Hi. unfold norm_index.
  replace (i <? Z.of_nat n) with false by (symmetry; lia).
  replace (i <? 0) with false by (symmetry; lia).
  now rewrite !andb_false_r.
Qed.

Lemma getitem_nonneg {A} (l : list A) i :
  0 <= i < Z.of_nat (length l) ->
  exists a, getitem l i = Ok a /\ nth_error l (Z.to_nat i) = Some a.
Proof.
  intros Hi. unfold getitem. rewrite norm_index_nonneg by assumption.
  destruct (nth_error l (Z.to_nat i)) eqn:E; eauto.
  apply nth_error_None in E. lia.
Qed.

Lemma getitem_ok_inv {A} (l : list A) i a :
  getitem l i = Ok a ->
  exists k, norm_index (length l) i = Some k /\ nth_error l k = Some a.
Proof.
  unfold getitem. destruct (norm_index (length l) i) as [k|]; [|discriminate].
  destruct (nth_error l k) eqn:E; [|discriminate]. intros [= <-]. eauto.
Qed.

Lemma setitem_ok_inv {A} (l l' : list A) i a :
  setitem l i a = Ok l' ->
  exists k, norm_index (length l) i = Some k /\ l' = upd l k a.
Proof.
  unfold setitem. destruct (norm_index (length l) i) as [k|]; [|discriminate].
  intros [= <-]. eauto.
Qed.

Lemma setitem_length {A} (l l' : list A) i a :
  setitem l i a = Ok l' -> length l' = length l.
Proof.
  intros (k & _ & ->)%setitem_ok_inv. apply upd_length.
Qed.

Lemma setitem_nonneg {A} (l : list A) i a :
  0 <= i < Z.of_nat (length l) -> setitem l i a = Ok (upd l (Z.to_nat i) a).
Proof.
  intros Hi. unfold setitem. now rewrite norm_index_nonneg.
Qed.

Lemma getitem_setitem_same {A} (l l' : list A) i a :
  setitem l i a = Ok l' -> getitem l' i = Ok a.
Proof.
  intros (k & Hk & ->)%setitem_ok_inv.
  unfold getitem. rewrite upd_length, Hk.
  rewrite nth_error_upd_same; eauto using norm_index_lt.
Qed.

Lemma getitem_setitem_other {A} (l l' : list A) i j a :
  setitem l i a = Ok l' -> 0 <= i -> 0 <= j -> i <> j ->
  getitem l' j = getitem l j.
Proof.
  intros (k & Hk & ->)%setitem_ok_inv Hi Hj Hij.
  unfold getitem. rewrite upd_length.
  destruct (norm_index (length l) j) as [k'|] eqn:Hk'; auto.
  rewrite nth_error_upd_other; auto.
  apply norm_index_nonneg_inv in Hk as [-> ?]; auto.
  apply norm_index_nonneg_inv in Hk' as [-> ?]; auto. lia.
Qed.

Lemma range_length a c : Z.of_nat (length (range a c)) = Z.max 0 (c - a).
Proof.
  unfold range. rewrite length_map, length_seq. lia.
Qed.

Lemma in_range a c t : In t (range a c) <-> a <= t < c.
Proof.
  unfold range. rewrite in_map_iff. split.
  - intros (k & <- & Hk%in_seq). lia.
  - intros Ht. exists (Z.to_nat (t - a)). split; [lia|]. apply in_seq. lia.
Qed.

Lemma range_snoc a c : a <= c -> range a (c + 1) = range a c ++ [c].
Proof.
  intros Hac. unfold range.
  replace (Z.to_nat (c + 1 - a)) with (Z.to_nat (c - a) + 1)%nat by lia.
  rewrite seq_app, map_app. simpl. do 3 f_equal. lia.
Qed.

(** ** Reasoning about methods *)

Section Rules.

Context {A B : Type}.
Variable I : emkf -> Prop.

Lemma pres_ret (a : A) : preserves I (ret a).
Proof. intros s Hs; exact Hs. Qed.

Lemma pres_raise e : preserves I (@raise A e).
Proof. intros s Hs; exact Hs. Qed.

Lemma pres_gets (f : emkf -> A) : preserves I (gets f).
Proof. intros s Hs; exact Hs. Qed.

Lemma pres_lift (r : result A) : preserves I (lift r).
Proof. intros s Hs; exact Hs. Qed.

Lemma pres_unwrap (o : option A) : preserves I (unwrap o).
Proof. destruct o; intros s Hs; exact Hs. Qed.

Lemma pres_read (attr : emkf -> list A) i : preserves I (read attr i).
Proof. intros s Hs; exact Hs. Qed.

Lemma pres_param (p : emkf -> tparam A) t : preserves I (param p t).
Proof. intros s Hs; exact Hs. Qed.

Lemma pres_bind (m : M A) (f : A -> M B) :
  preserves I m -> (forall a, preserves I (f a)) -> preserves I (bind m f).
Proof.
  intros Hm Hf s Hs. unfold bind. specialize (Hm s Hs).
  destruct (m s) as [[a|e] s1]; simpl in *; auto. now apply Hf.
Qed.

Lemma pres_bind_gets (g : emkf -> A) (f : A -> M B) v :
  (forall s, I s -> g s = v) -> preserves I (f v) -> preserves I (bind (gets g) f).
Proof.
  intros Hg Hf s Hs. unfold bind, gets. rewrite (Hg s Hs). now apply Hf.
Qed.

Lemma pres_modify (f : emkf -> emkf) :
  (forall s, I s -> I (f s)) -> preserves I (modify f).
Proof. intros Hf s Hs. now apply Hf. Qed.

Lemma pres_write (attr : emkf -> list A) set i v :
  (forall s l, I s -> setitem (attr s) i v = Ok l -> I (set l s)) ->
  preserves I (write attr set i v).
Proof.
  intros Hw s Hs. unfold write.
  destruct (setitem (attr s) i v) eqn:E; simpl; eauto.
Qed.

Lemma pres_for (l : list A) (body : A -> M unit) :
  (forall x, In x l -> preserves I (body x)) -> preserves I (for_ l body).
Proof.
  induction l as [|x l IH]; intros Hb; simpl.
  - intros s Hs; exact Hs.
  - intros s Hs. unfold bind.
    pose proof (Hb x (or_introl eq_refl) s Hs) as H1.
    destruct (body x s) as [[[]|e] s1]; simpl in *; auto.
    apply IH; auto.
Qed.

Lemma pres_foldM (l : list A) (b0 : B) (body : B -> A -> M B) :
  (forall acc x, In x l -> preserves I (body acc x)) ->
  preserves I (foldM l b0 body).
Proof.
  revert b0. induction l as [|x l IH]; intros b0 Hb; simpl.
  - intros s Hs; exact Hs.
  - intros s Hs. unfold bind.
    pose proof (Hb b0 x (or_introl eq_refl) s Hs) as H1.
    destruct (body b0 x s) as [[b1|e] s1]; simpl in *; auto.
    apply IH; auto.
Qed.

End Rules.

(** Inversion of a computation that returned. *)
Lemma bind_ok {A B} (m : M A) (f : A -> M B) s b1 s' :
  bind m f s = (Ok b1, s') ->
  exists a s1, m s = (Ok a, s1) /\ f a s1 = (Ok b1, s').
Proof.
  unfold bind. destruct (m s) as [[a|e] s1]; [eauto|discriminate].
Qed.

Lemma read_ok {A} (attr : emkf -> list A) i s a s' :
  read attr i s = (Ok a, s') -> s' = s /\ getitem (attr s) i = Ok a.
Proof. unfold read. intros [= H1 H2]. auto. Qed.

Lemma param_ok {A} (p : emkf -> tparam A) t s a s' :
  param p t s = (Ok a, s') -> s' = s /\ _last_dims (p s) t = Ok a.
Proof. unfold param. intros [= H1 H2]. auto. Qed.

Lemma write_ok {A} (attr : emkf -> list A) set i v s u s' :
  write attr set i v s = (Ok u, s') ->
  exists l, setitem (attr s) i v = Ok l /\ s' = set l s.
Proof.
  unfold write. destruct (setitem (attr s) i v) as [l|e]; [|discriminate].
  intros [= _ <-]. eauto.
Qed.

Lemma gets_ok {A} (f : emkf -> A) s a s' :
  gets f s = (Ok a, s') -> s' = s /\ a = f s.
Proof. unfold gets. intros [= H1 H2]. auto. Qed.

Lemma ret_ok {A} (a : A) s a' s' : ret a s = (Ok a', s') -> s' = s /\ a' = a.
Proof. unfold ret. intros [= H1 H2]. auto. Qed.

Lemma unwrap_ok {A} (o : option A) s a s' :
  unwrap o s = (Ok a, s') -> s' = s /\ o = Some a.
Proof. destruct o; simpl; unfold ret, raise; intros [= H1 H2]; subst; auto. Qed.

(** Symbolic execution of a straight-line method that returned. *)
Ltac exec_step :=
  match goal with
  | H : bind _ _ _ = (Ok _, _) |- _ =>
      let a := fresh "a" in let s1 := fresh "s" in
      let H1 := fresh "E" in let H2 := fresh "E" in
      apply bind_ok in H as (a & s1 & H1 & H2)
  | H : read _ _ _ = (Ok _, _) |- _ =>
      let G := fresh "G" in apply read_ok in H as [-> G]
  | H : param _ _ _ = (Ok _, _) |- _ =>
      let G := fresh "G" in apply param_ok in H as [-> G]
  | H : gets _ _ = (Ok _, _) |- _ => apply gets_ok in H as [-> ->]
  | H : ret _ _ = (Ok _, _) |- _ => apply ret_ok in H as [-> ->]
  | H : unwrap _ _ = (Ok _, _) |- _ => apply unwrap_ok in H as [-> ->]
  | H : write _ _ _ _ _ = (Ok _, _) |- _ =>
      let l := fresh "l" in let G := fresh "W" in
      apply write_ok in H as (l & G & ->)
  end.
Ltac exec := repeat exec_step.

Ltac unfold_methods :=
  progress unfold _predict_update, _predict_update_pair, _filter_update,
    _filter_update_pair, backward_step, _backward, mstep_sums,
    _update_transition_matrix, damped_update_F, store_transition_matrix,
    _update_transition_matrix_approximately, smooth_iteration, smooth_block,
    filter_step.

(** Structural proof of [preserves]: [leaf] settles the obligations of the
    writes and modifications, [known] the value of what is read from the
    configuration when the invariant fixes it. *)
Ltac frame_known known leaf :=
  repeat first
    [ apply pres_ret | apply pres_raise | apply pres_gets | apply pres_lift
    | apply pres_unwrap | apply pres_read | apply pres_param
    | eapply pres_bind_gets; [solve [known]|]
    | apply pres_bind; [|intro]
    | apply pres_for; intros ? ?
    | apply pres_foldM; intros ? ? ?
    | apply pres_write; leaf
    | apply pres_modify; leaf
    | match goal with
      | |- preserves _ (if ?c then _ else _) =>
          lazymatch type of c with bool => destruct c eqn:? end
      | |- preserves _ (match ?o with Some _ => _ | None => _ end) =>
          lazymatch type of o with option _ => destruct o end
      end
    | progress cbv zeta
    | unfold_methods ].

(** Structural proof of [preserves]: [leaf] settles the obligations of the
    writes and modifications. *)
Ltac frame_with leaf :=
  repeat first
    [ apply pres_ret | apply pres_raise | apply pres_gets | apply pres_lift
    | apply pres_unwrap | apply pres_read | apply pres_param
    | apply pres_bind; [|intro]
    | apply pres_for; intros ? ?
    | apply pres_foldM; intros ? ? ?
    | apply pres_write; leaf
    | apply pres_modify; leaf
    | match goal with
      | |- preserves _ (if ?c then _ else _) =>
          lazymatch type of c with bool => destruct c eqn:? end
      | |- preserves _ (match ?o with Some _ => _ | None => _ end) =>
          lazymatch type of o with option _ => destruct o end
      end
    | progress cbv zeta
    | unfold_methods ].

(** ** The damped, clipped update *)

Lemma clip_bound c x : (0 <= c)%Q -> (- c <= clip c x /\ clip c x <= c)%Q.
Proof.
  intros Hc. unfold clip.
  destruct (Q.max_spec (- c) x) as [[H1 H2]|[H1 H2]];
    destruct (Q.min_spec (Qmax (- c) x) c) as [[H3 H4]|[H3 H4]];
    rewrite H4; rewrite ?H2 in *; split; lra.
Qed.

Lemma damped_clip_entry_bound rate thr o c :
  (0 <= rate)%Q -> (0 <= thr)%Q ->
  (Qabs (damped_clip_entry rate thr o c - o) <= rate * thr)%Q.
Proof.
  intros Hr Ht. unfold damped_clip_entry.
  destruct (clip_bound thr (o - c)%Q Ht) as [H1 H2].
  set (k := clip thr (o - c)) in *.
  apply Qabs_Qle_condition. split; nra.
Qed.

Lemma zipWith_nth_error {A B C} (f : A -> B -> C) l l' k c :
  nth_error (zipWith f l l') k = Some c ->
  exists a b0, nth_error l k = Some a /\ nth_error l' k = Some b0 /\ c = f a b0.
Proof.
  revert l' k; induction l as [|a l IH]; intros [|b0 l'] [|k]; simpl;
    try discriminate.
  - intros [= <-]. eauto.
  - apply IH.
Qed.

Lemma vec_within_refl r u : (0 <= r)%Q -> vec_within r u u.
Proof.
  intros Hr j o n Ho Hn. rewrite Ho in Hn. injection Hn as <-.
  apply Qabs_Qle_condition. split; lra.
Qed.

Lemma moves_within_refl r A : (0 <= r)%Q -> moves_within r A A.
Proof.
  intros Hr i j o n Ho Hn. rewrite Ho in Hn. injection Hn as <-.
  apply Qabs_Qle_condition. split; lra.
Qed.

Lemma offset_within_refl r p : (0 <= r)%Q -> offset_within r p p.
Proof.
  intros Hr. destruct p as [u|l]; simpl.
  - now apply vec_within_refl.
  - intros i u v Hu Hv. rewrite Hu in Hv. injection Hv as <-.
    now apply vec_within_refl.
Qed.

Lemma damped_clip_vec_within rate thr old cand :
  (0 <= rate)%Q -> (0 <= thr)%Q ->
  vec_within (rate * thr) old (damped_clip_vec rate thr old cand).
Proof.
  intros Hr Ht j o n Ho Hn. unfold damped_clip_vec in Hn.
  apply zipWith_nth_error in Hn as (o' & c & Ho' & _ & ->).
  rewrite Ho in Ho'. injection Ho' as <-.
  now apply damped_clip_entry_bound.
Qed.

Lemma damped_clip_within rate thr old cand :
  (0 <= rate)%Q -> (0 <= thr)%Q ->
  moves_within (rate * thr) old (damped_clip rate thr old cand).
Proof.
  intros Hr Ht i j o n Ho Hn. unfold entry, damped_clip in *.
  destruct (nth_error old i) as [u|] eqn:Hu; [|discriminate].
  destruct (nth_error (zipWith _ old cand) i) as [v|] eqn:Hv; [|discriminate].
  apply zipWith_nth_error in Hv as (u' & c & Hu' & _ & ->).
  rewrite Hu in Hu'. injection Hu' as <-.
  eapply damped_clip_vec_within; eauto.
Qed.

Lemma damped_clip_offset_within rate thr old cand :
  (0 <= rate)%Q -> (0 <= thr)%Q ->
  offset_within (rate * thr) old
    (tmap (fun bv => damped_clip_vec rate thr bv cand) old).
Proof.
  intros Hr Ht. destruct old as [u|l]; simpl.
  - now apply damped_clip_vec_within.
  - intros i u v Hu Hv. rewrite nth_error_map, Hu in Hv. injection Hv as <-.
    now apply damped_clip_vec_within.
Qed.

Ltac keep_leaf :=
  let s := fresh "s" in let l := fresh "l" in
  first [ intros s l [? ?] _ | intros s [? ?] ]; split; simpl; solve [auto| congruence].

Lemma leads_bind {A B} (I J K : emkf -> Prop) (m : M A) (f : A -> M B) :
  leads I J m -> (forall s, J s -> K s) -> (forall a, leads J K (f a)) ->
  leads I K (bind m f).
Proof.
  intros Hm HJK Hf s Hs. unfold bind. specialize (Hm s Hs).
  destruct (m s) as [[a|e] s1]; simpl in *; auto. now apply Hf.
Qed.

Lemma leads_preserves {A} (I : emkf -> Prop) (m : M A) :
  preserves I m -> leads I I m.
Proof. exact (fun H => H). Qed.

Lemma leads_weaken {A} (I J K : emkf -> Prop) (m : M A) :
  preserves I m -> (forall s, I s -> K s) -> leads I K m.
Proof. intros Hm HK s Hs. apply HK, Hm, Hs. Qed.

(** A prefix of a method that keeps [I]. *)
Ltac keep_prefix I weaken tac :=
  apply leads_bind with (J := I);
    [apply leads_preserves; tac | apply weaken | intro].

Section UpdateBound.

Variable pinv : matrix -> matrix.

Lemma predict_update_keeps_F s0 t Fo : preserves (F_kept s0) (_predict_update t Fo).
Proof. frame_with keep_leaf. Qed.

Lemma filter_update_keeps_F s0 t : preserves (F_kept s0) (_filter_update pinv t).
Proof. frame_with keep_leaf. Qed.

Lemma mstep_sums_keeps_F s0 xs Vs ts : preserves (F_kept s0) (mstep_sums xs Vs ts).
Proof. frame_with keep_leaf. Qed.

Lemma smooth_iteration_keeps_F s0 s loc n :
  preserves (F_kept s0) (smooth_iteration pinv s loc n).
Proof. frame_with keep_leaf. Qed.

Lemma store_keeps_F_stepped s0 k :
  preserves (F_stepped s0) (store_transition_matrix k).
Proof. frame_with keep_leaf. Qed.

Lemma F_kept_stepped s0 s : F_kept s0 s -> F_stepped s0 s.
Proof. intros [? ?]. split; auto. Qed.

Lemma damped_update_F_steps s0 cand s :
  F_kept s0 s -> F_stepped s0 (snd (damped_update_F cand s)).
Proof.
  intros [Hc HF]. split; simpl; auto. right. exists cand. now rewrite Hc, HF.
Qed.

Lemma approx_update_steps_F s0 t :
  leads (F_kept s0) (F_stepped s0) (_update_transition_matrix_approximately pinv t).
Proof.
  unfold _update_transition_matrix_approximately.
  keep_prefix (F_kept s0) F_kept_stepped ltac:(frame_with keep_leaf).
  keep_prefix (F_kept s0) F_kept_stepped ltac:(apply mstep_sums_keeps_F).
  cbv zeta.
  apply leads_bind with (J := F_stepped s0);
    [intros s; apply damped_update_F_steps | auto | intros _ ].
  apply leads_preserves, store_keeps_F_stepped.
Qed.

Lemma smooth_block_steps_F s0 tv s :
  leads (F_kept s0) (F_stepped s0) (smooth_block pinv tv s).
Proof.
  unfold smooth_block.
  keep_prefix (F_kept s0) F_kept_stepped ltac:(frame_with keep_leaf).
  keep_prefix (F_kept s0) F_kept_stepped ltac:(frame_with keep_leaf).
  keep_prefix (F_kept s0) F_kept_stepped ltac:(apply filter_update_keeps_F).
  keep_prefix (F_kept s0) F_kept_stepped ltac:(frame_with keep_leaf).
  keep_prefix (F_kept s0) F_kept_stepped
    ltac:(apply pres_foldM; intros; apply smooth_iteration_keeps_F).
  apply leads_bind with (J := F_stepped s0);
    [intros s1; apply damped_update_F_steps | auto | intros _ ].
  apply leads_preserves.
  apply pres_bind; [apply store_keeps_F_stepped | intros; apply pres_ret].
Qed.

Lemma backward_keeps_b s0 s tau' Fo : preserves (b_kept s0) (_backward pinv s tau' Fo).
Proof. frame_with keep_leaf. Qed.

Lemma b_kept_stepped s0 s : b_kept s0 s -> b_stepped s0 s.
Proof. intros [? ?]. split; auto. Qed.

Lemma update_transition_matrix_steps_b s0 s tau' Fo :
  leads (b_kept s0) (b_stepped s0) (_update_transition_matrix pinv s tau' Fo).
Proof.
  unfold _update_transition_matrix.
  keep_prefix (b_kept s0) b_kept_stepped ltac:(apply backward_keeps_b).
  keep_prefix (b_kept s0) b_kept_stepped ltac:(frame_with keep_leaf).
  keep_prefix (b_kept s0) b_kept_stepped ltac:(frame_with keep_leaf).
  apply leads_bind with (J := b_stepped s0);
    [ | auto | intros _; apply leads_preserves, pres_unwrap ].
  match goal with
  | |- context [in_vars "b" ?ev && _] => destruct (in_vars "b" ev && (1 <? tau'))
  end.
  - keep_prefix (b_kept s0) b_kept_stepped ltac:(frame_with keep_leaf).
    keep_prefix (b_kept s0) b_kept_stepped ltac:(frame_with keep_leaf).
    cbv zeta. intros s1 [Hc Hb]. split; simpl; auto.
    right. eexists. rewrite Hc, Hb. reflexivity.
  - intros s1 H1. now apply b_kept_stepped.
Qed.

End UpdateBound.

(** ** The offset over the refinement rounds of a block *)

Section OffsetRounds.

Variable pinv : matrix -> matrix.

Lemma vec_within_step rate thr q u m cand :
  (0 <= rate)%Q -> (0 <= thr)%Q -> vec_within q u m ->
  vec_within (q + rate * thr) u (damped_clip_vec rate thr m cand).
Proof.
  intros Hr Ht H j o n Ho Hn. unfold damped_clip_vec in Hn.
  apply zipWith_nth_error in Hn as (mj & c & Hm & _ & ->).
  pose proof (H j o mj Ho Hm) as H1.
  pose proof (damped_clip_entry_bound rate thr mj c Hr Ht) as H2.
  set (rt := (rate * thr)%Q) in *.
  apply Qabs_Qle_condition in H1. apply Qabs_Qle_condition in H2.
  apply Qabs_Qle_condition. split; lra.
Qed.

Lemma vec_within_weaken q q' u v : (q <= q')%Q -> vec_within q u v -> vec_within q' u v.
Proof. intros Hq H j o n Ho Hn. specialize (H j o n Ho Hn). lra. Qed.

Lemma offset_within_weaken q q' old new :
  (q <= q')%Q -> offset_within q old new -> offset_within q' old new.
Proof.
  intros Hq. destruct old as [u|l], new as [v|l']; simpl; auto.
  - now apply vec_within_weaken.
  - intros H i u v Hu Hv. eapply vec_within_weaken; eauto.
Qed.

Lemma offset_within_step rate thr q old mid new :
  (0 <= rate)%Q -> (0 <= thr)%Q ->
  offset_within q old mid -> offset_step rate thr mid new ->
  offset_within (q + rate * thr) old new.
Proof.
  intros Hr Ht H [->|[cand ->]].
  - apply offset_within_weaken with (q := q); [nra|exact H].
  - destruct old as [u|l], mid as [m|l']; simpl in *; try contradiction.
    + now apply vec_within_step.
    + intros i u v Hu Hv. rewrite nth_error_map in Hv.
      destruct (nth_error l' i) as [m|] eqn:Hm; [|discriminate].
      injection Hv as <-. apply vec_within_step; eauto.
Qed.

Lemma offset_steps_within rate thr n old new :
  (0 <= rate)%Q -> (0 <= thr)%Q -> offset_steps rate thr n old new ->
  offset_within (inject_Z (Z.of_nat n) * (rate * thr)) old new.
Proof.
  intros Hr Ht. revert new. induction n as [|n IH]; intros new H.
  - simpl in H. subst new. apply offset_within_refl.
    change (inject_Z (Z.of_nat 0)) with 0%Q. nra.
  - destruct H as (mid & H1 & H2).
    apply offset_within_weaken
      with (q := (inject_Z (Z.of_nat n) * (rate * thr) + rate * thr)%Q).
    + rewrite Nat2Z.inj_succ. unfold Z.succ. rewrite inject_Z_plus.
      change (inject_Z 1) with 1%Q. nra.
    + eapply offset_within_step; eauto.
Qed.

Lemma b_rounds_S n s0 s : b_rounds n s0 s -> b_rounds (S n) s0 s.
Proof.
  intros [Hc H]. split; [exact Hc|]. exists (b s). split; [exact H|now left].
Qed.

Lemma b_rounds_le n m s0 s : (n <= m)%nat -> b_rounds n s0 s -> b_rounds m s0 s.
Proof. induction 1; auto using b_rounds_S. Qed.

Lemma update_transition_matrix_round n s0 s tau' Fo :
  leads (b_rounds n s0) (b_rounds (S n) s0) (_update_transition_matrix pinv s tau' Fo).
Proof.
  intros s1 [Hc Hb].
  destruct (update_transition_matrix_steps_b pinv s1 s tau' Fo s1) as [Hc' Hstep];
    [split; reflexivity|].
  split; [congruence|]. exists (b s1). split; [exact Hb|].
  rewrite <- Hc. exact Hstep.
Qed.

Lemma smooth_iteration_round n s0 s loc k :
  leads (b_rounds n s0) (b_rounds (S n) s0) (smooth_iteration pinv s loc k).
Proof.
  unfold smooth_iteration.
  keep_prefix (b_rounds n s0) (b_rounds_S n s0) ltac:(frame_with keep_leaf).
  keep_prefix (b_rounds n s0) (b_rounds_S n s0) ltac:(frame_with keep_leaf).
  keep_prefix (b_rounds n s0) (b_rounds_S n s0) ltac:(frame_with keep_leaf).
  keep_prefix (b_rounds n s0) (b_rounds_S n s0) ltac:(frame_with keep_leaf).
  keep_prefix (b_rounds n s0) (b_rounds_S n s0) ltac:(frame_with keep_leaf).
  apply leads_bind with (J := b_rounds (S n) s0);
    [apply update_transition_matrix_round | auto | intro].
  apply leads_preserves, pres_ret.
Qed.

Lemma rounds_foldM {X A} s0 (body : A -> X -> M A) (l : list X) :
  (forall n a x, leads (b_rounds n s0) (b_rounds (S n) s0) (body a x)) ->
  forall n a, leads (b_rounds n s0) (b_rounds (n + length l) s0) (foldM l a body).
Proof.
  intros Hbody. induction l as [|x l IH]; intros n a s1 H1; simpl.
  - now rewrite Nat.add_0_r.
  - unfold bind. specialize (Hbody n a x s1 H1).
    destruct (body a x s1) as [[a'|e] s2]; simpl in *.
    + rewrite <- Nat.add_succ_comm. now apply IH.
    + eapply b_rounds_le; [|exact Hbody]. lia.
Qed.

Lemma smooth_block_offset_rounds s0 tv s :
  leads (b_rounds 0 s0) (b_rounds (Z.to_nat (iteration (cfg s0))) s0)
        (smooth_block pinv tv s).
Proof.
  set (N := Z.to_nat (iteration (cfg s0))).
  assert (Hw : forall s1, b_rounds 0 s0 s1 -> b_rounds N s0 s1)
    by (intros s1; apply b_rounds_le; lia).
  unfold smooth_block.
  keep_prefix (b_rounds 0%nat s0) Hw ltac:(frame_with keep_leaf).
  keep_prefix (b_rounds 0%nat s0) Hw ltac:(frame_with keep_leaf).
  keep_prefix (b_rounds 0%nat s0) Hw ltac:(frame_with keep_leaf).
  intros s1 H1. unfold bind at 1, gets at 1. cbv beta iota.
  assert (Hit : iteration (cfg s1) = iteration (cfg s0)) by (now destruct H1 as [-> _]).
  rewrite Hit. revert s1 H1 Hit. intros s1 H1 _. revert s1 H1.
  change (leads (b_rounds 0%nat s0) (b_rounds N s0)
    (loc <- foldM (range 0 (iteration (cfg s0))) (a, tv) (smooth_iteration pinv s) ;;
     damped_update_F (fst loc) ;;; store_transition_matrix s ;;; ret (snd loc))).
  apply leads_bind with (J := b_rounds N s0); [|auto|intro].
  - intros s1 H1.
    pose proof (rounds_foldM s0 (smooth_iteration pinv s)
                  (range 0 (iteration (cfg s0)))
                  (fun n a x => smooth_iteration_round n s0 s a x) 0%nat (a, tv) s1 H1)
      as H2.
    eapply b_rounds_le; [|exact H2]. pose proof (range_length 0 (iteration (cfg s0))). lia.
  - apply leads_preserves. frame_with keep_leaf.
Qed.

End OffsetRounds.




(** ** Runs on the scalar examples *)

Section ScalarRuns.

Local Open Scope Q_scope.

Lemma scalar_objects_constructed :
  __init__ (scalar_args "filter" [] 3 1 1)
    = Ok (scalar_object "filter" [] 3 1 1) /\
  __init__ (scalar_args "smooth" [] 3 1 1)
    = Ok (scalar_object "smooth" [] 3 1 1) /\
  __init__ (scalar_args "filter" ["F"%string] 2 1 1)
    = Ok (scalar_object "filter" ["F"%string] 2 1 1) /\
  __init__ (scalar_args "smooth" ["F"%string] 2 1 1)
    = Ok (scalar_object "smooth" ["F"%string] 2 1 1).
Proof. repeat split. Qed.

(** C2.  With an empty EM-update set the run does not reduce to a plain
    Kalman filter.  In "smooth" mode [forward] raises [UnboundLocalError]
    at the end of the first call of [_update_transition_matrix], which
    returns a variable it has not bound.  In "filter" mode the run returns,
    but the transition matrix has been adapted all the same and the filtered
    means differ from those of the fixed-parameter filter (7/5 there at
    time 1). *)
Theorem empty_em_vars_is_not_plain_filter :
  let o_s := scalar_object "smooth" [] 3 1 1 in
  let o_f := scalar_object "filter" [] 3 1 1 in
  em_vars (cfg o_s) = [] /\ em_vars (cfg o_f) = [] /\
  fst (forward pinv_scalar o_s) = Err UnboundLocalError /\
  fst (forward pinv_scalar o_f) = Ok tt /\
  reduced (x_filt (snd (forward pinv_scalar o_f)))
    = [[1 # 2]; [70502 # 50201]; [3142341403 # 1312100401]] /\
  reduced (map fst (reference_filter pinv_scalar [[1]] [[1]] [[1]] [[1]] [0] [0]
                      [0] [[1]] (y (cfg o_f))))
    = [[1 # 2]; [7 # 5]; [31 # 13]].
Proof. vm_compute. repeat split. Qed.

(** C3.  In "filter" mode the transition matrix is adapted although it is
    not in the EM-update set: with [em_vars] empty, the run on three
    observations moves [F] from 1 to 101/100. *)
Theorem filter_mode_mutates_F_outside_em_vars :
  let o := scalar_object "filter" [] 3 1 1 in
  mode (cfg o) = Filter /\ em_vars (cfg o) = [] /\
  fst (forward pinv_scalar o) = Ok tt /\
  F o = [[1]] /\
  F (snd (forward pinv_scalar o)) = [[101 # 100]] /\
  meqb (F (snd (forward pinv_scalar o))) (F o) = false.
Proof. vm_compute. repeat split. Qed.

(** C5.  The look-ahead of "filter" mode calls [_predict_update] and
    [_filter_update], not their [_pair] variants, so no pairwise covariance
    is recorded: after a run in which the look-ahead and the approximate
    M-step took place (the history has the updated matrix at index 2),
    every entry of [V_pair] is still the zero of its allocation, while the
    [_pair] variant of the prediction would have recorded
    [V_filt[0] @ F.T = 1/2] at time 1. *)
Theorem filter_mode_records_no_pairwise_covariance :
  let o := scalar_object "filter" ["F"%string] 3 1 1 in
  let st := snd (forward pinv_scalar o) in
  mode (cfg o) = Filter /\
  fst (forward pinv_scalar o) = Ok tt /\
  getitem (Fs st) 2 = Ok [[101 # 100]] /\
  V_pair st = zeros3 3 1 1 /\
  getitem (V_filt st) 0 = Ok [[1 # 2]] /\
  getitem (V_pair (snd (_predict_update_pair 1 (Some [[1]]) st))) 1 = Ok [[1 # 2]].
Proof. vm_compute. repeat split. Qed.

(** C4, counterexample.  In "filter" mode there is no backward pass: after a
    run on two observations the smoothed mean and covariance at the final
    time 1 are the zeros of their allocation, while the filtered mean and
    covariance there are 7/5 and 3/5. *)
Lemma filter_mode_final_smoothed_differs :
  let o := scalar_object "filter" ["F"%string] 2 1 1 in
  let st := snd (forward pinv_scalar o) in
  fst (forward pinv_scalar o) = Ok tt /\
  length (y (cfg o)) = 2%nat /\
  ~ (exists x V,
       getitem (x_smooth st) 1 = Ok x /\ getitem (x_filt st) 1 = Ok x /\
       getitem (V_smooth st) 1 = Ok V /\ getitem (V_filt st) 1 = Ok V).
Proof.
  cbv zeta. split; [|split].
  - vm_compute. reflexivity.
  - vm_compute. reflexivity.
  - intros (x & V & H1 & H2 & _). rewrite <- H2 in H1. vm_compute in H1.
    discriminate H1.
Qed.

(** C8.  A coordinate index outside the valid range never raises
    [ValueError].  With one state dimension: the index 1, equal to the
    dimensionality, passes the guard [dim <= shape[1]] and raises
    [IndexError] in the column selection; the index 2 reaches the last
    branch, where building the message raises [TypeError]; the index -1 is
    accepted and wraps to coordinate 0. *)
Theorem coordinate_guard_raises_no_ValueError :
  let o := scalar_object "smooth" ["F"%string] 2 1 1 in
  let st := snd (forward pinv_scalar o) in
  n_dim_sys (cfg o) = 1%nat /\
  fst (forward pinv_scalar o) = Ok tt /\
  fst (get_predicted_value pinv_scalar (Some 1%Z) st) = Err IndexError /\
  fst (get_filtered_value pinv_scalar (Some 1%Z) st) = Err IndexError /\
  fst (get_smoothed_value (Some 1%Z) st) = Err IndexError /\
  fst (get_predicted_value pinv_scalar (Some 2%Z) st) = Err TypeError /\
  fst (get_filtered_value pinv_scalar (Some 2%Z) st) = Err TypeError /\
  fst (get_smoothed_value (Some 2%Z) st) = Err TypeError /\
  fst (get_filtered_value pinv_scalar (Some (-1)%Z) st)
    = fst (get_filtered_value pinv_scalar (Some 0%Z) st) /\
  fst (get_filtered_value pinv_scalar (Some 0%Z) st)
    = Ok (Coordinate (column 0 (x_filt st))).
Proof. vm_compute. repeat split. Qed.

(** C9.  On an object whose trajectories have not been computed,
    [get_predicted_value] and [get_filtered_value] run [forward] and return
    the trajectory, but [get_smoothed_value] calls a method [smooth] that the
    class does not have and raises [AttributeError]. *)
Theorem get_smoothed_value_does_not_run_lazily :
  let o := scalar_object "smooth" ["F"%string] 2 1 1 in
  let st := snd (forward pinv_scalar o) in
  allocated o = false /\
  fst (forward pinv_scalar o) = Ok tt /\
  get_predicted_value pinv_scalar None o = (Ok (Trajectory (x_pred st)), st) /\
  get_filtered_value pinv_scalar None o = (Ok (Trajectory (x_filt st)), st) /\
  get_smoothed_value None o = (Err AttributeError, o) /\
  get_smoothed_value None st = (Ok (Trajectory (x_smooth st)), st).
Proof. vm_compute. repeat split. Qed.

End ScalarRuns.

(** ** The filter update *)

Lemma veq_refl u : veq u u.
Proof. induction u; constructor; auto. reflexivity. Qed.

Lemma veq_sym u v : veq u v -> veq v u.
Proof.
  intros Huv. induction Huv as [|a c u v Hac Huv IH]; constructor; auto.
  now symmetry.
Qed.

Lemma meq_sym A B : meq A B -> meq B A.
Proof.
  intros HAB. induction HAB as [|u v A B Huv HAB IH]; constructor; auto.
  now apply veq_sym.
Qed.

Lemma vsub_vadd u v w : veq (vsub u (vadd v w)) (vsub (vsub u v) w).
Proof.
  revert v w; induction u as [|a u IH]; intros [|c v] [|e w]; simpl;
    try constructor; auto.
  - unfold Qminus. ring.
  - apply IH.
Qed.

Lemma dot_veq r u v : veq u v -> (dot r u == dot r v)%Q.
Proof.
  intros Huv. revert r. induction Huv as [|a c u v Hac Huv IH]; intros [|e r];
    unfold dot; simpl; try reflexivity.
  fold (dot r u) (dot r v). now rewrite Hac, (IH r).
Qed.

Lemma matvec_veq K u v : veq u v -> veq (matvec K u) (matvec K v).
Proof.
  intros Huv. induction K as [|r K IH]; simpl; constructor; auto.
  now apply dot_veq.
Qed.

Lemma vadd_veq x u v : veq u v -> veq (vadd x u) (vadd x v).
Proof.
  intros Huv. revert x. induction Huv as [|a c u v Hac Huv IH]; intros [|e x];
    simpl; constructor; auto.
  - now rewrite Hac.
  - apply IH.
Qed.

Lemma setitem_same_length {A B} (l : list A) (l' : list B) i a c :
  getitem l i = Ok a -> length l' = length l ->
  exists k, norm_index (length l) i = Some k /\ setitem l' i c = Ok (upd l' k c).
Proof.
  intros (k & Hk & _)%getitem_ok_inv Hlen. exists k. split; auto.
  unfold setitem. now rewrite Hlen, Hk.
Qed.

(** C6.  At a time [t] where the predicted mean and covariance, the
    observation and the parameters H, R, d exist, [_filter_update] returns
    (for any value of the pseudo-inverse, so also when the innovation
    covariance is singular) and stores at [t] the filtered mean
    x_pred + K (y - H x_pred - d) and the filtered covariance
    V_pred - K H V_pred, where K = V_pred H^T (H V_pred H^T + R)^+, the
    products being associated as the source writes them; nothing else is
    changed. *)
Theorem filter_update_formulas (pinv : matrix -> matrix) (t : Z) (st : emkf)
    (Ht Rt Vp : matrix) (dt xp yt : vec) :
  _last_dims (H (cfg st)) t = Ok Ht ->
  _last_dims (R (cfg st)) t = Ok Rt ->
  _last_dims (d (cfg st)) t = Ok dt ->
  getitem (V_pred st) t = Ok Vp ->
  getitem (x_pred st) t = Ok xp ->
  getitem (y (cfg st)) t = Ok yt ->
  length (x_filt st) = length (x_pred st) ->
  length (V_filt st) = length (V_pred st) ->
  let S := madd (matmul Ht (matmul Vp (transpose Ht))) Rt in
  let K := matmul Vp (matmul (transpose Ht) (pinv S)) in
  exists st' xf,
    _filter_update pinv t st = (Ok tt, st') /\
    getitem (x_filt st') t = Ok xf /\
    veq xf (vadd xp (matvec K (vsub (vsub yt (matvec Ht xp)) dt))) /\
    getitem (V_filt st') t = Ok (msub Vp (matmul K (matmul Ht Vp))) /\
    (exists k k',
       norm_index (length (x_pred st)) t = Some k /\
       norm_index (length (V_pred st)) t = Some k' /\
       st' = set_V_filt (upd (V_filt st) k' (msub Vp (matmul K (matmul Ht Vp))))
               (set_x_filt (upd (x_filt st) k xf) st)).
Proof.
  intros HH HR Hd HVp Hxp Hy Lx LV S K.
  set (xf := vadd xp (matvec K (vsub yt (vadd (matvec Ht xp) dt)))).
  set (Vf := msub Vp (matmul K (matmul Ht Vp))).
  destruct (setitem_same_length _ (x_filt st) t xp xf Hxp Lx) as (k & Hk & Wx).
  destruct (setitem_same_length _ (V_filt st) t Vp Vf HVp LV) as (k' & Hk' & WV).
  exists (set_V_filt (upd (V_filt st) k' Vf) (set_x_filt (upd (x_filt st) k xf) st)), xf.
  split; [|split; [|split; [|split]]].
  - unfold _filter_update, kalman_gain, bind, param, read, write.
    rewrite HH, HR, Hd, HVp, Hxp, Hy.
    change (setitem (x_filt st) t _) with (setitem (x_filt st) t xf).
    rewrite Wx. simpl.
    change (setitem (V_filt st) t _) with (setitem (V_filt st) t Vf).
    rewrite WV. reflexivity.
  - simpl. eapply getitem_setitem_same. exact Wx.
  - unfold xf. apply vadd_veq, matvec_veq, vsub_vadd.
  - simpl. eapply getitem_setitem_same. exact WV.
  - exists k, k'. auto.
Qed.

(** ** The backward recursion *)

Lemma bind_read {A B} (attr : emkf -> list A) i (f : A -> M B) s a :
  getitem (attr s) i = Ok a -> bind (read attr i) f s = f a s.
Proof. intros H. unfold bind, read. now rewrite H. Qed.

Lemma bind_write {A B} (attr : emkf -> list A) set i v (f : unit -> M B) s l :
  setitem (attr s) i v = Ok l -> bind (write attr set i v) f s = f tt (set l s).
Proof. intros H. unfold bind, write. now rewrite H. Qed.

Lemma write_run {A} (attr : emkf -> list A) set i v s l :
  setitem (attr s) i v = Ok l -> write attr set i v s = (Ok tt, set l s).
Proof. intros H. unfold write. now rewrite H. Qed.

Lemma getitem_upd_other {A} (l : list A) i j a :
  0 <= i -> 0 <= j -> i <> j -> getitem (upd l (Z.to_nat i) a) j = getitem l j.
Proof.
  intros Hi Hj Hij. unfold getitem. rewrite upd_length.
  destruct (norm_index (length l) j) as [k|] eqn:Hk; auto.
  apply norm_index_nonneg_inv in Hk as [-> ?]; auto.
  rewrite nth_error_upd_other; auto. lia.
Qed.

Lemma getitem_upd_same {A} (l : list A) i a :
  0 <= i < Z.of_nat (length l) -> getitem (upd l (Z.to_nat i) a) i = Ok a.
Proof.
  intros Hi. eapply getitem_setitem_same. now apply setitem_nonneg.
Qed.

Lemma forward_pass_kept_refl st : forward_pass_kept st st.
Proof. unfold forward_pass_kept. auto 10. Qed.

Lemma forward_pass_kept_trans st1 st2 st3 :
  forward_pass_kept st1 st2 -> forward_pass_kept st2 st3 ->
  forward_pass_kept st1 st3.
Proof.
  unfold forward_pass_kept. intuition congruence.
Qed.

Section Backward.

Variable pinv : matrix -> matrix.
Variable Ft : matrix.
Variable T : nat.

(** One round of the loop at a time [t] inside the buffers. *)
Lemma backward_step_run t st :
  lens T st -> 0 <= t -> t + 1 < Z.of_nat T ->
  exists st',
    backward_step pinv Ft t st = (Ok tt, st') /\
    lens T st' /\ forward_pass_kept st st' /\
    rts_at pinv Ft st' t /\
    (forall j, 0 <= j -> j <> t ->
       getitem (x_smooth st') j = getitem (x_smooth st) j /\
       getitem (V_smooth st') j = getitem (V_smooth st) j) /\
    (forall j, 0 <= j -> j <> t + 1 ->
       getitem (V_pair st') j = getitem (V_pair st) j).
Proof.
  intros (L1 & L2 & L3 & L4 & L5 & L6 & L7) Ht0 Ht1.
  destruct (getitem_nonneg (V_filt st) t) as (Vf & GVf & _); [lia|].
  destruct (getitem_nonneg (V_pred st) (t + 1)) as (Vp1 & GVp1 & _); [lia|].
  destruct (getitem_nonneg (x_filt st) t) as (xf & Gxf & _); [lia|].
  destruct (getitem_nonneg (x_smooth st) (t + 1)) as (xs1 & Gxs1 & _); [lia|].
  destruct (getitem_nonneg (x_pred st) (t + 1)) as (xp1 & Gxp1 & _); [lia|].
  destruct (getitem_nonneg (V_smooth st) (t + 1)) as (Vs1 & GVs1 & _); [lia|].
  set (A := matmul (matmul Vf Ft) (pinv Vp1)).
  set (xs := vadd xf (matvec A (vsub xs1 xp1))).
  set (Vs := madd Vf (matmul (matmul A (msub Vs1 Vp1)) (transpose A))).
  set (Vq := matmul Vs1 (transpose A)).
  exists (set_V_pair (upd (V_pair st) (Z.to_nat (t + 1)) Vq)
           (set_V_smooth (upd (V_smooth st) (Z.to_nat t) Vs)
             (set_x_smooth (upd (x_smooth st) (Z.to_nat t) xs) st))).
  split; [|split; [|split; [|split; [|split]]]].
  - unfold backward_step, smoother_gain.
    rewrite (bind_read V_filt t _ st Vf GVf).
    rewrite (bind_read V_pred (t + 1) _ st Vp1 GVp1). cbv zeta.
    rewrite (bind_read x_filt t _ st xf Gxf).
    rewrite (bind_read x_smooth (t + 1) _ st xs1 Gxs1).
    rewrite (bind_read x_pred (t + 1) _ st xp1 Gxp1).
    erewrite bind_write by (apply setitem_nonneg; lia).
    erewrite bind_read by (simpl; exact GVs1).
    erewrite bind_write by (simpl; apply setitem_nonneg; lia).
    erewrite bind_read
      by (simpl; rewrite getitem_upd_other by lia; exact GVs1).
    erewrite write_run by (simpl; apply setitem_nonneg; lia).
    reflexivity.
  - unfold lens; simpl. rewrite !upd_length. auto 10.
  - unfold forward_pass_kept; simpl. auto 10.
  - exists Vf, Vp1, Vs1, xf, xp1, xs1. simpl.
    rewrite !getitem_upd_other by lia.
    rewrite !getitem_upd_same by lia. auto 10.
  - intros j Hj Hjt. simpl. rewrite !getitem_upd_other by lia. auto.
  - intros j Hj Hjt. simpl. rewrite !getitem_upd_other by lia. auto.
Qed.

Lemma rts_at_transfer st st' t :
  forward_pass_kept st st' ->
  (forall j, t <= j ->
     getitem (x_smooth st') j = getitem (x_smooth st) j /\
     getitem (V_smooth st') j = getitem (V_smooth st) j) ->
  (forall j, t < j -> getitem (V_pair st') j = getitem (V_pair st) j) ->
  rts_at pinv Ft st t -> rts_at pinv Ft st' t.
Proof.
  intros (_ & _ & _ & _ & E1 & E2 & E3 & E4) HS HP
    (Vf & Vp1 & Vs1 & xf & xp1 & xs1 & H).
  exists Vf, Vp1, Vs1, xf, xp1, xs1.
  rewrite E1, E2, E3, E4.
  destruct (HS t) as [Sa Sb]; [lia|].
  destruct (HS (t + 1)) as [Sc Sd]; [lia|].
  rewrite Sa, Sb, Sc, Sd, (HP (t + 1)) by lia. exact H.
Qed.

Lemma rev_range_top a c :
  a < c -> rev (range a c) = (c - 1) :: rev (range a (c - 1)).
Proof.
  intros Hac. replace c with (c - 1 + 1) at 1 by lia.
  rewrite range_snoc by lia. now rewrite rev_app_distr.
Qed.

(** The loop of [_backward] from [c - 1] down to [a]. *)
Lemma backward_loop_run a (k : nat) : forall c st,
  c - a = Z.of_nat k -> 0 <= a -> c < Z.of_nat T -> lens T st ->
  exists st',
    for_ (rev (range a c)) (backward_step pinv Ft) st = (Ok tt, st') /\
    lens T st' /\ forward_pass_kept st st' /\
    (forall t, a <= t < c -> rts_at pinv Ft st' t) /\
    (forall j, c <= j ->
       getitem (x_smooth st') j = getitem (x_smooth st) j /\
       getitem (V_smooth st') j = getitem (V_smooth st) j) /\
    (forall j, c < j -> getitem (V_pair st') j = getitem (V_pair st) j).
Proof.
  induction k as [|k IH]; intros c st Hk Ha Hc HL.
  - replace c with a by lia. unfold range. rewrite Z.sub_diag. simpl.
    exists st. split; [reflexivity|]. split; [exact HL|].
    split; [apply forward_pass_kept_refl|]. split; [intros; lia|]. split; auto.
  - rewrite rev_range_top by lia. simpl.
    destruct (backward_step_run (c - 1) st HL) as (st1 & R1 & L1 & K1 & E1 & S1 & P1);
      [lia|lia|].
    destruct (IH (c - 1) st1) as (st' & R' & L' & K' & E' & S' & P'); auto; [lia|lia|].
    exists st'. split; [|split; [|split; [|split; [|split]]]]; auto.
    + unfold bind. now rewrite R1.
    + eapply forward_pass_kept_trans; eauto.
    + intros t Ht. destruct (Z.eq_dec t (c - 1)) as [->|Hne].
      * eapply rts_at_transfer; eauto.
      * apply E'. lia.
    + intros j Hj. destruct (S' j) as [X1 X2]; [lia|].
      destruct (S1 j) as [Y1 Y2]; [lia|lia|]. split; congruence.
    + intros j Hj. rewrite P' by lia. apply P1; lia.
Qed.

End Backward.

(** [_backward] on a block inside the buffers. *)
Lemma backward_run (pinv : matrix -> matrix) (Ft : matrix) (T : nat)
    (s tau' : Z) (st : emkf) :
  lens T st -> 0 <= tau' -> 0 <= s - tau' -> s < Z.of_nat T ->
  exists st',
    _backward pinv s tau' (Some Ft) st = (Ok tt, st') /\
    (forall t, s - tau' <= t < s -> rts_at pinv Ft st' t) /\
    getitem (x_smooth st') s = getitem (x_filt st) s /\
    getitem (V_smooth st') s = getitem (V_filt st) s /\
    forward_pass_kept st st' /\ lens T st'.
Proof.
  intros HL Htau Hs0 HsT.
  pose proof HL as (L1 & L2 & L3 & L4 & L5 & L6 & L7).
  destruct (getitem_nonneg (x_filt st) s) as (xf & Gxf & _); [lia|].
  destruct (getitem_nonneg (V_filt st) s) as (Vf & GVf & _); [lia|].
  set (st1 := set_V_smooth (upd (V_smooth st) (Z.to_nat s) Vf)
                (set_x_smooth (upd (x_smooth st) (Z.to_nat s) xf) st)).
  assert (HL1 : lens T st1).
  { unfold lens, st1; simpl. rewrite !upd_length. auto 10. }
  destruct (backward_loop_run pinv Ft T (s - tau') (Z.to_nat tau') s st1)
    as (st' & R' & L' & K' & E' & S' & P'); auto; [lia|].
  exists st'. split; [|split; [exact E'|split; [|split; [|split; [|exact L']]]]].
  - unfold _backward. simpl.
    unfold bind at 1. unfold ret at 1.
    rewrite (bind_read x_filt s _ st xf Gxf).
    erewrite bind_write by (apply setitem_nonneg; lia).
    erewrite bind_read by (simpl; exact GVf).
    erewrite bind_write by (simpl; apply setitem_nonneg; lia).
    exact R'.
  - destruct (S' s) as [X _]; [lia|]. rewrite X, Gxf. unfold st1; simpl.
    apply getitem_upd_same. lia.
  - destruct (S' s) as [_ X]; [lia|]. rewrite X, GVf. unfold st1; simpl.
    apply getitem_upd_same. lia.
  - eapply forward_pass_kept_trans; [|exact K'].
    unfold forward_pass_kept, st1; simpl. auto 10.
Qed.

(** C7.  On a block ending at [s] with [tau'] earlier times, all inside the
    buffers, [_backward] returns, and in the state it leaves the equations
    of the smoother hold at every [t] from [s - 1] down to [s - tau']: with
    the gain A = V_filt[t] F (V_pred[t+1])^+,
    x_smooth[t] = x_filt[t] + A (x_smooth[t+1] - x_pred[t+1]),
    V_smooth[t] = V_filt[t] + A (V_smooth[t+1] - V_pred[t+1]) A^T and
    V_pair[t+1] = V_smooth[t+1] A^T.  The smoothed values at [s] are the
    filtered ones, and the predicted and filtered trajectories are left as
    they were. *)
Theorem backward_recursion (pinv : matrix -> matrix) (Ft : matrix) (T : nat)
    (s tau' : Z) (st : emkf) :
  lens T st -> 0 <= tau' -> 0 <= s - tau' -> s < Z.of_nat T ->
  exists st',
    _backward pinv s tau' (Some Ft) st = (Ok tt, st') /\
    (forall t, s - tau' <= t < s -> rts_at pinv Ft st' t) /\
    getitem (x_smooth st') s = getitem (x_filt st) s /\
    getitem (V_smooth st') s = getitem (V_filt st) s /\
    forward_pass_kept st st' /\ lens T st'.
Proof. exact (backward_run pinv Ft T s tau' st). Qed.

(** ** The history of transition matrices in "filter" mode *)

Lemma nth_error_repeat {A} (x : A) n k : (k < n)%nat -> nth_error (repeat x n) k = Some x.
Proof.
  revert k; induction n as [|n IH]; intros [|k] Hk; simpl; try lia; auto.
  apply IH. lia.
Qed.

Lemma hist_inv_write c0 L Zm st i v l :
  hist_inv c0 L Zm st -> setitem (Fs st) i v = Ok l ->
  0 <= i < Z.of_nat L - 1 -> hist_inv c0 L Zm (set_Fs l st).
Proof.
  intros (Hc & HL & HN) (k & Hk & ->)%setitem_ok_inv Hi.
  apply norm_index_nonneg_inv in Hk as [-> _]; [|lia].
  unfold hist_inv; simpl. rewrite upd_length.
  rewrite nth_error_upd_other by lia. auto.
Qed.

Lemma lookahead_index_below_last t tau' T :
  1 <= tau' -> 1 <= t -> t < T - tau' ->
  0 <= t / tau' + 1 < (T - 1) / tau' + 1.
Proof.
  intros Htau Ht HT. split.
  - assert (0 <= t / tau') by (apply Z.div_pos; lia). lia.
  - assert (H1 : (t + 1 * tau') / tau' <= (T - 1) / tau')
      by (apply Z.div_le_mono; lia).
    rewrite Z.div_add in H1 by lia. lia.
Qed.

Ltac hist_known :=
  let s := fresh "s" in let Hc := fresh "Hc" in
  intros s (Hc & _ & _); rewrite Hc; reflexivity.

Ltac hist_leaf :=
  let s := fresh "s" in let l := fresh "l" in
  first [ intros s l (? & ? & ?) _ | intros s (? & ? & ?) ];
  unfold hist_inv; simpl; solve [auto].

Section History.

Variable pinv : matrix -> matrix.
Variable c0 : config.
Variable Zm : matrix.

Hypothesis tau_pos : 1 <= tau c0.

Let L : nat := Z.to_nat ((Z.of_nat (length (y c0)) - 1) / tau c0 + 1 + 1).

Lemma predict_update_keeps_hist t Fo :
  preserves (hist_inv c0 L Zm) (_predict_update t Fo).
Proof. frame_known hist_known hist_leaf. Qed.

Lemma filter_update_keeps_hist t :
  preserves (hist_inv c0 L Zm) (_filter_update pinv t).
Proof. frame_known hist_known hist_leaf. Qed.

Lemma filter_step_keeps_hist t :
  1 <= t -> preserves (hist_inv c0 L Zm) (filter_step pinv t).
Proof.
  intros Ht. frame_known hist_known hist_leaf.
  apply pres_write. intros s l HI W. eapply hist_inv_write; eauto.
  assert (0 <= (Z.of_nat (length (y c0)) - 1) / tau c0)
    by (apply Z.div_pos; lia).
  pose proof (lookahead_index_below_last t (tau c0) (Z.of_nat (length (y c0)))).
  unfold L. lia.
Qed.

Lemma forward_filter_keeps_hist :
  mode c0 = Filter -> preserves (hist_inv c0 L Zm) (forward pinv).
Proof.
  intros Hmode. unfold forward. frame_known hist_known hist_leaf.
  rewrite Hmode.
  apply pres_bind; [apply filter_update_keeps_hist|intros _].
  apply pres_for. intros t Ht%in_range. apply filter_step_keeps_hist. lia.
Qed.

End History.

Lemma parse_mode_filter m : parse_mode m = Ok Filter <-> m = "filter"%string.
Proof.
  unfold parse_mode. destruct (String.eqb_spec m "filter") as [->|Hne].
  - tauto.
  - destruct (String.eqb m "smooth"); split; intros; congruence.
Qed.


(** ** The final boundary condition in "smooth" mode *)

Ltac base_known :=
  let s := fresh "s" in let Hc := fresh "Hc" in
  intros s [Hc _]; rewrite Hc; reflexivity.

Ltac base_leaf :=
  let s := fresh "s" in let l := fresh "l" in let W := fresh "W" in
  first
    [ intros s l [? (? & ? & ? & ? & ? & ? & ?)] W;
      apply setitem_length in W; unfold base, lens; simpl;
      repeat split; solve [auto | congruence]
    | intros s [? (? & ? & ? & ? & ? & ? & ?)];
      unfold base, lens; simpl; repeat split; solve [auto] ].

Ltac boundary_known :=
  let s := fresh "s" in let Hc := fresh "Hc" in
  intros s [[Hc _] _]; rewrite Hc; reflexivity.

Ltac boundary_leaf :=
  let s := fresh "s" in let l := fresh "l" in
  first
    [ intros s l [[? (? & ? & ? & ? & ? & ? & ?)] [? ?]] _
    | intros s [[? (? & ? & ? & ? & ? & ? & ?)] [? ?]] ];
  unfold boundary, base, lens; simpl; repeat split; solve [auto].

Lemma last_default {A} (l : list A) (d1 d2 : A) :
  l <> [] -> last l d1 = last l d2.
Proof.
  induction l as [|a [|a' l] IH]; intros Hne; try congruence; auto.
  change (last (a' :: l) d1 = last (a' :: l) d2). apply IH. congruence.
Qed.

(** The value of a loop variable after the loop. *)
Lemma loop_variable {X} (l : list X) (body : option X -> X -> M (option X)) :
  (forall acc x s a s', body acc x s = (Ok a, s') -> a = Some x) ->
  forall tv s tv' s',
    foldM l tv body s = (Ok tv', s') -> tv' = last (map Some l) tv.
Proof.
  intros Hbody. induction l as [|x l IH]; intros tv s tv' s' Hrun; simpl in *.
  - apply ret_ok in Hrun as [_ ->]. reflexivity.
  - apply bind_ok in Hrun as (tv1 & s1 & H1 & H2).
    apply Hbody in H1 as ->.
    apply IH in H2. rewrite H2. destruct l as [|x' l]; [reflexivity|].
    change (last (map Some (x' :: l)) (Some x) = last (map Some (x' :: l)) tv).
    apply last_default. simpl. congruence.
Qed.

Lemma last_range a c (tv : option Z) :
  last (map Some (range a c)) tv = if a <? c then Some (c - 1) else tv.
Proof.
  destruct (a <? c) eqn:E.
  - replace c with (c - 1 + 1) at 1 by lia.
    rewrite range_snoc by lia. rewrite map_app. simpl. now rewrite last_last.
  - unfold range. replace (Z.to_nat (c - a)) with 0%nat by lia. reflexivity.
Qed.

(** A loop of at least one round ends as its last round does. *)
Lemma foldM_last_round {X B} (P Q : B -> emkf -> Prop) (body : B -> X -> M B) :
  (forall acc x s a s', P acc s -> body acc x s = (Ok a, s') -> Q a s') ->
  (forall a s, Q a s -> P a s) ->
  forall l b0 s b' s', l <> [] -> P b0 s ->
    foldM l b0 body s = (Ok b', s') -> Q b' s'.
Proof.
  intros Hbody HQP. induction l as [|x l IH]; intros b0 s b' s' Hne HP Hrun.
  - congruence.
  - simpl in Hrun. apply bind_ok in Hrun as (b1 & s1 & H1 & H2).
    pose proof (Hbody _ _ _ _ _ HP H1) as HQ1.
    destruct l as [|x' l].
    + simpl in H2. apply ret_ok in H2 as [-> ->]. exact HQ1.
    + apply (IH b1 s1 b' s'); [congruence | apply HQP; exact HQ1 | exact H2].
Qed.

(** What a method that returned did to a state satisfying an invariant. *)
Lemma preserves_ok {A} (I : emkf -> Prop) (m : M A) s a s' :
  preserves I m -> I s -> m s = (Ok a, s') -> I s'.
Proof. intros Hm Hs Hrun. specialize (Hm s Hs). now rewrite Hrun in Hm. Qed.

Section SmoothRun.

Variable pinv : matrix -> matrix.
Variable c0 : config.
Variable T : nat.

Hypothesis tau_pos : 1 <= tau c0.
Hypothesis T_obs : length (y c0) = T.

Lemma predict_update_keeps_base t Fo : preserves (base c0 T) (_predict_update t Fo).
Proof. frame_known base_known base_leaf. Qed.

Lemma filter_update_keeps_base t : preserves (base c0 T) (_filter_update pinv t).
Proof. frame_known base_known base_leaf. Qed.

Lemma update_transition_matrix_keeps_base s tau' Fo :
  preserves (base c0 T) (_update_transition_matrix pinv s tau' Fo).
Proof. frame_known base_known base_leaf. Qed.

Lemma mstep_keeps_boundary t xs Vs ts :
  preserves (boundary c0 T t) (mstep_sums xs Vs ts).
Proof. frame_known boundary_known boundary_leaf. Qed.

Lemma damped_update_F_keeps_boundary t F_est :
  preserves (boundary c0 T t) (damped_update_F F_est).
Proof. frame_known boundary_known boundary_leaf. Qed.

Lemma store_keeps_boundary t k :
  preserves (boundary c0 T t) (store_transition_matrix k).
Proof. frame_known boundary_known boundary_leaf. Qed.

Lemma update_transition_matrix_boundary t tau' Fe s Fr s' :
  base c0 T s -> 0 <= tau' -> 0 <= t - tau' -> t < Z.of_nat T ->
  _update_transition_matrix pinv t tau' (Some Fe) s = (Ok Fr, s') ->
  boundary c0 T t s'.
Proof.
  intros [Hc HL] Htau Ht0 HtT Hrun. unfold _update_transition_matrix in Hrun.
  apply bind_ok in Hrun as ([] & s1 & H1 & H2).
  destruct (backward_run pinv Fe T t tau' s HL Htau Ht0 HtT)
    as (s1' & R & _ & Bx & BV & K & HL1).
  rewrite R in H1. injection H1 as <-.
  refine (preserves_ok (boundary c0 T t) _ _ _ _ _ _ H2).
  - frame_known boundary_known boundary_leaf.
  - destruct K as (Kc & _ & _ & _ & _ & _ & Kx & KV).
    unfold boundary, base. rewrite Kx, KV, Kc. auto.
Qed.

Lemma block_end_entry s :
  0 <= s < Z.of_nat T -> t_entry T s (Some (block_end c0 T s)).
Proof.
  intros Hs t0 [= <-]. unfold block_end. lia.
Qed.

Lemma smooth_iteration_boundary sblk loc n s loc' s' :
  base c0 T s -> 0 <= sblk < Z.of_nat T -> t_entry T sblk (snd loc) ->
  smooth_iteration pinv sblk loc n s = (Ok loc', s') ->
  snd loc' = Some (block_end c0 T sblk) /\
  boundary c0 T (block_end c0 T sblk) s'.
Proof.
  intros HB Hs Hentry Hrun. unfold smooth_iteration in Hrun.
  apply bind_ok in Hrun as (Tz & s1 & E & Hrun). apply gets_ok in E as [-> ->].
  apply bind_ok in Hrun as (tau' & s1 & E & Hrun). apply gets_ok in E as [-> ->].
  destruct HB as [Hc HL]. rewrite Hc, T_obs in Hrun.
  apply bind_ok in Hrun as ([] & s1 & E1 & Hrun).
  assert (HB1 : base c0 T s1).
  { refine (preserves_ok (base c0 T) _ _ _ _ _ _ E1); [|split; auto].
    frame_known base_known base_leaf. }
  apply bind_ok in Hrun as (tv & s2 & E2 & Hrun).
  assert (HB2 : base c0 T s2).
  { refine (preserves_ok (base c0 T) _ _ _ _ _ _ E2); [|exact HB1].
    frame_known base_known base_leaf. }
  apply loop_variable in E2.
  2:{ intros acc x z a z' Hb. apply bind_ok in Hb as ([] & z1 & _ & Hb).
      apply bind_ok in Hb as ([] & z2 & _ & Hb). now apply ret_ok in Hb as [_ ->]. }
  rewrite last_range in E2.
  apply bind_ok in Hrun as (t & s3 & E3 & Hrun). apply unwrap_ok in E3 as [-> E3].
  apply bind_ok in Hrun as (Fr & s4 & E4 & Hrun). apply ret_ok in Hrun as [-> ->].
  simpl. rewrite range_length in E4.
  assert (Ht : t = block_end c0 T sblk /\
               0 <= Z.max 0 (Z.min (sblk + tau c0 + 1) (Z.of_nat T) - sblk) - 1 /\
               t - (Z.max 0 (Z.min (sblk + tau c0 + 1) (Z.of_nat T) - sblk) - 1) = sblk).
  { unfold block_end.
    destruct (sblk + 1 <? Z.min (sblk + tau c0 + 1) (Z.of_nat T)) eqn:Hc1.
    - rewrite E3 in E2. injection E2 as ->. lia.
    - rewrite E3 in E2. destruct (Hentry t (eq_sym E2)); lia. }
  destruct Ht as (Ht & Hlen & Hstart).
  split; [congruence|]. rewrite <- Ht.
  eapply update_transition_matrix_boundary; [exact HB2| | | |exact E4]; lia.
Qed.

Lemma smooth_block_boundary sblk tv s tv' s' :
  1 <= iteration c0 ->
  base c0 T s -> 0 <= sblk < Z.of_nat T -> t_entry T sblk tv ->
  smooth_block pinv tv sblk s = (Ok tv', s') ->
  tv' = Some (block_end c0 T sblk) /\ boundary c0 T (block_end c0 T sblk) s'.
Proof.
  intros Hit HB Hs Hentry Hrun. unfold smooth_block in Hrun.
  apply bind_ok in Hrun as (F0 & s1 & E & Hrun). apply gets_ok in E as [-> ->].
  apply bind_ok in Hrun as ([] & s1 & E1 & Hrun).
  assert (HB1 : base c0 T s1).
  { refine (preserves_ok (base c0 T) _ _ _ _ _ _ E1); [|exact HB].
    frame_known base_known base_leaf. }
  apply bind_ok in Hrun as ([] & s2 & E2 & Hrun).
  pose proof (preserves_ok _ _ _ _ _ (filter_update_keeps_base sblk) HB1 E2) as HB2.
  apply bind_ok in Hrun as (iters & s3 & E & Hrun). apply gets_ok in E as [-> ->].
  destruct HB2 as [Hc2 HL2]. rewrite Hc2 in Hrun.
  apply bind_ok in Hrun as (loc & s3 & E3 & Hrun).
  assert (HQ : snd loc = Some (block_end c0 T sblk) /\
               boundary c0 T (block_end c0 T sblk) s3).
  { refine (foldM_last_round
              (fun l z => base c0 T z /\ t_entry T sblk (snd l))
              (fun l z => snd l = Some (block_end c0 T sblk) /\
                          boundary c0 T (block_end c0 T sblk) z)
              (smooth_iteration pinv sblk) _ _ _ _ _ _ _ _ _ E3).
    - intros acc x z a z' [Hz He] Hb.
      eapply smooth_iteration_boundary; eauto.
    - intros a z [Ha [Hz _]]. split; auto. rewrite Ha. now apply block_end_entry.
    - unfold range. replace (Z.to_nat (iteration c0 - 0)) with
        (S (Z.to_nat (iteration c0 - 1))) by lia. simpl. congruence.
    - split; [split; auto|exact Hentry]. }
  destruct HQ as [Htv HQ].
  apply bind_ok in Hrun as ([] & s4 & E4 & Hrun).
  pose proof (preserves_ok _ _ _ _ _
                (damped_update_F_keeps_boundary _ _) HQ E4) as HQ4.
  apply bind_ok in Hrun as ([] & s5 & E5 & Hrun).
  pose proof (preserves_ok _ _ _ _ _ (store_keeps_boundary _ _) HQ4 E5) as HQ5.
  apply ret_ok in Hrun as [-> ->]. auto.
Qed.

Lemma blocks_boundary (m : nat) : forall (i : nat) tv s tv' s',
  1 <= iteration c0 -> base c0 T s -> (0 < m)%nat ->
  Z.of_nat (i + m - 1) * tau c0 < Z.of_nat T ->
  (forall t0, tv = Some t0 -> t0 = Z.of_nat i * tau c0) ->
  foldM (map (fun k => Z.of_nat k * tau c0) (seq i m)) tv (smooth_block pinv) s
    = (Ok tv', s') ->
  boundary c0 T (block_end c0 T (Z.of_nat (i + m - 1) * tau c0)) s'.
Proof.
  induction m as [|m IH]; intros i tv s tv' s' Hit HB Hm Hlast Htv Hrun; [lia|].
  simpl in Hrun. apply bind_ok in Hrun as (tv1 & s1 & E1 & Hrun).
  assert (Hi : 0 <= Z.of_nat i * tau c0 < Z.of_nat T) by nia.
  apply smooth_block_boundary in E1 as [-> HQ]; auto.
  2:{ intros t0 Ht0. right. now apply Htv. }
  destruct m as [|m].
  - simpl in Hrun. apply ret_ok in Hrun as [-> _].
    replace (i + 1 - 1)%nat with i by lia. exact HQ.
  - replace (i + S (S m) - 1)%nat with (S i + S m - 1)%nat by lia.
    eapply IH; [exact Hit|exact (proj1 HQ)|lia| |
                |exact Hrun].
    + replace (S i + S m - 1)%nat with (i + S (S m) - 1)%nat by lia. exact Hlast.
    + intros t0 [= <-]. unfold block_end. nia.
Qed.

End SmoothRun.

Lemma lens_allocate st : lens (length (y (cfg st))) (allocate st).
Proof.
  unfold lens, allocate, zeros3; simpl. rewrite !repeat_length. auto 10.
Qed.

(** The run of [forward] in "smooth" mode, when it returns. *)
Lemma smooth_forward_boundary (pinv : matrix -> matrix) (o st' : emkf) :
  mode (cfg o) = Smooth ->
  1 <= tau (cfg o) ->
  1 <= iteration (cfg o) ->
  forward pinv o = (Ok tt, st') ->
  (1 <= length (y (cfg o)))%nat /\
  boundary (cfg o) (length (y (cfg o))) (Z.of_nat (length (y (cfg o))) - 1) st'.
Proof.
  intros Hmode Htau Hit Hrun.
  set (c0 := cfg o) in *. set (T := length (y c0)) in *.
  unfold forward in Hrun.
  apply bind_ok in Hrun as ([] & s1 & E & Hrun).
  unfold modify in E. injection E as <-.
  assert (HB1 : base c0 T (allocate o)).
  { split; [reflexivity|apply lens_allocate]. }
  apply bind_ok in Hrun as (Tz & s1 & E & Hrun). apply gets_ok in E as [-> ->].
  apply bind_ok in Hrun as (m0 & s1 & E & Hrun). apply gets_ok in E as [-> ->].
  apply bind_ok in Hrun as ([] & s2 & E2 & Hrun).
  assert (HT : (1 <= T)%nat).
  { apply write_ok in E2 as (l & W & _).
    apply setitem_ok_inv in W as (k & Hk & _). apply norm_index_lt in Hk.
    destruct HB1 as [_ (L1 & _)]. lia. }
  assert (HB2 : base c0 T s2).
  { refine (preserves_ok (base c0 T) _ _ _ _ _ _ E2); [|exact HB1].
    frame_known base_known base_leaf. }
  apply bind_ok in Hrun as (V0 & s3 & E & Hrun). apply gets_ok in E as [-> ->].
  apply bind_ok in Hrun as ([] & s3 & E3 & Hrun).
  assert (HB3 : base c0 T s3).
  { refine (preserves_ok (base c0 T) _ _ _ _ _ _ E3); [|exact HB2].
    frame_known base_known base_leaf. }
  apply bind_ok in Hrun as (md & s4 & E & Hrun). apply gets_ok in E as [-> ->].
  destruct HB3 as [Hc3 HL3]. rewrite Hc3, Hmode in Hrun.
  apply bind_ok in Hrun as (tau' & s4 & E & Hrun). apply gets_ok in E as [-> ->].
  rewrite Hc3 in Hrun.
  apply bind_ok in Hrun as (blocks & s4 & E & Hrun).
  unfold lift in E. injection E as E <-.
  unfold range_step in E. simpl in E. fold c0 in E. fold T in E.
  replace (tau c0 =? 0) with false in E by lia.
  replace (tau c0 <? 0) with false in E by lia.
  injection E as <-.
  apply bind_ok in Hrun as (tv & s5 & E5 & Hrun). apply ret_ok in Hrun as [<- _].
  split; [exact HT|].
  set (n := Z.to_nat ((Z.of_nat T + tau c0 - 1) / tau c0)) in *.
  assert (Hq : tau c0 * ((Z.of_nat T + tau c0 - 1) / tau c0) <= Z.of_nat T + tau c0 - 1
               /\ Z.of_nat T + tau c0 - 1
                  < tau c0 * ((Z.of_nat T + tau c0 - 1) / tau c0) + tau c0).
  { pose proof (Z.div_mod (Z.of_nat T + tau c0 - 1) (tau c0)).
    pose proof (Z.mod_pos_bound (Z.of_nat T + tau c0 - 1) (tau c0)). lia. }
  assert (Hn0 : 0 < (Z.of_nat T + tau c0 - 1) / tau c0) by nia.
  assert (Hn : Z.of_nat n = (Z.of_nat T + tau c0 - 1) / tau c0) by (unfold n; lia).
  apply (blocks_boundary pinv c0 T Htau eq_refl n 0 None s3 tv st') in E5;
    [ | exact Hit | split; auto | lia | | discriminate ].
  - replace (block_end c0 T (Z.of_nat (0 + n - 1) * tau c0))
      with (Z.of_nat T - 1) in E5; [exact E5|].
    unfold block_end. replace (Z.of_nat (0 + n - 1)) with (Z.of_nat n - 1) by lia.
    nia.
  - replace (Z.of_nat (0 + n - 1)) with (Z.of_nat n - 1) by lia. nia.
Qed.

(** C4, amended.  In "smooth" mode, with a block length and a number of
    refinement rounds of at least 1, whenever [forward] returns there is at
    least one observation and the smoothed mean and covariance at the final
    time T - 1 are exactly the filtered mean and covariance at T - 1. *)
Theorem smooth_final_equals_filtered (pinv : matrix -> matrix) (o st' : emkf) :
  mode (cfg o) = Smooth ->
  1 <= tau (cfg o) ->
  1 <= iteration (cfg o) ->
  forward pinv o = (Ok tt, st') ->
  let last := Z.of_nat (length (y (cfg o))) - 1 in
  exists x V,
    getitem (x_smooth st') last = Ok x /\ getitem (x_filt st') last = Ok x /\
    getitem (V_smooth st') last = Ok V /\ getitem (V_filt st') last = Ok V.
Proof.
  intros Hmode Htau Hit Hrun last.
  destruct (smooth_forward_boundary pinv o st' Hmode Htau Hit Hrun)
    as (HT & [_ (_ & _ & L3 & L4 & _)] & Ex & EV).
  destruct (getitem_nonneg (x_filt st') last) as (x & Gx & _); [unfold last; lia|].
  destruct (getitem_nonneg (V_filt st') last) as (V & GV & _); [unfold last; lia|].
  exists x, V. fold last in Ex, EV. rewrite Ex, EV. auto.
Qed.

(** ** What a run never writes *)

Ltac kept_known :=
  let s := fresh "s" in let Hc := fresh "Hc" in
  intros s [Hc _]; rewrite Hc; reflexivity.

Ltac kept_leaf :=
  let s := fresh "s" in let l := fresh "l" in
  first [ intros s l [? ?] _ | intros s [? ?] ];
  split; simpl; solve [auto | congruence].

Section Untouched.

Variable pinv : matrix -> matrix.
Variable c0 : config.

(** In "filter" mode nothing writes the pairwise covariances: they are the
    zeros of the allocation in whatever state the run ends. *)
Lemma filter_forward_keeps_V_pair (o : emkf) :
  cfg o = c0 -> mode c0 = Filter ->
  V_pair (snd (forward pinv o))
    = zeros3 (length (y c0)) (n_dim_sys c0) (n_dim_sys c0).
Proof.
  intros Hc Hmode.
  assert (H0 : pair_kept c0 (zeros3 (length (y c0)) (n_dim_sys c0) (n_dim_sys c0))
                 (allocate o)).
  { split; simpl; [exact Hc|now rewrite Hc]. }
  assert (Hfw : leads (fun s => s = o)
                  (pair_kept c0 (zeros3 (length (y c0)) (n_dim_sys c0) (n_dim_sys c0)))
                  (forward pinv)).
  { unfold forward.
    apply leads_bind with
      (J := pair_kept c0 (zeros3 (length (y c0)) (n_dim_sys c0) (n_dim_sys c0)));
      [intros s ->; exact H0 | auto | intros _; apply leads_preserves].
    frame_known kept_known kept_leaf. rewrite Hmode.
    frame_known kept_known kept_leaf. }
  exact (proj2 (Hfw o eq_refl)).
Qed.

(** In both modes the transition offset is written only when "b" is in the
    EM-update set. *)
Lemma forward_keeps_b_outside_em_vars (o : emkf) :
  cfg o = c0 -> in_vars "b" (em_vars c0) = false ->
  b (snd (forward pinv o)) = b o.
Proof.
  intros Hc Hb.
  assert (H0 : offset_kept c0 (b o) o) by (split; auto).
  assert (Hfw : preserves (offset_kept c0 (b o)) (forward pinv)).
  { unfold forward.
    frame_known kept_known
      ltac:(first [ kept_leaf
                  | exfalso; rewrite Hb in *; discriminate
                  | intros ? [? ?]; split; [assumption|reflexivity] ]).
    destruct (mode c0);
      frame_known kept_known
        ltac:(first [ kept_leaf | exfalso; rewrite Hb in *; discriminate ]). }
  exact (proj2 (Hfw _ H0)).
Qed.

End Untouched.

(** ** The general properties at work on the scalar examples *)

Section Instances.

Local Open Scope Q_scope.


Lemma smooth_final_equals_filtered_witness :
  let o := scalar_object "smooth" ["F"%string] 2 1 1 in
  let st' := snd (forward pinv_scalar o) in
  mode (cfg o) = Smooth /\ (1 <= tau (cfg o))%Z /\ (1 <= iteration (cfg o))%Z /\
  forward pinv_scalar o = (Ok tt, st') /\
  exists x V,
    getitem (x_smooth st') (Z.of_nat (length (y (cfg o))) - 1) = Ok x /\
    getitem (x_filt st') (Z.of_nat (length (y (cfg o))) - 1) = Ok x /\
    getitem (V_smooth st') (Z.of_nat (length (y (cfg o))) - 1) = Ok V /\
    getitem (V_filt st') (Z.of_nat (length (y (cfg o))) - 1) = Ok V.
Proof.
  intros o st'.
  assert (H1 : mode (cfg o) = Smooth) by reflexivity.
  assert (H2 : (1 <= tau (cfg o))%Z) by (vm_compute; discriminate).
  assert (H3 : (1 <= iteration (cfg o))%Z) by (vm_compute; discriminate).
  assert (H4 : forward pinv_scalar o = (Ok tt, st')) by (vm_compute; reflexivity).
  split; [exact H1|]. split; [exact H2|]. split; [exact H3|]. split; [exact H4|].
  exact (smooth_final_equals_filtered pinv_scalar o st' H1 H2 H3 H4).
Defined.

Lemma filter_update_formulas_witness :
  let st := snd (forward pinv_scalar (scalar_object "smooth" ["F"%string] 2 1 1)) in
  let t := 1%Z in
  exists Ht Rt Vp dt xp yt,
    _last_dims (H (cfg st)) t = Ok Ht /\
    _last_dims (R (cfg st)) t = Ok Rt /\
    _last_dims (d (cfg st)) t = Ok dt /\
    getitem (V_pred st) t = Ok Vp /\
    getitem (x_pred st) t = Ok xp /\
    getitem (y (cfg st)) t = Ok yt /\
    length (x_filt st) = length (x_pred st) /\
    length (V_filt st) = length (V_pred st) /\
    let S := madd (matmul Ht (matmul Vp (transpose Ht))) Rt in
    let K := matmul Vp (matmul (transpose Ht) (pinv_scalar S)) in
    exists st' xf,
      _filter_update pinv_scalar t st = (Ok tt, st') /\
      getitem (x_filt st') t = Ok xf /\
      veq xf (vadd xp (matvec K (vsub (vsub yt (matvec Ht xp)) dt))) /\
      getitem (V_filt st') t = Ok (msub Vp (matmul K (matmul Ht Vp))) /\
      (exists k k',
         norm_index (length (x_pred st)) t = Some k /\
         norm_index (length (V_pred st)) t = Some k' /\
         st' = set_V_filt (upd (V_filt st) k' (msub Vp (matmul K (matmul Ht Vp))))
                 (set_x_filt (upd (x_filt st) k xf) st)).
Proof.
  intros st t.
  assert (H1 : _last_dims (H (cfg st)) t = Ok [[1]]) by reflexivity.
  assert (H2 : _last_dims (R (cfg st)) t = Ok [[1]]) by reflexivity.
  assert (H3 : _last_dims (d (cfg st)) t = Ok [0]) by reflexivity.
  destruct (getitem (V_pred st) t) as [Vp|] eqn:H4;
    [|exfalso; vm_compute in H4; discriminate H4].
  destruct (getitem (x_pred st) t) as [xp|] eqn:H5;
    [|exfalso; vm_compute in H5; discriminate H5].
  assert (H6 : getitem (y (cfg st)) t = Ok [2]) by reflexivity.
  assert (H7 : length (x_filt st) = length (x_pred st)) by (vm_compute; reflexivity).
  assert (H8 : length (V_filt st) = length (V_pred st)) by (vm_compute; reflexivity).
  exists [[1]], [[1]], Vp, [0], xp, [2].
  split; [exact H1|]. split; [exact H2|]. split; [exact H3|].
  split; [reflexivity|]. split; [reflexivity|]. split; [exact H6|].
  split; [exact H7|]. split; [exact H8|].
  exact (filter_update_formulas pinv_scalar t st [[1]] [[1]] Vp [0] xp [2]
           H1 H2 H3 H4 H5 H6 H7 H8).
Defined.

Lemma backward_recursion_witness :
  let st := snd (forward pinv_scalar (scalar_object "smooth" ["F"%string] 2 1 1)) in
  lens 2 st /\ (0 <= 1)%Z /\ (0 <= 1 - 1)%Z /\ (1 < Z.of_nat 2)%Z /\
  exists st',
    _backward pinv_scalar 1 1 (Some [[1]]) st = (Ok tt, st') /\
    (forall t, (1 - 1 <= t < 1)%Z -> rts_at pinv_scalar [[1]] st' t) /\
    getitem (x_smooth st') 1 = getitem (x_filt st) 1 /\
    getitem (V_smooth st') 1 = getitem (V_filt st) 1 /\
    forward_pass_kept st st' /\ lens 2 st'.
Proof.
  intros st.
  assert (H1 : lens 2 st) by (vm_compute; repeat split).
  assert (H2 : (0 <= 1)%Z) by lia.
  assert (H3 : (0 <= 1 - 1)%Z) by lia.
  assert (H4 : (1 < Z.of_nat 2)%Z) by lia.
  split; [exact H1|]. split; [exact H2|]. split; [exact H3|]. split; [exact H4|].
  exact (backward_recursion pinv_scalar [[1]] 2 1%Z 1%Z st H1 H2 H3 H4).
Defined.


End Instances.

(** * Further properties of the class *)

(** ** Construction *)

Lemma parse_mode_smooth m : parse_mode m = Ok Smooth <-> m = "smooth"%string.
Proof.
  unfold parse_mode. destruct (String.eqb_spec m "filter") as [->|Hne].
  - split; intros; discriminate.
  - destruct (String.eqb_spec m "smooth"); split; intros; congruence.
Qed.

(** X1.  [__init__] accepts no mode other than "filter" and "smooth": any
    other string raises [ValueError], whatever the other arguments are. *)
Theorem init_rejects_unknown_mode (a : init_args) :
  arg_mode a <> "filter"%string -> arg_mode a <> "smooth"%string ->
  __init__ a = Err ValueError.
Proof.
  intros Hf Hs. unfold __init__, parse_mode.
  apply String.eqb_neq in Hf, Hs. now rewrite Hf, Hs.
Qed.

Lemma init_rejects_unknown_mode_witness :
  let a := scalar_args "both" ["F"%string] 3 1 1 in
  arg_mode a <> "filter"%string /\ arg_mode a <> "smooth"%string /\
  __init__ a = Err ValueError.
Proof.
  intros a.
  assert (H1 : arg_mode a <> "filter"%string) by (simpl; discriminate).
  assert (H2 : arg_mode a <> "smooth"%string) by (simpl; discriminate).
  split; [exact H1|]. split; [exact H2|].
  exact (init_rejects_unknown_mode a H1 H2).
Defined.

(** X2.  With a valid mode and history retention, the allocation of the
    history buffer decides whether construction fails: a block length 0
    raises [ZeroDivisionError]; a negative block length raises [ValueError]
    when the computed number of entries floor((T-1)/tau) + 2 is negative and
    [IndexError] (at [Fs[0] = F]) when it is 0.  Without history retention
    the block length is not looked at and construction succeeds. *)
Theorem init_history_failures (a : init_args) :
  arg_mode a = "filter"%string \/ arg_mode a = "smooth"%string ->
  let T := Z.of_nat (length (observation a)) in
  let tau' := update_interval a in
  (arg_store_transition_matrices_on a = true -> tau' = 0 ->
   __init__ a = Err ZeroDivisionError) /\
  (arg_store_transition_matrices_on a = true -> tau' <> 0 ->
   (T - 1) / tau' + 2 < 0 -> __init__ a = Err ValueError) /\
  (arg_store_transition_matrices_on a = true -> tau' <> 0 ->
   (T - 1) / tau' + 2 = 0 -> __init__ a = Err IndexError) /\
  (arg_store_transition_matrices_on a = false ->
   exists o, __init__ a = Ok o /\ Fs o = [] /\ tau (cfg o) = tau').
Proof.
  intros Hmode T tau'.
  assert (Hp : exists md, parse_mode (arg_mode a) = Ok md).
  { destruct Hmode as [H|H]; rewrite H; [exists Filter|exists Smooth]; reflexivity. }
  destruct Hp as [md Hp].
  unfold __init__. rewrite Hp. unfold init_history. fold T tau'.
  split; [|split; [|split]].
  - intros -> ->. reflexivity.
  - intros -> Hne Hneg. replace (tau' =? 0) with false by lia.
    replace ((T - 1) / tau' + 1 + 1 <? 0) with true by lia. reflexivity.
  - intros -> Hne Hz. replace (tau' =? 0) with false by lia.
    replace ((T - 1) / tau' + 1 + 1 <? 0) with false by lia.
    replace ((T - 1) / tau' + 1 + 1) with 0 by lia. reflexivity.
  - intros ->. eexists. split; [reflexivity|]. split; reflexivity.
Qed.

Lemma init_history_failures_witness :
  let a := scalar_args "smooth" ["F"%string] 3 (-1) 1 in
  (arg_mode a = "filter"%string \/ arg_mode a = "smooth"%string) /\
  __init__ a = Err IndexError /\
  __init__ (scalar_args "smooth" ["F"%string] 3 0 1) = Err ZeroDivisionError /\
  __init__ (scalar_args "smooth" ["F"%string] 4 (-1) 1) = Err ValueError.
Proof.
  intros a.
  assert (H1 : arg_mode a = "filter"%string \/ arg_mode a = "smooth"%string)
    by (right; reflexivity).
  split; [exact H1|]. split; [|split].
  - apply (init_history_failures a H1); [reflexivity|simpl; lia|reflexivity].
  - apply (init_history_failures (scalar_args "smooth" ["F"%string] 3 0 1));
      [right; reflexivity|reflexivity|reflexivity].
  - apply (init_history_failures (scalar_args "smooth" ["F"%string] 4 (-1) 1));
      [right; reflexivity|reflexivity|simpl; lia|reflexivity].
Defined.

(** X3.  With a valid mode, history retention and a block length of at least
    1, construction succeeds for any number of observations: the trajectory
    attributes do not exist yet, [F] is the given matrix or the identity, and
    the history has floor((T-1)/tau) + 2 entries, the first of which is [F]
    and all others zero matrices of the shape of [F]. *)
Theorem init_builds_history (a : init_args) :
  arg_mode a = "filter"%string \/ arg_mode a = "smooth"%string ->
  arg_store_transition_matrices_on a = true ->
  1 <= update_interval a ->
  exists o,
    __init__ a = Ok o /\
    allocated o = false /\
    F o = default (transition_matrices a)
                  (eye (arg_n_dim_sys a) (arg_n_dim_sys a)) /\
    Z.of_nat (length (Fs o))
      = (Z.of_nat (length (observation a)) - 1) / update_interval a + 2 /\
    getitem (Fs o) 0 = Ok (F o) /\
    (forall i, 1 <= i < Z.of_nat (length (Fs o)) ->
       getitem (Fs o) i = Ok (zeros2 (length (F o)) (length (hd [] (F o))))).
Proof.
  intros Hmode Hstore Htau.
  assert (Hp : exists md, parse_mode (arg_mode a) = Ok md).
  { destruct Hmode as [H|H]; rewrite H; [exists Filter|exists Smooth]; reflexivity. }
  destruct Hp as [md Hp].
  assert (Hq : -1 <= (Z.of_nat (length (observation a)) - 1) / update_interval a).
  { apply Z.div_le_lower_bound; lia. }
  unfold __init__. rewrite Hp, Hstore. unfold init_history.
  replace (update_interval a =? 0) with false by lia.
  replace ((Z.of_nat (length (observation a)) - 1) / update_interval a + 1 + 1 <? 0)
    with false by lia.
  set (F0 := default (transition_matrices a) (eye (arg_n_dim_sys a) (arg_n_dim_sys a))).
  set (L := Z.to_nat ((Z.of_nat (length (observation a)) - 1) / update_interval a + 1 + 1)).
  assert (HL : (1 <= L)%nat) by (unfold L; lia).
  rewrite setitem_nonneg by (unfold zeros3; rewrite repeat_length; lia).
  eexists. split; [reflexivity|]. simpl.
  split; [reflexivity|]. split; [reflexivity|].
  unfold zeros3. rewrite upd_length, repeat_length.
  split; [unfold L; lia|]. split.
  - apply (getitem_upd_same _ 0). rewrite repeat_length. lia.
  - intros i Hi. rewrite (getitem_upd_other _ 0 i) by lia.
    unfold getitem. rewrite repeat_length, norm_index_nonneg by lia.
    rewrite nth_error_repeat by lia. reflexivity.
Qed.

Lemma init_builds_history_witness :
  let a := scalar_args "filter" ["F"%string] 3 1 1 in
  (arg_mode a = "filter"%string \/ arg_mode a = "smooth"%string) /\
  arg_store_transition_matrices_on a = true /\
  (1 <= update_interval a) /\
  exists o,
    __init__ a = Ok o /\
    allocated o = false /\
    F o = default (transition_matrices a)
                  (eye (arg_n_dim_sys a) (arg_n_dim_sys a)) /\
    Z.of_nat (length (Fs o))
      = (Z.of_nat (length (observation a)) - 1) / update_interval a + 2 /\
    getitem (Fs o) 0 = Ok (F o) /\
    (forall i, 1 <= i < Z.of_nat (length (Fs o)) ->
       getitem (Fs o) i = Ok (zeros2 (length (F o)) (length (hd [] (F o))))).
Proof.
  intros a.
  assert (H1 : arg_mode a = "filter"%string \/ arg_mode a = "smooth"%string)
    by (left; reflexivity).
  assert (H2 : arg_store_transition_matrices_on a = true) by reflexivity.
  assert (H3 : 1 <= update_interval a) by (simpl; lia).
  split; [exact H1|]. split; [exact H2|]. split; [exact H3|].
  exact (init_builds_history a H1 H2 H3).
Defined.

Lemma in_vars_In name vars : in_vars name vars = true <-> In name vars.
Proof.
  unfold in_vars. rewrite existsb_exists. split.
  - intros (x & Hx & E). apply String.eqb_eq in E. now subst.
  - intros H. exists name. split; auto. apply String.eqb_refl.
Qed.

(** X4.  The EM-update set kept by the object contains "F" exactly when the
    argument names "F" or "transition_matrices", and "b" exactly when it
    names "b" or "transition_offsets"; every other name of the argument
    (the docstring lists six more) is dropped. *)
Theorem em_vars_normalised (vars : list string) :
  (In "F"%string (normalise_em_vars vars) <->
   In "F"%string vars \/ In "transition_matrices"%string vars) /\
  (In "b"%string (normalise_em_vars vars) <->
   In "b"%string vars \/ In "transition_offsets"%string vars) /\
  (forall name, In name (normalise_em_vars vars) ->
     name = "F"%string \/ name = "b"%string).
Proof.
  unfold normalise_em_vars.
  rewrite <- !in_vars_In.
  destruct (in_vars "F" vars) eqn:E1, (in_vars "transition_matrices" vars) eqn:E2,
           (in_vars "b" vars) eqn:E3, (in_vars "transition_offsets" vars) eqn:E4;
    simpl; repeat split; intros; try discriminate;
    repeat match goal with
           | H : _ \/ _ |- _ => destruct H
           | H : False |- _ => destruct H
           end;
    try discriminate; auto; try (subst; auto).
Qed.

(** ** Result accessors *)

Lemma ensure_computed {A} (attr : emkf -> list A) (compute : M unit) st :
  allocated st = true -> attr st <> [] -> ensure attr compute st = (Ok tt, st).
Proof.
  intros Ha Hne. unfold ensure. rewrite Ha.
  destruct (attr st); [congruence|reflexivity].
Qed.

Lemma accessor_on_computed pinv acc attr dim c0 T st :
  In (acc, attr) (accessors pinv) -> computed c0 T st -> (1 <= T)%nat ->
  acc dim st = select attr dim st.
Proof.
  intros Hin (Hc & Ha & L1 & L2 & L3 & L4 & L5 & L6 & L7) HT.
  assert (Hne : forall B (l : list B), length l = T -> l <> []).
  { intros B l Hl ->. simpl in Hl. lia. }
  destruct Hin as [E|[E|[E|[]]]]; injection E as <- <-;
    unfold get_predicted_value, get_filtered_value, get_smoothed_value, bind;
    rewrite ensure_computed; auto.
Qed.

(** X5.  On an estimator whose trajectories exist (at least one time step),
    each of the three accessors, asked for coordinate [dim] of a state of
    dimension n, leaves the object as it is and: returns column [dim] when
    0 <= dim < n; returns column [dim + n] when -n <= dim < 0 (the index
    wraps); raises [IndexError] when dim = n or dim < -n; raises [TypeError]
    when dim > n.  Without [dim] it returns the whole trajectory. *)
Theorem accessor_coordinate_cases (pinv : matrix -> matrix) (c0 : config)
    (T : nat) (st : emkf) :
  computed c0 T st -> (1 <= T)%nat ->
  forall acc attr, In (acc, attr) (accessors pinv) ->
    let n := Z.of_nat (n_dim_sys c0) in
    acc None st = (Ok (Trajectory (attr st)), st) /\
    (forall dim, 0 <= dim < n ->
       acc (Some dim) st = (Ok (Coordinate (column (Z.to_nat dim) (attr st))), st)) /\
    (forall dim, - n <= dim < 0 ->
       acc (Some dim) st
         = (Ok (Coordinate (column (Z.to_nat (dim + n)) (attr st))), st)) /\
    (forall dim, dim = n \/ dim < - n -> acc (Some dim) st = (Err IndexError, st)) /\
    (forall dim, n < dim -> acc (Some dim) st = (Err TypeError, st)).
Proof.
  intros Hcomp HT acc attr Hin n.
  assert (Hsel : forall dim, acc dim st = select attr dim st).
  { intros dim. eapply accessor_on_computed; eauto. }
  destruct Hcomp as (Hc & _).
  split; [|split; [|split; [|split]]].
  - rewrite Hsel. reflexivity.
  - intros dim Hd. rewrite Hsel. unfold select, bind, gets. rewrite Hc. fold n.
    replace (dim <=? n) with true by lia. unfold n in Hd.
    rewrite norm_index_nonneg by lia. reflexivity.
  - intros dim Hd. rewrite Hsel. unfold select, bind, gets. rewrite Hc. fold n.
    replace (dim <=? n) with true by lia. unfold norm_index, n in *.
    replace ((0 <=? dim) && (dim <? Z.of_nat (n_dim_sys c0))) with false by lia.
    replace ((- Z.of_nat (n_dim_sys c0) <=? dim) && (dim <? 0)) with true by lia.
    reflexivity.
  - intros dim Hd. rewrite Hsel. unfold select, bind, gets. rewrite Hc. fold n.
    replace (dim <=? n) with true by lia. unfold norm_index, n in *.
    replace ((0 <=? dim) && (dim <? Z.of_nat (n_dim_sys c0))) with false by lia.
    replace ((- Z.of_nat (n_dim_sys c0) <=? dim) && (dim <? 0)) with false by lia.
    reflexivity.
  - intros dim Hd. rewrite Hsel. unfold select, bind, gets. rewrite Hc. fold n.
    replace (dim <=? n) with false by lia. reflexivity.
Qed.

Lemma read_all_ids (hist : list matrix) : forall ids acc st,
  Fs st = hist ->
  (forall i, In i ids -> exists m, getitem hist i = Ok m) ->
  exists l,
    foldM ids acc (fun acc i => m <- read Fs i ;; ret (acc ++ [m])) st
      = (Ok (acc ++ l), st) /\
    Forall2 (fun i m => getitem hist i = Ok m) ids l.
Proof.
  induction ids as [|i ids IH]; intros acc st HFs Hok.
  - exists []. simpl. rewrite app_nil_r. split; [reflexivity|constructor].
  - destruct (Hok i (or_introl eq_refl)) as (m & Hm).
    destruct (IH (acc ++ [m]) st HFs) as (l & Hrun & Hall).
    { intros j Hj. apply Hok. now right. }
    exists (m :: l). split; [|constructor; auto].
    simpl. unfold bind at 1. unfold bind at 1. unfold read at 1.
    rewrite HFs, Hm. unfold ret at 1. rewrite Hrun.
    now rewrite <- app_assoc.
Qed.

Lemma read_some_id_fails (hist : list matrix) : forall ids acc st,
  Fs st = hist ->
  (exists i, In i ids /\ getitem hist i = Err IndexError) ->
  foldM ids acc (fun acc i => m <- read Fs i ;; ret (acc ++ [m])) st
    = (Err IndexError, st).
Proof.
  induction ids as [|i ids IH]; intros acc st HFs (j & Hj & Hbad).
  - destruct Hj.
  - simpl. unfold bind at 1. unfold bind at 1. unfold read at 1. rewrite HFs.
    destruct (getitem hist i) as [m|e] eqn:Hi.
    + unfold ret at 1. destruct Hj as [->|Hj]; [congruence|].
      apply IH; eauto.
    + unfold getitem in Hi.
      destruct (norm_index (length hist) i) as [k|]; [|now injection Hi as <-].
      destruct (nth_error hist k); [discriminate|now injection Hi as <-].
Qed.

(** X6.  [get_transition_matrices] never changes the object.  With history
    retention it returns the whole buffer when no [ids] are given, and for
    [ids] whose every index addresses an entry (negative ones wrap) the
    entries at those indices, in the order of [ids]; one index out of range
    raises [IndexError].  Without history retention it returns the current
    matrix [F], whatever [ids] is. *)
Theorem transition_history_selection (st : emkf) (ids : list Z) :
  (store_transition_matrices_on (cfg st) = true ->
     get_transition_matrices None st = (Ok (Matrices (Fs st)), st) /\
     ((forall i, In i ids -> exists m, getitem (Fs st) i = Ok m) ->
      exists l, get_transition_matrices (Some ids) st = (Ok (Matrices l), st) /\
                Forall2 (fun i m => getitem (Fs st) i = Ok m) ids l) /\
     ((exists i, In i ids /\ getitem (Fs st) i = Err IndexError) ->
      get_transition_matrices (Some ids) st = (Err IndexError, st))) /\
  (store_transition_matrices_on (cfg st) = false ->
     forall o, get_transition_matrices o st = (Ok (Current (F st)), st)).
Proof.
  split.
  - intros Hon. split; [|split].
    + unfold get_transition_matrices, bind, gets. now rewrite Hon.
    + intros Hok. destruct (read_all_ids (Fs st) ids [] st eq_refl Hok) as (l & Hrun & Hall).
      exists l. split; auto.
      unfold get_transition_matrices, bind, gets. rewrite Hon.
      unfold bind in Hrun. simpl in *. now rewrite Hrun.
    + intros Hbad. pose proof (read_some_id_fails (Fs st) ids [] st eq_refl Hbad) as Hrun.
      unfold get_transition_matrices, bind, gets. rewrite Hon.
      unfold bind in Hrun. now rewrite Hrun.
  - intros Hoff o. unfold get_transition_matrices, bind, gets. now rewrite Hoff.
Qed.

(** ** What [forward] leaves behind, whether it returns or raises *)

Ltac computed_known :=
  let s := fresh "s" in let Hc := fresh "Hc" in
  intros s (Hc & _); rewrite Hc; reflexivity.

Ltac computed_leaf :=
  let s := fresh "s" in let l := fresh "l" in let W := fresh "W" in
  first
    [ intros s l (? & ? & (? & ? & ? & ? & ? & ? & ?)) W;
      apply setitem_length in W; unfold computed, lens; simpl;
      repeat split; solve [auto | congruence]
    | intros s (? & ? & (? & ? & ? & ? & ? & ? & ?));
      unfold computed, lens; simpl; repeat split; solve [auto] ].

Lemma forward_computed (pinv : matrix -> matrix) (o : emkf) :
  computed (cfg o) (length (y (cfg o))) (snd (forward pinv o)).
Proof.
  set (c0 := cfg o). set (T := length (y c0)).
  assert (Hfw : leads (fun s => s = o) (computed c0 T) (forward pinv)).
  { unfold forward.
    apply leads_bind with (J := computed c0 T);
      [ intros s ->; split; [reflexivity|split; [reflexivity|apply lens_allocate]]
      | auto | intros _; apply leads_preserves ].
    frame_known computed_known computed_leaf.
    destruct (mode c0); frame_known computed_known computed_leaf. }
  exact (Hfw o eq_refl).
Qed.

(** X7.  Whatever the mode and the parameters, and whether [forward] returns
    or raises, it leaves the configuration as it was and the seven
    trajectory buffers in existence with one entry per observation. *)
Theorem forward_allocates_buffers (pinv : matrix -> matrix) (o : emkf) :
  let st := snd (forward pinv o) in
  cfg st = cfg o /\ allocated st = true /\ lens (length (y (cfg o))) st.
Proof. exact (forward_computed pinv o). Qed.

(** X8.  After [forward] has been called on at least one observation, the
    three accessors return the buffers as [forward] left them and do not run
    the estimation again -- also when [forward] raised half-way, and also
    [get_smoothed_value], which then no longer looks for a method [smooth]. *)
Theorem accessors_after_forward (pinv : matrix -> matrix) (o : emkf) :
  (1 <= length (y (cfg o)))%nat ->
  let st := snd (forward pinv o) in
  forall acc attr, In (acc, attr) (accessors pinv) ->
    acc None st = (Ok (Trajectory (attr st)), st).
Proof.
  intros HT st acc attr Hin.
  rewrite (accessor_on_computed pinv acc attr None _ _ st Hin
             (forward_computed pinv o) HT).
  reflexivity.
Qed.

(** X9.  On an empty observation sequence [forward] raises [IndexError], in
    either mode: the buffers are empty and the initial mean cannot be stored
    at time 0. *)
Theorem forward_on_no_observation (pinv : matrix -> matrix) (o : emkf) :
  length (y (cfg o)) = 0%nat ->
  fst (forward pinv o) = Err IndexError.
Proof.
  intros HT. unfold forward, bind, modify, gets, write. simpl.
  rewrite HT. reflexivity.
Qed.

Ltac configured_leaf :=
  let s := fresh "s" in let l := fresh "l" in
  first [ intros s l ? _ | intros s ? ]; unfold configured in *; simpl;
  solve [auto].

Ltac configured_known :=
  let s := fresh "s" in let Hc := fresh "Hc" in
  intros s Hc; unfold configured in Hc; rewrite Hc; reflexivity.

(** A step that never returns ends the method. *)
Lemma pres_bind_never {A B} (I : emkf -> Prop) (m : M A) (f : A -> M B) :
  preserves I m -> (forall s a s', I s -> m s <> (Ok a, s')) ->
  preserves I (bind m f).
Proof.
  intros Hm Hnever s Hs. unfold bind. specialize (Hm s Hs).
  destruct (m s) as [[a|e] s1] eqn:E; simpl in *; auto.
  exfalso. eapply Hnever; eauto.
Qed.

Lemma foldM_first_round {X B} (body : B -> X -> M B) x l b0 s b' s' :
  foldM (x :: l) b0 body s = (Ok b', s') ->
  exists b1 s1, body b0 x s = (Ok b1, s1).
Proof.
  simpl. intros (b1 & s1 & H1 & _)%bind_ok. eauto.
Qed.

Lemma range_first a c : a < c -> exists l, range a c = a :: l.
Proof.
  intros Hac. unfold range.
  replace (Z.to_nat (c - a)) with (S (Z.to_nat (c - a - 1))) by lia.
  simpl. rewrite Z.add_0_r. eauto.
Qed.

Section SmoothFailures.

Variable pinv : matrix -> matrix.
Variable c0 : config.

Lemma backward_keeps_configured s tau' Fo :
  preserves (configured c0) (_backward pinv s tau' Fo).
Proof. frame_known configured_known configured_leaf. Qed.

Lemma iteration_prefix_keeps_configured s loc n :
  preserves (configured c0) (smooth_iteration pinv s loc n).
Proof. frame_known configured_known configured_leaf. Qed.

(** Without "F" in the EM-update set [_update_transition_matrix] returns a
    variable it has not bound. *)
Lemma update_transition_matrix_unbound s tau' Fo st Fr st' :
  configured c0 st -> in_vars "F" (em_vars c0) = false ->
  _update_transition_matrix pinv s tau' Fo st <> (Ok Fr, st').
Proof.
  intros Hc HnF Hrun. unfold _update_transition_matrix in Hrun.
  apply bind_ok in Hrun as ([] & s1 & E1 & Hrun).
  pose proof (preserves_ok _ _ _ _ _ (backward_keeps_configured s tau' Fo) Hc E1) as Hc1.
  apply bind_ok in Hrun as (ev & s2 & E & Hrun). apply gets_ok in E as [-> ->].
  rewrite Hc1, HnF in Hrun.
  apply bind_ok in Hrun as (Fe & s2 & E & Hrun). apply ret_ok in E as [-> ->].
  apply bind_ok in Hrun as ([] & s3 & _ & Hrun).
  apply unwrap_ok in Hrun as [_ Hrun]. discriminate Hrun.
Qed.

Lemma smooth_iteration_unbound_F s loc n st loc' st' :
  configured c0 st -> in_vars "F" (em_vars c0) = false ->
  smooth_iteration pinv s loc n st <> (Ok loc', st').
Proof.
  intros Hc HnF Hrun. unfold smooth_iteration in Hrun.
  apply bind_ok in Hrun as (Tz & s1 & E & Hrun). apply gets_ok in E as [-> ->].
  apply bind_ok in Hrun as (tau' & s1 & E & Hrun). apply gets_ok in E as [-> ->].
  apply bind_ok in Hrun as ([] & s1 & E1 & Hrun).
  assert (Hc1 : configured c0 s1).
  { refine (preserves_ok (configured c0) _ _ _ _ _ _ E1); [|exact Hc].
    frame_known configured_known configured_leaf. }
  apply bind_ok in Hrun as (tv & s2 & E2 & Hrun).
  assert (Hc2 : configured c0 s2).
  { refine (preserves_ok (configured c0) _ _ _ _ _ _ E2); [|exact Hc1].
    frame_known configured_known configured_leaf. }
  apply bind_ok in Hrun as (t & s3 & E3 & Hrun). apply unwrap_ok in E3 as [-> _].
  apply bind_ok in Hrun as (Fr & s4 & E4 & _).
  eapply update_transition_matrix_unbound; eauto.
Qed.

(** With no time after the block start and the loop variable [t] unbound,
    a refinement round reads [t] before it is bound. *)
Lemma smooth_iteration_unbound_t s loc n st loc' st' :
  configured c0 st -> 1 <= tau c0 ->
  Z.of_nat (length (y c0)) <= s + 1 -> snd loc = None ->
  smooth_iteration pinv s loc n st <> (Ok loc', st').
Proof.
  intros Hc Htau HT Hloc Hrun. unfold smooth_iteration in Hrun.
  apply bind_ok in Hrun as (Tz & s1 & E & Hrun). apply gets_ok in E as [-> ->].
  apply bind_ok in Hrun as (tau' & s1 & E & Hrun). apply gets_ok in E as [-> ->].
  unfold configured in Hc. rewrite Hc in Hrun.
  apply bind_ok in Hrun as ([] & s1 & E1 & Hrun).
  apply bind_ok in Hrun as (tv & s2 & E2 & Hrun).
  apply loop_variable in E2.
  2:{ intros acc x z a z' Hb. apply bind_ok in Hb as ([] & z1 & _ & Hb).
      apply bind_ok in Hb as ([] & z2 & _ & Hb). now apply ret_ok in Hb as [_ ->]. }
  rewrite last_range, Hloc in E2.
  replace (s + 1 <? Z.min (s + tau c0 + 1) (Z.of_nat (length (y c0))))
    with false in E2 by lia.
  apply bind_ok in Hrun as (t & s3 & E3 & _). apply unwrap_ok in E3 as [_ E3].
  congruence.
Qed.

(** The first block of a run in "smooth" mode that returned. *)
Lemma smooth_forward_first_block o st' :
  cfg o = c0 -> mode c0 = Smooth -> 1 <= tau c0 ->
  forward pinv o = (Ok tt, st') ->
  exists s1 tv s2,
    configured c0 s1 /\ smooth_block pinv None 0 s1 = (Ok tv, s2).
Proof.
  intros Hc Hmode Htau Hrun. unfold forward in Hrun.
  apply bind_ok in Hrun as ([] & s1 & E & Hrun).
  unfold modify in E. injection E as <-.
  assert (HB1 : computed c0 (length (y c0)) (allocate o)).
  { split; [exact Hc|split; [reflexivity|rewrite <- Hc; apply lens_allocate]]. }
  apply bind_ok in Hrun as (Tz & s1 & E & Hrun). apply gets_ok in E as [-> ->].
  apply bind_ok in Hrun as (m0 & s1 & E & Hrun). apply gets_ok in E as [-> ->].
  apply bind_ok in Hrun as ([] & s2 & E2 & Hrun).
  assert (HT : (1 <= length (y c0))%nat).
  { apply write_ok in E2 as (l & W & _).
    apply setitem_ok_inv in W as (k & Hk & _). apply norm_index_lt in Hk.
    destruct HB1 as (_ & _ & L1 & _). lia. }
  assert (HB2 : configured c0 s2).
  { refine (preserves_ok (configured c0) _ _ _ _ _ _ E2); [|exact Hc].
    frame_known configured_known configured_leaf. }
  apply bind_ok in Hrun as (V0 & s3 & E & Hrun). apply gets_ok in E as [-> ->].
  apply bind_ok in Hrun as ([] & s3 & E3 & Hrun).
  assert (HB3 : configured c0 s3).
  { refine (preserves_ok (configured c0) _ _ _ _ _ _ E3); [|exact HB2].
    frame_known configured_known configured_leaf. }
  apply bind_ok in Hrun as (md & s4 & E & Hrun). apply gets_ok in E as [-> ->].
  unfold configured in HB3. rewrite HB3, Hmode in Hrun.
  apply bind_ok in Hrun as (tau' & s4 & E & Hrun). apply gets_ok in E as [-> ->].
  rewrite HB3 in Hrun.
  apply bind_ok in Hrun as (blocks & s4 & E & Hrun).
  unfold lift in E. injection E as E <-.
  simpl in E. rewrite Hc in E. unfold range_step in E.
  replace (tau c0 =? 0) with false in E by lia.
  replace (tau c0 <? 0) with false in E by lia.
  injection E as <-.
  apply bind_ok in Hrun as (tv & s5 & E5 & _).
  assert (Hn : 0 < (Z.of_nat (length (y c0)) + tau c0 - 1) / tau c0).
  { apply Z.div_str_pos. lia. }
  replace (Z.to_nat ((Z.of_nat (length (y c0)) + tau c0 - 1) / tau c0))
    with (S (Z.to_nat ((Z.of_nat (length (y c0)) + tau c0 - 1) / tau c0 - 1)))
    in E5 by lia.
  simpl in E5. apply bind_ok in E5 as (tv1 & s6 & E6 & _).
  exists s3, tv1, s6. split; [exact HB3|exact E6].
Qed.

Lemma smooth_block_rounds s tv st tv' st' :
  configured c0 st -> 1 <= iteration c0 ->
  smooth_block pinv tv s st = (Ok tv', st') ->
  exists F0 s1 loc s2,
    configured c0 s1 /\
    smooth_iteration pinv s (F0, tv) 0 s1 = (Ok loc, s2).
Proof.
  intros Hc Hit Hrun. unfold smooth_block in Hrun.
  apply bind_ok in Hrun as (F0 & s1 & E & Hrun). apply gets_ok in E as [-> ->].
  apply bind_ok in Hrun as ([] & s1 & E1 & Hrun).
  assert (Hc1 : configured c0 s1).
  { refine (preserves_ok (configured c0) _ _ _ _ _ _ E1); [|exact Hc].
    frame_known configured_known configured_leaf. }
  apply bind_ok in Hrun as ([] & s2 & E2 & Hrun).
  assert (Hc2 : configured c0 s2).
  { refine (preserves_ok (configured c0) _ _ _ _ _ _ E2); [|exact Hc1].
    frame_known configured_known configured_leaf. }
  apply bind_ok in Hrun as (iters & s3 & E & Hrun). apply gets_ok in E as [-> ->].
  unfold configured in Hc2. rewrite Hc2 in Hrun.
  apply bind_ok in Hrun as (loc & s3 & E3 & _).
  destruct (range_first 0 (iteration c0)) as (l & Hl); [lia|].
  rewrite Hl in E3. apply foldM_first_round in E3 as (b1 & s4 & E4).
  exists (F st), s2, b1, s4. split; [exact Hc2|exact E4].
Qed.

End SmoothFailures.

(** X10.  In "smooth" mode with a block length and a number of refinement
    rounds of at least 1, [forward] never returns when "F" is not in the
    EM-update set: the first call of [_update_transition_matrix] ends in
    [return F_est] with [F_est] unbound. *)
Theorem smooth_forward_needs_F_in_em_vars (pinv : matrix -> matrix) (o : emkf) :
  mode (cfg o) = Smooth -> 1 <= tau (cfg o) -> 1 <= iteration (cfg o) ->
  in_vars "F" (em_vars (cfg o)) = false ->
  exists e, fst (forward pinv o) = Err e.
Proof.
  intros Hmode Htau Hit HnF.
  destruct (forward pinv o) as [[[]|e] st'] eqn:Hrun;
    [exfalso|exists e; reflexivity].
  destruct (smooth_forward_first_block pinv (cfg o) o st' eq_refl Hmode Htau Hrun)
    as (s1 & tv & s2 & Hc1 & Hblock).
  destruct (smooth_block_rounds pinv (cfg o) 0 None s1 tv s2 Hc1 Hit Hblock)
    as (F0 & s3 & loc & s4 & Hc3 & Hround).
  eapply smooth_iteration_unbound_F; eauto.
Qed.

(** X11.  In "smooth" mode with a block length and a number of refinement
    rounds of at least 1, [forward] never returns on a single observation:
    the only block has no time after its start, so the loop variable [t]
    handed to [_update_transition_matrix] was never bound. *)
Theorem smooth_forward_on_single_observation (pinv : matrix -> matrix) (o : emkf) :
  mode (cfg o) = Smooth -> 1 <= tau (cfg o) -> 1 <= iteration (cfg o) ->
  length (y (cfg o)) = 1%nat ->
  exists e, fst (forward pinv o) = Err e.
Proof.
  intros Hmode Htau Hit HT.
  destruct (forward pinv o) as [[[]|e] st'] eqn:Hrun;
    [exfalso|exists e; reflexivity].
  destruct (smooth_forward_first_block pinv (cfg o) o st' eq_refl Hmode Htau Hrun)
    as (s1 & tv & s2 & Hc1 & Hblock).
  destruct (smooth_block_rounds pinv (cfg o) 0 None s1 tv s2 Hc1 Hit Hblock)
    as (F0 & s3 & loc & s4 & Hc3 & Hround).
  apply (smooth_iteration_unbound_t pinv (cfg o) 0 (F0, None) 0 s3 loc s4 Hc3 Htau);
    [rewrite HT; simpl; lia | reflexivity | exact Hround].
Qed.

(** ** What a run leaves untouched *)

Ltac model_known :=
  let s := fresh "s" in let Hc := fresh "Hc" in
  intros s (Hc & _); rewrite Hc; reflexivity.

Ltac model_leaf :=
  let s := fresh "s" in let l := fresh "l" in
  first [ intros s l (? & ? & ?) _ | intros s (? & ? & ?) ];
  unfold model_kept; simpl; solve [auto].

Section Untouched2.

Variable pinv : matrix -> matrix.
Variable c0 : config.

Lemma smooth_iteration_keeps_model F0 Fs0 s loc n :
  preserves (model_kept c0 F0 Fs0) (smooth_iteration pinv s loc n).
Proof. frame_known model_known model_leaf. Qed.

Lemma smooth_block_keeps_model_unbound F0 Fs0 tv s :
  1 <= iteration c0 -> in_vars "F" (em_vars c0) = false ->
  preserves (model_kept c0 F0 Fs0) (smooth_block pinv tv s).
Proof.
  intros Hit HnF. unfold smooth_block.
  apply pres_bind; [apply pres_gets|intros Fe].
  apply pres_bind; [frame_known model_known model_leaf|intros _].
  apply pres_bind; [frame_known model_known model_leaf|intros _].
  eapply pres_bind_gets; [solve [model_known]|].
  apply pres_bind_never.
  - apply pres_foldM. intros. apply smooth_iteration_keeps_model.
  - intros s1 a s' (Hc & _) Hrun.
    destruct (range_first 0 (iteration c0)) as (l & Hl); [lia|].
    rewrite Hl in Hrun. apply foldM_first_round in Hrun as (b1 & s2 & Hrun).
    eapply smooth_iteration_unbound_F; eauto.
Qed.

Lemma smooth_forward_keeps_model_unbound (o : emkf) :
  cfg o = c0 -> mode c0 = Smooth ->
  1 <= iteration c0 -> in_vars "F" (em_vars c0) = false ->
  model_kept c0 (F o) (Fs o) (snd (forward pinv o)).
Proof.
  intros Hc Hmode Hit HnF.
  assert (Hfw : leads (fun s => s = o) (model_kept c0 (F o) (Fs o)) (forward pinv)).
  { unfold forward.
    apply leads_bind with (J := model_kept c0 (F o) (Fs o));
      [ intros s ->; unfold model_kept; simpl; auto
      | auto | intros _; apply leads_preserves ].
    frame_known model_known model_leaf. rewrite Hmode.
    eapply pres_bind_gets; [solve [model_known]|].
    apply pres_bind; [apply pres_lift|intros blocks].
    apply pres_bind; [|intros; apply pres_ret].
    apply pres_foldM. intros. now apply smooth_block_keeps_model_unbound. }
  exact (Hfw o eq_refl).
Qed.

Lemma filter_forward_keeps_model_short (o : emkf) :
  cfg o = c0 -> mode c0 = Filter -> 1 <= tau c0 ->
  Z.of_nat (length (y c0)) <= tau c0 + 1 ->
  model_kept c0 (F o) (Fs o) (snd (forward pinv o)).
Proof.
  intros Hc Hmode Htau HT.
  assert (Hfw : leads (fun s => s = o) (model_kept c0 (F o) (Fs o)) (forward pinv)).
  { unfold forward.
    apply leads_bind with (J := model_kept c0 (F o) (Fs o));
      [ intros s ->; unfold model_kept; simpl; auto
      | auto | intros _; apply leads_preserves ].
    frame_known model_known model_leaf. rewrite Hmode.
    apply pres_bind; [frame_known model_known model_leaf|intros _].
    apply pres_for. intros t Ht%in_range. unfold filter_step.
    eapply pres_bind_gets; [solve [model_known]|].
    eapply pres_bind_gets; [solve [model_known]|].
    apply pres_bind; [frame_known model_known model_leaf|intros _].
    replace (((t - 1) mod tau c0 =? 0) && (t <? Z.of_nat (length (y c0)) - tau c0))
      with false by lia.
    frame_known model_known model_leaf. }
  exact (Hfw o eq_refl).
Qed.

Ltac offset_leaf H :=
  first
    [ kept_leaf
    | exfalso;
      match goal with
      | E : _ && (1 <? _) = true |- _ =>
          apply andb_prop in E as [_ E]; rewrite range_length in E; lia
      end ].

Lemma forward_keeps_b_in_filter_mode (o : emkf) :
  cfg o = c0 -> mode c0 = Filter -> b (snd (forward pinv o)) = b o.
Proof.
  intros Hc Hmode.
  assert (H0 : offset_kept c0 (b o) o) by (split; auto).
  assert (Hfw : preserves (offset_kept c0 (b o)) (forward pinv)).
  { unfold forward. frame_known kept_known kept_leaf.
    rewrite Hmode. frame_known kept_known kept_leaf. }
  exact (proj2 (Hfw _ H0)).
Qed.

Lemma forward_keeps_b_with_short_blocks (o : emkf) :
  cfg o = c0 -> tau c0 <= 1 -> b (snd (forward pinv o)) = b o.
Proof.
  intros Hc Htau.
  assert (H0 : offset_kept c0 (b o) o) by (split; auto).
  assert (Hfw : preserves (offset_kept c0 (b o)) (forward pinv)).
  { unfold forward. frame_known kept_known kept_leaf.
    destruct (mode c0); frame_known kept_known ltac:(offset_leaf Htau). }
  exact (proj2 (Hfw _ H0)).
Qed.

End Untouched2.

(** X12.  In "smooth" mode with at least one refinement round, when "F" is
    not in the EM-update set the transition matrix and its history are
    exactly what they were before [forward], in whatever state the run
    ends (it ends by raising): the damped update is never reached. *)
Theorem smooth_forward_keeps_F_outside_em_vars (pinv : matrix -> matrix) (o : emkf) :
  mode (cfg o) = Smooth -> 1 <= iteration (cfg o) ->
  in_vars "F" (em_vars (cfg o)) = false ->
  F (snd (forward pinv o)) = F o /\ Fs (snd (forward pinv o)) = Fs o.
Proof.
  intros Hmode Hit HnF.
  exact (proj2 (smooth_forward_keeps_model_unbound pinv (cfg o) o eq_refl Hmode Hit HnF)).
Qed.

(** X13.  In "filter" mode with a block length tau >= 1, a sequence of at
    most tau + 1 observations never adapts the model: no look-ahead point
    satisfies t < T - tau, so the transition matrix and its history are
    exactly what they were before [forward]. *)
Theorem filter_forward_short_sequence_keeps_F (pinv : matrix -> matrix) (o : emkf) :
  mode (cfg o) = Filter -> 1 <= tau (cfg o) ->
  Z.of_nat (length (y (cfg o))) <= tau (cfg o) + 1 ->
  F (snd (forward pinv o)) = F o /\ Fs (snd (forward pinv o)) = Fs o.
Proof.
  intros Hmode Htau HT.
  exact (proj2 (filter_forward_keeps_model_short pinv (cfg o) o eq_refl Hmode Htau HT)).
Qed.

(** X14.  The transition offset is written only in "smooth" mode, with "b"
    in the EM-update set and a block length above 1 (the guard [tau > 1] of
    [_update_transition_matrix] is on the length of the block): in "filter"
    mode, or without "b", or with a block length of at most 1, [forward]
    leaves [b] exactly as it was, whether it returns or raises. *)
Theorem offset_written_only_in_long_smooth_blocks (pinv : matrix -> matrix)
    (o : emkf) :
  mode (cfg o) = Filter \/ in_vars "b" (em_vars (cfg o)) = false
    \/ tau (cfg o) <= 1 ->
  b (snd (forward pinv o)) = b o.
Proof.
  intros [H|[H|H]].
  - now apply (forward_keeps_b_in_filter_mode pinv (cfg o)).
  - now apply (forward_keeps_b_outside_em_vars pinv (cfg o)).
  - now apply (forward_keeps_b_with_short_blocks pinv (cfg o)).
Qed.

(** X15.  In "filter" mode no method that [forward] calls writes the
    pairwise covariances: in whatever state the run ends, [V_pair] is the
    all-zero buffer of its allocation. *)
Theorem filter_forward_leaves_V_pair_zero (pinv : matrix -> matrix) (o : emkf) :
  mode (cfg o) = Filter ->
  V_pair (snd (forward pinv o))
    = zeros3 (length (y (cfg o))) (n_dim_sys (cfg o)) (n_dim_sys (cfg o)).
Proof.
  intros Hmode. now apply (filter_forward_keeps_V_pair pinv (cfg o)).
Qed.

(** ** The history in "smooth" mode *)

(** The state a loop of at least one round ends in is the one its last
    round ends in. *)
Lemma foldM_last_elem {X B} (P : emkf -> Prop) (Q : X -> emkf -> Prop)
    (body : B -> X -> M B) :
  (forall acc x s a s', P s -> body acc x s = (Ok a, s') -> P s' /\ Q x s') ->
  forall l b0 s b' s' d, l <> [] -> P s ->
    foldM l b0 body s = (Ok b', s') -> Q (last l d) s'.
Proof.
  intros Hbody. induction l as [|x l IH]; intros b0 s b' s' d Hne HP Hrun.
  - congruence.
  - simpl in Hrun. apply bind_ok in Hrun as (b1 & s1 & H1 & H2).
    destruct (Hbody _ _ _ _ _ HP H1) as [HP1 HQ1].
    destruct l as [|x' l].
    + simpl in H2. apply ret_ok in H2 as [-> ->]. exact HQ1.
    + change (Q (last (x' :: l) d) s').
      apply (IH b1 s1 b' s' d); [congruence|exact HP1|exact H2].
Qed.

Section SmoothHistory.

Variable pinv : matrix -> matrix.
Variable c0 : config.

Hypothesis store_on : store_transition_matrices_on c0 = true.

Lemma smooth_block_stores tv s st tv' st' :
  configured c0 st ->
  smooth_block pinv tv s st = (Ok tv', st') ->
  configured c0 st' /\ getitem (Fs st') (s / tau c0 + 1) = Ok (F st').
Proof.
  intros Hc Hrun.
  assert (Hc' : configured c0 st').
  { refine (preserves_ok (configured c0) _ _ _ _ _ _ Hrun); [|exact Hc].
    frame_known configured_known configured_leaf. }
  split; [exact Hc'|].
  unfold smooth_block in Hrun.
  apply bind_ok in Hrun as (F0 & s1 & E & Hrun). apply gets_ok in E as [-> ->].
  apply bind_ok in Hrun as ([] & s1 & E1 & Hrun).
  apply bind_ok in Hrun as ([] & s2 & E2 & Hrun).
  apply bind_ok in Hrun as (iters & s3 & E & Hrun). apply gets_ok in E as [-> ->].
  apply bind_ok in Hrun as (loc & s3 & E3 & Hrun).
  apply bind_ok in Hrun as ([] & s4 & E4 & Hrun).
  assert (Hc4 : configured c0 s4).
  { assert (Hc3 : configured c0 s3).
    { refine (preserves_ok (configured c0) _ _ _ _ _ _ E3).
      - frame_known configured_known configured_leaf.
      - refine (preserves_ok (configured c0) _ _ _ _ _ _ E2).
        + frame_known configured_known configured_leaf.
        + refine (preserves_ok (configured c0) _ _ _ _ _ _ E1); [|exact Hc].
          frame_known configured_known configured_leaf. }
    refine (preserves_ok (configured c0) _ _ _ _ _ _ E4); [|exact Hc3].
    frame_known configured_known configured_leaf. }
  apply bind_ok in Hrun as ([] & s5 & E5 & Hrun). apply ret_ok in Hrun as [-> _].
  unfold store_transition_matrix in E5.
  apply bind_ok in E5 as (on & s6 & E & E5). apply gets_ok in E as [-> ->].
  unfold configured in Hc4. rewrite Hc4, store_on in E5.
  apply bind_ok in E5 as (Fv & s6 & E & E5). apply gets_ok in E as [-> ->].
  apply bind_ok in E5 as (tau' & s6 & E & E5). apply gets_ok in E as [-> ->].
  rewrite Hc4 in E5.
  destruct (tau c0 =? 0); [discriminate E5|].
  apply write_ok in E5 as (l & W & ->). simpl.
  eapply getitem_setitem_same; eauto.
Qed.

Lemma smooth_forward_last_block o st' :
  cfg o = c0 -> mode c0 = Smooth -> 1 <= tau c0 ->
  forward pinv o = (Ok tt, st') ->
  getitem (Fs st') ((Z.of_nat (length (y c0)) - 1) / tau c0 + 1) = Ok (F st').
Proof.
  intros Hc Hmode Htau Hrun. unfold forward in Hrun.
  apply bind_ok in Hrun as ([] & s1 & E & Hrun).
  unfold modify in E. injection E as <-.
  assert (HB1 : computed c0 (length (y c0)) (allocate o)).
  { split; [exact Hc|split; [reflexivity|rewrite <- Hc; apply lens_allocate]]. }
  apply bind_ok in Hrun as (Tz & s1 & E & Hrun). apply gets_ok in E as [-> ->].
  apply bind_ok in Hrun as (m0 & s1 & E & Hrun). apply gets_ok in E as [-> ->].
  apply bind_ok in Hrun as ([] & s2 & E2 & Hrun).
  assert (HT : (1 <= length (y c0))%nat).
  { apply write_ok in E2 as (l & W & _).
    apply setitem_ok_inv in W as (k & Hk & _). apply norm_index_lt in Hk.
    destruct HB1 as (_ & _ & L1 & _). lia. }
  assert (HB2 : configured c0 s2).
  { refine (preserves_ok (configured c0) _ _ _ _ _ _ E2); [|exact Hc].
    frame_known configured_known configured_leaf. }
  apply bind_ok in Hrun as (V0 & s3 & E & Hrun). apply gets_ok in E as [-> ->].
  apply bind_ok in Hrun as ([] & s3 & E3 & Hrun).
  assert (HB3 : configured c0 s3).
  { refine (preserves_ok (configured c0) _ _ _ _ _ _ E3); [|exact HB2].
    frame_known configured_known configured_leaf. }
  apply bind_ok in Hrun as (md & s4 & E & Hrun). apply gets_ok in E as [-> ->].
  unfold configured in HB3. rewrite HB3, Hmode in Hrun.
  apply bind_ok in Hrun as (tau' & s4 & E & Hrun). apply gets_ok in E as [-> ->].
  rewrite HB3 in Hrun.
  apply bind_ok in Hrun as (blocks & s4 & E & Hrun).
  unfold lift in E. injection E as E <-.
  simpl in E. rewrite Hc in E. unfold range_step in E.
  replace (tau c0 =? 0) with false in E by lia.
  replace (tau c0 <? 0) with false in E by lia.
  injection E as <-.
  apply bind_ok in Hrun as (tv & s5 & E5 & Hrun). apply ret_ok in Hrun as [<- _].
  set (q := (Z.of_nat (length (y c0)) + tau c0 - 1) / tau c0) in *.
  assert (Hq : q = (Z.of_nat (length (y c0)) - 1) / tau c0 + 1).
  { unfold q. replace (Z.of_nat (length (y c0)) + tau c0 - 1)
      with (Z.of_nat (length (y c0)) - 1 + 1 * tau c0) by lia.
    rewrite Z.div_add by lia. reflexivity. }
  assert (Hq0 : 0 <= (Z.of_nat (length (y c0)) - 1) / tau c0)
    by (apply Z.div_pos; lia).
  replace (Z.to_nat q) with (S (Z.to_nat (q - 1))) in E5 by lia.
  rewrite seq_S, map_app in E5. simpl in E5.
  assert (Hne : map (fun k => Z.of_nat k * tau c0) (seq 0 (Z.to_nat (q - 1)))
                  ++ [Z.of_nat (Z.to_nat (q - 1)) * tau c0] <> []).
  { intros Hnil. apply (f_equal (@length Z)) in Hnil.
    rewrite length_app in Hnil. simpl in Hnil. lia. }
  pose proof (foldM_last_elem (configured c0)
                (fun s z => getitem (Fs z) (s / tau c0 + 1) = Ok (F z))
                (smooth_block pinv)
                (fun acc x s a s' Hs Hb => smooth_block_stores acc x s a s' Hs Hb)
                _ _ _ _ _ 0 Hne HB3 E5) as Hlast.
  rewrite last_last in Hlast.
  replace (Z.of_nat (Z.to_nat (q - 1)) * tau c0 / tau c0) with (q - 1) in Hlast
    by (rewrite Z.div_mul by lia; lia).
  rewrite <- Hq. replace (q - 1 + 1) with q in Hlast by lia. exact Hlast.
Qed.

End SmoothHistory.

(** X16.  In "smooth" mode with history retention and a block length
    tau >= 1, whenever [forward] returns, the history entry at index
    floor((T-1)/tau) + 1 -- the last entry of the buffer that [__init__]
    allocates -- is the final transition matrix (in "filter" mode that
    entry is never written). *)
Theorem smooth_history_ends_with_final_F (pinv : matrix -> matrix) (o st' : emkf) :
  mode (cfg o) = Smooth ->
  store_transition_matrices_on (cfg o) = true ->
  1 <= tau (cfg o) ->
  forward pinv o = (Ok tt, st') ->
  getitem (Fs st') ((Z.of_nat (length (y (cfg o))) - 1) / tau (cfg o) + 1)
    = Ok (F st').
Proof.
  intros Hmode Hstore Htau Hrun.
  exact (smooth_forward_last_block pinv (cfg o) Hstore o st' eq_refl Hmode Htau Hrun).
Qed.

(** ** More on the damped, clipped update *)

Lemma clip_cases thr x :
  (0 <= thr)%Q ->
  ((- thr <= x <= thr)%Q /\ (clip thr x == x)%Q) \/
  ((thr < x)%Q /\ (clip thr x == thr)%Q) \/
  ((x < - thr)%Q /\ (clip thr x == - thr)%Q).
Proof.
  intros Ht.
  assert (Hclip : (- thr <= clip thr x /\ clip thr x <= thr)%Q)
    by now apply clip_bound.
  unfold clip in *.
  destruct (Q.max_spec (- thr) x) as [[H1 H2]|[H1 H2]];
    destruct (Q.min_spec (Qmax (- thr) x) thr) as [[H3 H4]|[H3 H4]];
    rewrite H4 in *; rewrite ?H2 in *;
    destruct (Qlt_le_dec thr x) as [G1|G1];
    destruct (Qlt_le_dec x (- thr)) as [G2|G2];
    try (exfalso; lra);
    first [ left; split; [split; lra | lra]
          | right; left; split; [lra | lra]
          | right; right; split; [lra | lra] ].
Qed.

Lemma damped_clip_entry_between rate thr o c :
  (0 <= rate <= 1)%Q -> (0 <= thr)%Q ->
  (Qmin o c <= damped_clip_entry rate thr o c <= Qmax o c)%Q.
Proof.
  intros Hr Ht. unfold damped_clip_entry.
  destruct (clip_cases thr (o - c)%Q Ht) as [[H1 H2]|[[H1 H2]|[H1 H2]]];
    destruct (Q.min_spec o c) as [[M1 M2]|[M1 M2]];
    destruct (Q.max_spec o c) as [[N1 N2]|[N1 N2]];
    rewrite H2, M2, N2; split; nra.
Qed.

Lemma damped_clip_entry_inside rate thr o c :
  (0 <= thr)%Q -> (Qabs (o - c) <= thr)%Q ->
  (damped_clip_entry rate thr o c == o - rate * (o - c))%Q.
Proof.
  intros Ht Habs. unfold damped_clip_entry.
  apply Qabs_Qle_condition in Habs.
  destruct (clip_cases thr (o - c)%Q Ht) as [[H1 H2]|[[H1 H2]|[H1 H2]]];
    rewrite H2; try reflexivity; lra.
Qed.

Lemma damped_clip_entry_at rate thr old cand i j o c n :
  entry old i j = Some o -> entry cand i j = Some c ->
  entry (damped_clip rate thr old cand) i j = Some n ->
  n = damped_clip_entry rate thr o c.
Proof.
  unfold entry, damped_clip, damped_clip_vec. intros Ho Hc Hn.
  destruct (nth_error old i) as [u|] eqn:Hu; [|discriminate].
  destruct (nth_error cand i) as [v|] eqn:Hv; [|discriminate].
  destruct (nth_error (zipWith _ old cand) i) as [w|] eqn:Hw; [|discriminate].
  apply zipWith_nth_error in Hw as (u' & v' & Hu' & Hv' & ->).
  rewrite Hu in Hu'. rewrite Hv in Hv'. injection Hu' as <-. injection Hv' as <-.
  apply zipWith_nth_error in Hn as (o' & c' & Ho' & Hc' & ->).
  congruence.
Qed.

(** X17.  In exact arithmetic, with a rate in [0,1] and a non-negative
    threshold the damped, clipped update never overshoots: every new entry lies between the old
    entry and the candidate.  When the candidate is within the threshold of
    the old entry the step is the plain damped one, old - rate (old - cand),
    so a rate of 1 lands on the candidate and an equal candidate leaves the
    entry where it is. *)
Theorem damped_clip_never_overshoots (rate thr : Q) (old cand : matrix) :
  (0 <= rate <= 1)%Q -> (0 <= thr)%Q ->
  forall i j o c n,
    entry old i j = Some o -> entry cand i j = Some c ->
    entry (damped_clip rate thr old cand) i j = Some n ->
    (Qmin o c <= n <= Qmax o c)%Q /\
    ((Qabs (o - c) <= thr)%Q -> (n == o - rate * (o - c))%Q) /\
    ((Qabs (o - c) <= thr)%Q -> (rate == 1)%Q -> (n == c)%Q) /\
    ((c == o)%Q -> (n == o)%Q).
Proof.
  intros Hr Ht i j o c n Ho Hc Hn.
  rewrite (damped_clip_entry_at rate thr old cand i j o c n Ho Hc Hn).
  split; [now apply damped_clip_entry_between|]. split; [|split].
  - now apply damped_clip_entry_inside.
  - intros Habs H1. rewrite damped_clip_entry_inside by assumption.
    rewrite H1. ring.
  - intros Heq. rewrite damped_clip_entry_inside; [rewrite Heq; ring|exact Ht|].
    apply Qabs_Qle_condition. split; lra.
Qed.

(** ** A block without interior time *)

Lemma dot_zeros n v : (dot (zeros1 n) v == 0)%Q.
Proof.
  revert v. induction n as [|n IH]; intros [|a v]; try reflexivity.
  change (dot (zeros1 (S n)) (a :: v)) with (0 * a + dot (zeros1 n) v)%Q.
  rewrite IH. ring.
Qed.

Lemma matmul_zeros r c P :
  all_zero (matmul (zeros2 r c) P) /\ length (matmul (zeros2 r c) P) = r.
Proof.
  unfold matmul, zeros2. rewrite length_map, repeat_length. split; [|reflexivity].
  unfold all_zero. apply Forall_forall. intros row Hrow.
  apply in_map_iff in Hrow as (z & <- & Hz). apply repeat_spec in Hz. subst z.
  apply Forall_forall. intros q Hq.
  apply in_map_iff in Hq as (col & <- & _). apply dot_zeros.
Qed.

Section EmptyWindow.

Variable pinv : matrix -> matrix.
Variable c0 : config.
Variable T : nat.

Hypothesis T_obs : length (y c0) = T.
Hypothesis tau_pos : 1 <= tau c0.
Hypothesis F_learnt : in_vars "F" (em_vars c0) = true.

(** The M-step over a block of no time step. *)
Lemma update_transition_matrix_empty_window s Fe st Fr st' :
  configured c0 st ->
  _update_transition_matrix pinv s 0 (Some Fe) st = (Ok Fr, st') ->
  all_zero Fr /\ length Fr = n_dim_sys c0.
Proof.
  intros Hc Hrun. unfold _update_transition_matrix in Hrun.
  apply bind_ok in Hrun as ([] & s1 & E1 & Hrun).
  pose proof (preserves_ok _ _ _ _ _
                (backward_keeps_configured pinv c0 s 0 (Some Fe)) Hc E1) as Hc1.
  apply bind_ok in Hrun as (ev & s2 & E & Hrun). apply gets_ok in E as [-> ->].
  unfold configured in Hc1. rewrite Hc1, F_learnt in Hrun.
  apply bind_ok in Hrun as (Fo & s2 & E2 & Hrun).
  apply bind_ok in E2 as (res & s3 & E3 & E2). apply ret_ok in E2 as [-> ->].
  unfold mstep_sums in E3.
  apply bind_ok in E3 as (n & s4 & E & E3). apply gets_ok in E as [-> ->].
  replace (range (s - 0 + 1) (s + 1)) with (@nil Z) in E3
    by (unfold range; replace (Z.to_nat (s + 1 - (s - 0 + 1))) with 0%nat by lia;
        reflexivity).
  simpl in E3. apply ret_ok in E3 as [-> ->]. rewrite Hc1 in Hrun.
  apply bind_ok in Hrun as ([] & s5 & _ & Hrun).
  apply unwrap_ok in Hrun as [_ Hrun]. injection Hrun as <-. simpl.
  apply matmul_zeros.
Qed.

Lemma smooth_iteration_empty_window loc n st loc' st' :
  base c0 T st -> snd loc = Some (Z.of_nat T - 1) -> (1 <= T)%nat ->
  smooth_iteration pinv (Z.of_nat T - 1) loc n st = (Ok loc', st') ->
  snd loc' = Some (Z.of_nat T - 1) /\ all_zero (fst loc').
Proof.
  intros HB Hloc HT Hrun. unfold smooth_iteration in Hrun.
  apply bind_ok in Hrun as (Tz & s1 & E & Hrun). apply gets_ok in E as [-> ->].
  apply bind_ok in Hrun as (tau' & s1 & E & Hrun). apply gets_ok in E as [-> ->].
  destruct HB as [Hc HL]. rewrite Hc, T_obs in Hrun.
  apply bind_ok in Hrun as ([] & s1 & E1 & Hrun).
  assert (Hc1 : configured c0 s1).
  { refine (preserves_ok (configured c0) _ _ _ _ _ _ E1); [|exact Hc].
    frame_known configured_known configured_leaf. }
  apply bind_ok in Hrun as (tv & s2 & E2 & Hrun).
  assert (Hc2 : configured c0 s2).
  { refine (preserves_ok (configured c0) _ _ _ _ _ _ E2); [|exact Hc1].
    frame_known configured_known configured_leaf. }
  apply loop_variable in E2.
  2:{ intros acc x z a z' Hb. apply bind_ok in Hb as ([] & z1 & _ & Hb).
      apply bind_ok in Hb as ([] & z2 & _ & Hb). now apply ret_ok in Hb as [_ ->]. }
  rewrite last_range, Hloc in E2.
  replace (Z.of_nat T - 1 + 1 <? Z.min (Z.of_nat T - 1 + tau c0 + 1) (Z.of_nat T))
    with false in E2 by lia.
  apply bind_ok in Hrun as (t & s3 & E3 & Hrun). apply unwrap_ok in E3 as [-> E3].
  apply bind_ok in Hrun as (Fr & s4 & E4 & Hrun). apply ret_ok in Hrun as [-> ->].
  simpl. split; [exact E2|].
  rewrite range_length in E4.
  replace (Z.max 0 (Z.min (Z.of_nat T - 1 + tau c0 + 1) (Z.of_nat T)
                    - (Z.of_nat T - 1)) - 1) with 0 in E4 by lia.
  exact (proj1 (update_transition_matrix_empty_window _ _ _ _ _ Hc2 E4)).
Qed.

Lemma smooth_block_empty_window st tv' st' :
  base c0 T st -> (1 <= T)%nat -> 1 <= iteration c0 ->
  smooth_block pinv (Some (Z.of_nat T - 1)) (Z.of_nat T - 1) st = (Ok tv', st') ->
  exists Zc, all_zero Zc /\
             F st' = damped_clip (eta c0) (cutoff c0) (F st) Zc.
Proof.
  intros HB HT Hit Hrun. unfold smooth_block in Hrun.
  apply bind_ok in Hrun as (F0 & s1 & E & Hrun). apply gets_ok in E as [-> ->].
  assert (HK : F_kept st st) by (split; reflexivity).
  apply bind_ok in Hrun as ([] & s1 & E1 & Hrun).
  assert (HB1 : base c0 T s1 /\ F_kept st s1).
  { split.
    - refine (preserves_ok (base c0 T) _ _ _ _ _ _ E1); [|exact HB].
      frame_known base_known base_leaf.
    - refine (preserves_ok (F_kept st) _ _ _ _ _ _ E1); [|exact HK].
      frame_with keep_leaf. }
  destruct HB1 as [HB1 HK1].
  apply bind_ok in Hrun as ([] & s2 & E2 & Hrun).
  assert (HB2 : base c0 T s2 /\ F_kept st s2).
  { split.
    - exact (preserves_ok _ _ _ _ _ (filter_update_keeps_base pinv c0 T _) HB1 E2).
    - exact (preserves_ok _ _ _ _ _ (filter_update_keeps_F pinv st _) HK1 E2). }
  destruct HB2 as [HB2 HK2].
  apply bind_ok in Hrun as (iters & s3 & E & Hrun). apply gets_ok in E as [-> ->].
  rewrite (proj1 HB2) in Hrun.
  apply bind_ok in Hrun as (loc & s3 & E3 & Hrun).
  assert (HQ : (base c0 T s3 /\ F_kept st s3 /\ snd loc = Some (Z.of_nat T - 1))
               /\ all_zero (fst loc)).
  { refine (foldM_last_round
              (fun l z => base c0 T z /\ F_kept st z /\ snd l = Some (Z.of_nat T - 1))
              (fun l z => (base c0 T z /\ F_kept st z /\ snd l = Some (Z.of_nat T - 1))
                          /\ all_zero (fst l))
              (smooth_iteration pinv (Z.of_nat T - 1)) _ _ _ _ _ _ _ _ _ E3).
    - intros acc x z a z' (Hz & HKz & He) Hb.
      destruct (smooth_iteration_empty_window acc x z a z' Hz He HT Hb) as [Ha Hzero].
      assert (Hz' : base c0 T z').
      { refine (preserves_ok (base c0 T) _ _ _ _ _ _ Hb); [|exact Hz].
        frame_known base_known base_leaf. }
      assert (HK' : F_kept st z')
        by exact (preserves_ok _ _ _ _ _
                    (smooth_iteration_keeps_F pinv st _ _ _) HKz Hb).
      split; [split; [exact Hz'|split; [exact HK'|exact Ha]]|exact Hzero].
    - intros a z [H _]. exact H.
    - destruct (range_first 0 (iteration c0)) as (l & ->); [lia|]. congruence.
    - auto. }
  destruct HQ as [(HB3 & HK3 & _) Hzero].
  apply bind_ok in Hrun as ([] & s4 & E4 & Hrun).
  unfold damped_update_F, modify in E4. injection E4 as <-.
  apply bind_ok in Hrun as ([] & s5 & E5 & Hrun). apply ret_ok in Hrun as [-> _].
  exists (fst loc). split; [exact Hzero|].
  assert (HF : F_kept (set_F (damped_clip (eta (cfg s3)) (cutoff (cfg s3)) (F s3)
                                (fst loc)) s3) s5).
  { refine (preserves_ok (F_kept _) _ _ _ _ _ _ E5); [|split; reflexivity].
    frame_with keep_leaf. }
  destruct HF as [_ HF]. simpl in HF. rewrite HF.
  destruct HK3 as [Hc3 HF3]. destruct HB as [Hc _]. rewrite Hc3, HF3, Hc.
  reflexivity.
Qed.

End EmptyWindow.

(** X18.  In "smooth" mode, a block that starts at the last observation
    (the last block whenever T - 1 is a multiple of tau) has no time step to
    regress on: with "F" in the EM-update set, its sums are empty and its
    candidate [F_est] is a zero matrix, so the block's update is a damped,
    clipped step of [F] towards zero. *)
Theorem smooth_block_without_interior_steps_to_zero (pinv : matrix -> matrix)
    (st : emkf) (tv' : option Z) (st' : emkf) :
  let T := length (y (cfg st)) in
  lens T st -> (1 <= T)%nat ->
  1 <= tau (cfg st) -> 1 <= iteration (cfg st) ->
  in_vars "F" (em_vars (cfg st)) = true ->
  smooth_block pinv (Some (Z.of_nat T - 1)) (Z.of_nat T - 1) st = (Ok tv', st') ->
  exists Zc, all_zero Zc /\
             F st' = damped_clip (eta (cfg st)) (cutoff (cfg st)) (F st) Zc.
Proof.
  intros T HL HT Htau Hit HF Hrun.
  exact (smooth_block_empty_window pinv (cfg st) T eq_refl Htau HF st tv' st'
           (conj eq_refl HL) HT Hit Hrun).
Qed.

(** ** The variants that record pairwise covariances *)

Ltac split_runs :=
  repeat match goal with
         | |- context [match ?x with _ => _ end] =>
             lazymatch x with
             | context [match _ with _ => _ end] => fail
             | _ => destruct x eqn:?
             end
         end.

(** X19.  [_predict_update_pair] and [_filter_update_pair] do what
    [_predict_update] and [_filter_update] do and touch nothing else but
    [V_pair]: from the same state they end in states that differ at most in
    [V_pair], and they raise whenever the plain methods raise, with the same
    exception. *)
Theorem pair_variants_agree (pinv : matrix -> matrix) (t : Z) (Fo : option matrix)
    (st : emkf) :
  same_but_V_pair (snd (_predict_update_pair t Fo st)) (snd (_predict_update t Fo st)) /\
  (forall e, fst (_predict_update t Fo st) = Err e ->
             fst (_predict_update_pair t Fo st) = Err e) /\
  same_but_V_pair (snd (_filter_update_pair pinv t st)) (snd (_filter_update pinv t st)) /\
  (forall e, fst (_filter_update pinv t st) = Err e ->
             fst (_filter_update_pair pinv t st) = Err e).
Proof.
  unfold same_but_V_pair.
  split; [|split; [|split]].
  - unfold _predict_update_pair, _predict_update, bind, param, read, write, gets, ret.
    destruct Fo; simpl; split_runs; simpl; reflexivity.
  - intros e. unfold _predict_update_pair, _predict_update, bind, param, read, write,
      gets, ret.
    destruct Fo; simpl; split_runs; simpl; intros; congruence.
  - unfold _filter_update_pair, _filter_update, bind, param, read, write.
    simpl; split_runs; simpl; reflexivity.
  - intros e. unfold _filter_update_pair, _filter_update, bind, param, read, write.
    simpl; split_runs; simpl; intros; congruence.
Qed.

(** ** The further properties at work on the scalar examples *)

Section MoreInstances.

Local Open Scope Q_scope.

Lemma accessor_coordinate_cases_witness :
  let o := scalar_object "smooth" ["F"%string] 2 1 1 in
  let st := snd (forward pinv_scalar o) in
  computed (cfg o) 2 st /\ (1 <= 2)%nat /\
  In (get_filtered_value pinv_scalar, x_filt) (accessors pinv_scalar) /\
  get_filtered_value pinv_scalar (Some (-1)%Z) st
    = (Ok (Coordinate (column (Z.to_nat (-1 + Z.of_nat (n_dim_sys (cfg o))))
                              (x_filt st))), st) /\
  get_filtered_value pinv_scalar (Some 1%Z) st = (Err IndexError, st).
Proof.
  intros o st.
  assert (H1 : computed (cfg o) 2 st) by (vm_compute; repeat split).
  assert (H2 : (1 <= 2)%nat) by lia.
  assert (H3 : In (get_filtered_value pinv_scalar, x_filt) (accessors pinv_scalar))
    by (right; left; reflexivity).
  split; [exact H1|]. split; [exact H2|]. split; [exact H3|].
  destruct (accessor_coordinate_cases pinv_scalar (cfg o) 2 st H1 H2 _ _ H3)
    as (_ & _ & Hwrap & Hidx & _).
  split; [apply Hwrap; simpl; lia|apply Hidx; left; reflexivity].
Defined.

Lemma transition_history_selection_witness :
  let st := snd (forward pinv_scalar (scalar_object "filter" ["F"%string] 3 1 1)) in
  store_transition_matrices_on (cfg st) = true /\
  (forall i, In i [0; 2; -1]%Z -> exists m, getitem (Fs st) i = Ok m) /\
  (exists l, get_transition_matrices (Some [0; 2; -1]%Z) st = (Ok (Matrices l), st) /\
             Forall2 (fun i m => getitem (Fs st) i = Ok m) [0; 2; -1]%Z l) /\
  get_transition_matrices (Some [0; 4]%Z) st = (Err IndexError, st).
Proof.
  intros st.
  assert (H1 : store_transition_matrices_on (cfg st) = true) by reflexivity.
  assert (H2 : forall i, In i [0; 2; -1]%Z -> exists m, getitem (Fs st) i = Ok m).
  { intros i [<-|[<-|[<-|[]]]]; vm_compute; eexists; reflexivity. }
  split; [exact H1|]. split; [exact H2|].
  destruct (transition_history_selection st [0; 2; -1]%Z) as [Hon _].
  destruct (Hon H1) as (_ & Hsel & _).
  split; [exact (Hsel H2)|].
  destruct (transition_history_selection st [0; 4]%Z) as [Hon' _].
  destruct (Hon' H1) as (_ & _ & Hbad).
  apply Hbad. exists 4%Z. split; [right; left; reflexivity|reflexivity].
Defined.

Lemma accessors_after_forward_witness :
  let o := scalar_object "smooth" [] 3 1 1 in
  let st := snd (forward pinv_scalar o) in
  (1 <= length (y (cfg o)))%nat /\
  fst (forward pinv_scalar o) = Err UnboundLocalError /\
  get_smoothed_value None st = (Ok (Trajectory (x_smooth st)), st).
Proof.
  intros o st.
  assert (H1 : (1 <= length (y (cfg o)))%nat) by (simpl; lia).
  split; [exact H1|]. split; [vm_compute; reflexivity|].
  apply (accessors_after_forward pinv_scalar o H1 get_smoothed_value x_smooth).
  right; right; left; reflexivity.
Defined.

Lemma forward_on_no_observation_witness :
  let o := scalar_object "filter" ["F"%string] 0 1 1 in
  length (y (cfg o)) = 0%nat /\ fst (forward pinv_scalar o) = Err IndexError.
Proof.
  intros o.
  assert (H1 : length (y (cfg o)) = 0%nat) by reflexivity.
  split; [exact H1|]. exact (forward_on_no_observation pinv_scalar o H1).
Defined.

Lemma smooth_forward_needs_F_in_em_vars_witness :
  let o := scalar_object "smooth" ["b"%string] 3 1 1 in
  mode (cfg o) = Smooth /\ (1 <= tau (cfg o))%Z /\ (1 <= iteration (cfg o))%Z /\
  in_vars "F" (em_vars (cfg o)) = false /\
  exists e, fst (forward pinv_scalar o) = Err e.
Proof.
  intros o.
  assert (H1 : mode (cfg o) = Smooth) by reflexivity.
  assert (H2 : (1 <= tau (cfg o))%Z) by (simpl; lia).
  assert (H3 : (1 <= iteration (cfg o))%Z) by (simpl; lia).
  assert (H4 : in_vars "F" (em_vars (cfg o)) = false) by reflexivity.
  split; [exact H1|]. split; [exact H2|]. split; [exact H3|]. split; [exact H4|].
  exact (smooth_forward_needs_F_in_em_vars pinv_scalar o H1 H2 H3 H4).
Defined.

Lemma smooth_forward_on_single_observation_witness :
  let o := scalar_object "smooth" ["F"%string] 1 1 1 in
  mode (cfg o) = Smooth /\ (1 <= tau (cfg o))%Z /\ (1 <= iteration (cfg o))%Z /\
  length (y (cfg o)) = 1%nat /\
  exists e, fst (forward pinv_scalar o) = Err e.
Proof.
  intros o.
  assert (H1 : mode (cfg o) = Smooth) by reflexivity.
  assert (H2 : (1 <= tau (cfg o))%Z) by (simpl; lia).
  assert (H3 : (1 <= iteration (cfg o))%Z) by (simpl; lia).
  assert (H4 : length (y (cfg o)) = 1%nat) by reflexivity.
  split; [exact H1|]. split; [exact H2|]. split; [exact H3|]. split; [exact H4|].
  exact (smooth_forward_on_single_observation pinv_scalar o H1 H2 H3 H4).
Defined.

Lemma smooth_forward_keeps_F_outside_em_vars_witness :
  let o := scalar_object "smooth" ["b"%string] 3 1 1 in
  mode (cfg o) = Smooth /\ (1 <= iteration (cfg o))%Z /\
  in_vars "F" (em_vars (cfg o)) = false /\
  F (snd (forward pinv_scalar o)) = F o /\ Fs (snd (forward pinv_scalar o)) = Fs o.
Proof.
  intros o.
  assert (H1 : mode (cfg o) = Smooth) by reflexivity.
  assert (H3 : (1 <= iteration (cfg o))%Z) by (simpl; lia).
  assert (H4 : in_vars "F" (em_vars (cfg o)) = false) by reflexivity.
  split; [exact H1|]. split; [exact H3|]. split; [exact H4|].
  exact (smooth_forward_keeps_F_outside_em_vars pinv_scalar o H1 H3 H4).
Defined.

Lemma filter_forward_short_sequence_keeps_F_witness :
  let o := scalar_object "filter" ["F"%string] 3 2 1 in
  mode (cfg o) = Filter /\ (1 <= tau (cfg o))%Z /\
  (Z.of_nat (length (y (cfg o))) <= tau (cfg o) + 1)%Z /\
  F (snd (forward pinv_scalar o)) = F o /\ Fs (snd (forward pinv_scalar o)) = Fs o.
Proof.
  intros o.
  assert (H1 : mode (cfg o) = Filter) by reflexivity.
  assert (H2 : (1 <= tau (cfg o))%Z) by (simpl; lia).
  assert (H3 : (Z.of_nat (length (y (cfg o))) <= tau (cfg o) + 1)%Z) by (simpl; lia).
  split; [exact H1|]. split; [exact H2|]. split; [exact H3|].
  exact (filter_forward_short_sequence_keeps_F pinv_scalar o H1 H2 H3).
Defined.

Lemma offset_written_only_in_long_smooth_blocks_witness :
  let o := scalar_object "smooth" ["F"%string; "b"%string] 2 1 1 in
  (mode (cfg o) = Filter \/ in_vars "b" (em_vars (cfg o)) = false
     \/ (tau (cfg o) <= 1)%Z) /\
  in_vars "b" (em_vars (cfg o)) = true /\
  b (snd (forward pinv_scalar o)) = b o.
Proof.
  intros o.
  assert (H1 : mode (cfg o) = Filter \/ in_vars "b" (em_vars (cfg o)) = false
               \/ (tau (cfg o) <= 1)%Z) by (right; right; simpl; lia).
  split; [exact H1|]. split; [reflexivity|].
  exact (offset_written_only_in_long_smooth_blocks pinv_scalar o H1).
Defined.

Lemma filter_forward_leaves_V_pair_zero_witness :
  let o := scalar_object "filter" ["F"%string] 3 1 1 in
  mode (cfg o) = Filter /\
  V_pair (snd (forward pinv_scalar o))
    = zeros3 (length (y (cfg o))) (n_dim_sys (cfg o)) (n_dim_sys (cfg o)).
Proof.
  intros o.
  assert (H1 : mode (cfg o) = Filter) by reflexivity.
  split; [exact H1|]. exact (filter_forward_leaves_V_pair_zero pinv_scalar o H1).
Defined.

Lemma smooth_history_ends_with_final_F_witness :
  let o := scalar_object "smooth" ["F"%string] 2 1 1 in
  let st' := snd (forward pinv_scalar o) in
  mode (cfg o) = Smooth /\
  store_transition_matrices_on (cfg o) = true /\
  (1 <= tau (cfg o))%Z /\
  forward pinv_scalar o = (Ok tt, st') /\
  getitem (Fs st') ((Z.of_nat (length (y (cfg o))) - 1) / tau (cfg o) + 1)
    = Ok (F st').
Proof.
  intros o st'.
  assert (H1 : mode (cfg o) = Smooth) by reflexivity.
  assert (H2 : store_transition_matrices_on (cfg o) = true) by reflexivity.
  assert (H3 : (1 <= tau (cfg o))%Z) by (simpl; lia).
  assert (H4 : forward pinv_scalar o = (Ok tt, st')) by (vm_compute; reflexivity).
  split; [exact H1|]. split; [exact H2|]. split; [exact H3|]. split; [exact H4|].
  exact (smooth_history_ends_with_final_F pinv_scalar o st' H1 H2 H3 H4).
Defined.

Lemma damped_clip_never_overshoots_witness :
  (0 <= 1 # 10 <= 1) /\ (0 <= 1 # 10) /\
  entry [[1]] 0 0 = Some 1 /\ entry [[5]] 0 0 = Some 5 /\
  entry (damped_clip (1 # 10) (1 # 10) [[1]] [[5]]) 0 0
    = Some (damped_clip_entry (1 # 10) (1 # 10) 1 5) /\
  (Qmin 1 5 <= damped_clip_entry (1 # 10) (1 # 10) 1 5 <= Qmax 1 5).
Proof.
  assert (H1 : 0 <= 1 # 10 <= 1) by (split; discriminate).
  assert (H2 : 0 <= 1 # 10) by discriminate.
  assert (H3 : entry [[1]] 0 0 = Some 1) by reflexivity.
  assert (H4 : entry [[5]] 0 0 = Some 5) by reflexivity.
  assert (H5 : entry (damped_clip (1 # 10) (1 # 10) [[1]] [[5]]) 0 0
               = Some (damped_clip_entry (1 # 10) (1 # 10) 1 5)) by reflexivity.
  split; [exact H1|]. split; [exact H2|]. split; [exact H3|]. split; [exact H4|].
  split; [exact H5|].
  exact (proj1 (damped_clip_never_overshoots (1 # 10) (1 # 10) [[1]] [[5]] H1 H2
                  0%nat 0%nat 1 5 _ H3 H4 H5)).
Defined.

Lemma smooth_block_without_interior_steps_to_zero_witness :
  let o := scalar_object "smooth" ["F"%string] 2 1 1 in
  let st0 := snd ((modify allocate ;;;
                   write x_pred set_x_pred 0 (initial_mean (cfg o)) ;;;
                   write V_pred set_V_pred 0 (initial_covariance (cfg o))) o) in
  let st := snd (smooth_block pinv_scalar None 0 st0) in
  let r := smooth_block pinv_scalar (Some (Z.of_nat (length (y (cfg st))) - 1)%Z)
             (Z.of_nat (length (y (cfg st))) - 1)%Z st in
  lens (length (y (cfg st))) st /\ (1 <= length (y (cfg st)))%nat /\
  (1 <= tau (cfg st))%Z /\ (1 <= iteration (cfg st))%Z /\
  in_vars "F" (em_vars (cfg st)) = true /\
  r = (Ok (Some 1%Z), snd r) /\
  exists Zc, all_zero Zc /\
             F (snd r) = damped_clip (eta (cfg st)) (cutoff (cfg st)) (F st) Zc.
Proof.
  intros o st0 st r.
  assert (H1 : lens (length (y (cfg st))) st) by (vm_compute; repeat split).
  assert (H2 : (1 <= length (y (cfg st)))%nat) by (vm_compute; lia).
  assert (H3 : (1 <= tau (cfg st))%Z) by (vm_compute; discriminate).
  assert (H4 : (1 <= iteration (cfg st))%Z) by (vm_compute; discriminate).
  assert (H5 : in_vars "F" (em_vars (cfg st)) = true) by (vm_compute; reflexivity).
  assert (H6 : r = (Ok (Some 1%Z), snd r)) by (vm_compute; reflexivity).
  split; [exact H1|]. split; [exact H2|]. split; [exact H3|]. split; [exact H4|].
  split; [exact H5|]. split; [exact H6|].
  exact (smooth_block_without_interior_steps_to_zero pinv_scalar st (Some 1%Z) (snd r)
           H1 H2 H3 H4 H5 H6).
Defined.

End MoreInstances.

(** ** Runs that return *)

Section StepRules.

Context {A B : Type}.
Variable I : emkf -> Prop.

Lemma succeeds_bind (P : emkf -> Prop) (R : A -> emkf -> Prop)
    (Q : B -> emkf -> Prop) (m : M A) (f : A -> M B) :
  succeeds P m R -> (forall a, succeeds (R a) (f a) Q) -> succeeds P (bind m f) Q.
Proof.
  intros Hm Hf s Hs. destruct (Hm s Hs) as (a & s1 & E1 & HR).
  destruct (Hf a s1 HR) as (b1 & s2 & E2 & HQ).
  exists b1, s2. split; auto. unfold bind. now rewrite E1.
Qed.

Lemma steps_ret (a : A) : steps I (ret a).
Proof. intros s Hs. exists a, s. auto. Qed.

Lemma steps_gets (f : emkf -> A) : steps I (gets f).
Proof. intros s Hs. exists (f s), s. auto. Qed.

Lemma steps_bind (m : M A) (f : A -> M B) :
  steps I m -> (forall a, steps I (f a)) -> steps I (bind m f).
Proof. intros Hm Hf. eapply succeeds_bind; eauto. Qed.

Lemma steps_bind_gets (g : emkf -> A) (f : A -> M B) v :
  (forall s, I s -> g s = v) -> steps I (f v) -> steps I (bind (gets g) f).
Proof.
  intros Hg Hf s Hs. destruct (Hf s Hs) as (b1 & s2 & E2 & HQ).
  exists b1, s2. split; auto. unfold bind, gets. now rewrite (Hg s Hs).
Qed.

Lemma steps_modify (f : emkf -> emkf) :
  (forall s, I s -> I (f s)) -> steps I (modify f).
Proof. intros Hf s Hs. exists tt, (f s). auto. Qed.

Lemma steps_read (attr : emkf -> list A) i :
  (forall s, I s -> exists a, getitem (attr s) i = Ok a) -> steps I (read attr i).
Proof.
  intros Hr s Hs. destruct (Hr s Hs) as (a & Ha). exists a, s.
  split; auto. unfold read. now rewrite Ha.
Qed.

Lemma steps_param (p : emkf -> tparam A) t :
  (forall s, I s -> exists a, p s = Const a) -> steps I (param p t).
Proof.
  intros Hp s Hs. destruct (Hp s Hs) as (a & Ha). exists a, s.
  split; auto. unfold param. now rewrite Ha.
Qed.

Lemma steps_write (attr : emkf -> list A) set i v :
  (forall s, I s -> exists l, setitem (attr s) i v = Ok l /\ I (set l s)) ->
  steps I (write attr set i v).
Proof.
  intros Hw s Hs. destruct (Hw s Hs) as (l & Hl & HI). exists tt, (set l s).
  split; auto. unfold write. now rewrite Hl.
Qed.

Lemma steps_for (l : list A) (body : A -> M unit) :
  (forall x, In x l -> steps I (body x)) -> steps I (for_ l body).
Proof.
  induction l as [|x l IH]; intros Hb; simpl.
  - intros s Hs. exists tt, s. auto.
  - intros s Hs. destruct (Hb x (or_introl eq_refl) s Hs) as ([] & s1 & E1 & H1).
    destruct (IH (fun x' Hx' => Hb x' (or_intror Hx')) s1 H1) as (u & s2 & E2 & H2).
    exists u, s2. split; auto. unfold bind. now rewrite E1.
Qed.

Lemma steps_foldM (l : list A) (b0 : B) (body : B -> A -> M B) :
  (forall acc x, In x l -> steps I (body acc x)) -> steps I (foldM l b0 body).
Proof.
  revert b0. induction l as [|x l IH]; intros b0 Hb; simpl.
  - intros s Hs. exists b0, s. auto.
  - intros s Hs. destruct (Hb b0 x (or_introl eq_refl) s Hs) as (b1 & s1 & E1 & H1).
    destruct (IH b1 (fun acc x' Hx' => Hb acc x' (or_intror Hx')) s1 H1)
      as (u & s2 & E2 & H2).
    exists u, s2. split; auto. unfold bind. now rewrite E1.
Qed.

End StepRules.

Lemma getitem_in_range {A} (l : list A) i :
  0 <= i < Z.of_nat (length l) -> exists a, getitem l i = Ok a.
Proof.
  intros Hi. destruct (getitem_nonneg l i Hi) as (a & Ha & _). eauto.
Qed.

(** Bounds of the loop variables and conditions in the context. *)
Ltac loop_bounds :=
  repeat match goal with
         | H : In _ (range _ _) |- _ => apply in_range in H
         end.

(** Structural proof of [steps]: [known] gives what is read from the
    configuration, [leaf] settles the reads, writes and modifications. *)
Ltac run_known known leaf :=
  repeat first
    [ apply steps_ret | apply steps_gets
    | eapply steps_bind_gets; [solve [known]|]
    | apply steps_bind; [|intro]
    | apply steps_for; intros ? ?
    | apply steps_foldM; intros ? ? ?
    | apply steps_read; solve [leaf]
    | apply steps_param; solve [leaf]
    | apply steps_write; solve [leaf]
    | apply steps_modify; solve [leaf]
    | match goal with
      | |- steps _ (if ?c then _ else _) =>
          lazymatch type of c with bool => destruct c eqn:? end
      | |- steps _ (match ?o with Some _ => _ | None => _ end) =>
          lazymatch type of o with option _ => destruct o end
      | |- steps _ (raise _) => exfalso; lia
      end
    | progress cbv zeta
    | unfold_methods ].

Section Returning.

Variable pinv : matrix -> matrix.
Variable c0 : config.
Variable T : nat.

Hypothesis T_obs : length (y c0) = T.
Hypothesis tau_pos : 1 <= tau c0.
Hypothesis constants : constant_parameters c0.

Ltac sound_known :=
  let s := fresh "s" in let Hc := fresh "Hc" in
  intros s (Hc & _); rewrite Hc; reflexivity.

Ltac sound_bounds HF :=
  loop_bounds;
  try match goal with
      | E : store_transition_matrices_on c0 = true |- _ => specialize (HF E)
      end;
  try match goal with
      | |- context [?t / tau c0 + 1] =>
          pose proof (lookahead_index_below_last t (tau c0) (Z.of_nat T))
      end;
  lia.

Ltac sound_leaf :=
  let s := fresh "s" in
  let Hc := fresh "Hc" in let Hb := fresh "Hb" in let HF := fresh "HF" in
  let L1 := fresh "L" in let L2 := fresh "L" in let L3 := fresh "L" in
  let L4 := fresh "L" in let L5 := fresh "L" in let L6 := fresh "L" in
  let L7 := fresh "L" in
  intros s (Hc & (L1 & L2 & L3 & L4 & L5 & L6 & L7) & Hb & HF);
  first
    [ (* a read *)
      apply getitem_in_range; simpl;
      rewrite ?Hc, ?T_obs, ?L1, ?L2, ?L3, ?L4, ?L5, ?L6, ?L7; sound_bounds HF
    | (* a parameter *)
      simpl; rewrite ?Hc;
      first [ exact Hb | exact (proj1 constants)
            | exact (proj1 (proj2 constants))
            | exact (proj1 (proj2 (proj2 constants)))
            | exact (proj2 (proj2 (proj2 constants))) ]
    | (* a write *)
      eexists; split;
      [ apply setitem_nonneg; simpl;
        rewrite ?L1, ?L2, ?L3, ?L4, ?L5, ?L6, ?L7; sound_bounds HF
      | unfold sound, lens; simpl; rewrite ?upd_length; auto 12 ]
    | (* a modification *)
      destruct Hb as (? & Hb); unfold sound, lens; simpl; rewrite ?Hb; simpl;
      repeat split; eauto ].

Lemma predict_update_steps t Fo :
  1 <= t < Z.of_nat T -> steps (sound c0 T) (_predict_update t Fo).
Proof. intros Ht. run_known sound_known sound_leaf. Qed.

Lemma filter_update_steps t :
  0 <= t < Z.of_nat T -> steps (sound c0 T) (_filter_update pinv t).
Proof. intros Ht. run_known sound_known sound_leaf. Qed.

Lemma filter_step_steps t :
  1 <= t < Z.of_nat T -> steps (sound c0 T) (filter_step pinv t).
Proof. intros Ht. run_known sound_known sound_leaf. Qed.

Lemma filter_forward_steps :
  mode c0 = Filter -> (1 <= T)%nat ->
  forall o, cfg o = c0 -> (exists bv, b o = Const bv) ->
    (store_transition_matrices_on c0 = true ->
     Z.of_nat (length (Fs o)) = (Z.of_nat T - 1) / tau c0 + 2) ->
    exists st', forward pinv o = (Ok tt, st') /\ sound c0 T st'.
Proof.
  intros Hmode HT o Hc Hb HF.
  assert (Hfw : succeeds (fun s => s = o) (forward pinv) (fun _ => sound c0 T)).
  { unfold forward.
    apply succeeds_bind with (R := fun _ => sound c0 T).
    - intros s ->. exists tt, (allocate o). split; [reflexivity|].
      split; [exact Hc|]. split; [|split; [exact Hb|exact HF]].
      rewrite <- T_obs, <- Hc. apply lens_allocate.
    - intros _. change (steps (sound c0 T)
        (T0 <- gets (fun st => Z.of_nat (length (y (cfg st)))) ;;
         m0 <- gets (fun st => initial_mean (cfg st)) ;;
         write x_pred set_x_pred 0 m0 ;;;
         V0 <- gets (fun st => initial_covariance (cfg st)) ;;
         write V_pred set_V_pred 0 V0 ;;;
         md <- gets (fun st => mode (cfg st)) ;;
         match md with
         | Smooth =>
             tau' <- gets (fun st => tau (cfg st)) ;;
             blocks <- lift (range_step T0 tau') ;;
             foldM blocks None (smooth_block pinv) ;;; ret tt
         | Filter =>
             _filter_update pinv 0 ;;; for_ (range 1 T0) (filter_step pinv)
         end)).
      run_known sound_known sound_leaf. rewrite Hmode.
      apply steps_bind; [apply filter_update_steps; lia|intros _].
      apply steps_for. intros t Ht%in_range. apply filter_step_steps.
      rewrite T_obs in Ht. lia. }
  destruct (Hfw o eq_refl) as ([] & st' & Hrun & Hs). eauto.
Qed.

(** A foldM whose invariant depends on the local variables it carries. *)
Lemma succeeds_foldM {X B} (J : B -> emkf -> Prop) (l : list X) (body : B -> X -> M B) :
  (forall acc x, In x l -> succeeds (J acc) (body acc x) J) ->
  forall b0, succeeds (J b0) (foldM l b0 body) J.
Proof.
  induction l as [|x l IH]; intros Hb b0; simpl.
  - intros s Hs. exists b0, s. auto.
  - intros s Hs. destruct (Hb b0 x (or_introl eq_refl) s Hs) as (b1 & s1 & E1 & H1).
    destruct (IH (fun acc x' Hx' => Hb acc x' (or_intror Hx')) b1 s1 H1)
      as (u & s2 & E2 & H2).
    exists u, s2. split; auto. unfold bind. now rewrite E1.
Qed.

Hypothesis F_learnt : in_vars "F" (em_vars c0) = true.

Lemma backward_steps t tau' Fe :
  0 <= tau' -> 0 <= t - tau' -> t < Z.of_nat T ->
  steps (sound c0 T) (_backward pinv t tau' (Some Fe)).
Proof.
  intros Htau Ht0 HtT s (Hc & HL & Hb & HF).
  destruct (backward_run pinv Fe T t tau' s HL Htau Ht0 HtT)
    as (st' & R & _ & _ & _ & (Kc & _ & Kb & KFs & _) & HL').
  exists tt, st'. split; [exact R|].
  unfold sound. rewrite Kc, Kb, KFs. auto.
Qed.

Lemma update_transition_matrix_steps t tau' Fe :
  0 <= tau' -> 0 <= t - tau' -> t < Z.of_nat T ->
  steps (sound c0 T) (_update_transition_matrix pinv t tau' (Some Fe)).
Proof.
  intros Htau Ht0 HtT. unfold _update_transition_matrix.
  apply steps_bind; [now apply backward_steps|intros _].
  eapply steps_bind_gets; [solve [sound_known]|]. rewrite F_learnt.
  apply succeeds_bind with (R := fun Fo z => sound c0 T z /\ exists f, Fo = Some f).
  - apply succeeds_bind with (R := fun _ => sound c0 T).
    + change (steps (sound c0 T)
                (mstep_sums x_smooth V_smooth (range (t - tau' + 1) (t + 1)))).
      run_known sound_known sound_leaf.
    + intros res s Hs. eexists _, s. split; [reflexivity|]. split; eauto.
  - intros Fo s [Hs (f & ->)]. revert s Hs. simpl unwrap.
    match goal with
    | |- forall s, sound c0 T s -> exists a s', ?m s = _ /\ _ =>
        change (steps (sound c0 T) m)
    end.
    run_known sound_known sound_leaf.
Qed.

(** The local variable [t] is usable in the block starting at [s]. *)
Let t_ready (s : Z) (loc : matrix * option Z) (z : emkf) : Prop :=
  sound c0 T z /\ (s + 1 < Z.of_nat T \/ snd loc = Some s).

Lemma smooth_iteration_succeeds s loc n :
  0 <= s < Z.of_nat T ->
  succeeds (t_ready s loc) (smooth_iteration pinv s loc n)
           (fun loc' z => t_ready s loc' z /\ snd loc' = Some (block_end c0 T s)).
Proof.
  intros Hs z [Hz Hready].
  assert (Hpre : steps (sound c0 T)
            (if n =? 0 then ret tt
             else xs <- read x_smooth s ;;
                  write x_pred set_x_pred s xs ;;;
                  Vs <- read V_smooth s ;;
                  xs' <- read x_smooth s ;;
                  write V_pred set_V_pred s (msub Vs (outer xs' xs')))).
  { run_known sound_known sound_leaf. }
  destruct (Hpre z Hz) as ([] & z1 & E1 & Hz1).
  assert (Hloop : steps (sound c0 T)
            (foldM (range (s + 1) (Z.min (s + tau c0 + 1) (Z.of_nat T))) (snd loc)
               (fun _ t => _predict_update t (Some (fst loc)) ;;;
                           _filter_update pinv t ;;; ret (Some t)))).
  { apply steps_foldM. intros acc t Ht%in_range.
    apply steps_bind; [apply predict_update_steps; lia|intros _].
    apply steps_bind; [apply filter_update_steps; lia|intros _].
    apply steps_ret. }
  destruct (Hloop z1 Hz1) as (tv & z2 & E2 & Hz2).
  pose proof E2 as Htv. apply loop_variable in Htv.
  2:{ intros acc x w a w' Hb. apply bind_ok in Hb as ([] & w1 & _ & Hb).
      apply bind_ok in Hb as ([] & w2 & _ & Hb). now apply ret_ok in Hb as [_ ->]. }
  rewrite last_range in Htv.
  assert (Ht : tv = Some (block_end c0 T s) /\
               0 <= Z.of_nat (length (range s (Z.min (s + tau c0 + 1) (Z.of_nat T)))) - 1 /\
               block_end c0 T s
                 - (Z.of_nat (length (range s (Z.min (s + tau c0 + 1) (Z.of_nat T)))) - 1)
               = s).
  { rewrite range_length. unfold block_end.
    destruct (s + 1 <? Z.min (s + tau c0 + 1) (Z.of_nat T)) eqn:Hc1.
    - subst tv. split; [f_equal; lia|lia].
    - destruct Hready as [Hr|Hr]; [lia|]. rewrite Hr in Htv. subst tv.
      split; [f_equal; lia|lia]. }
  destruct Ht as (-> & Hlen & Hstart).
  destruct (update_transition_matrix_steps (block_end c0 T s)
              (Z.of_nat (length (range s (Z.min (s + tau c0 + 1) (Z.of_nat T)))) - 1)
              (fst loc) Hlen ltac:(lia) ltac:(unfold block_end; lia) z2 Hz2)
    as (Fr & z3 & E3 & Hz3).
  exists (Fr, Some (block_end c0 T s)), z3. split.
  - unfold smooth_iteration, bind, gets. destruct Hz as (Hc & _).
    rewrite Hc, T_obs. unfold bind in E1. rewrite E1.
    unfold bind in E2. rewrite E2. simpl. unfold ret at 1.
    rewrite E3. reflexivity.
  - split; [split; [exact Hz3|]|reflexivity]. simpl. unfold block_end.
    destruct (Z_lt_dec (s + 1) (Z.of_nat T)); [left; lia|right; f_equal; lia].
Qed.

Lemma smooth_block_succeeds s tv st :
  1 <= iteration c0 -> 0 <= s < Z.of_nat T ->
  sound c0 T st -> (s + 1 < Z.of_nat T \/ tv = Some s) ->
  exists tv' st',
    smooth_block pinv tv s st = (Ok tv', st') /\ sound c0 T st' /\
    tv' = Some (block_end c0 T s).
Proof.
  intros Hit Hs Hst Hready.
  assert (Hpre : steps (sound c0 T)
            ((if s =? 0 then ret tt else _predict_update s (Some (F st))) ;;;
             _filter_update pinv s)).
  { apply steps_bind; [|intros _; apply filter_update_steps; lia].
    destruct (s =? 0) eqn:Hs0; [apply steps_ret|apply predict_update_steps; lia]. }
  destruct (Hpre st Hst) as ([] & s1 & E1 & Hs1).
  destruct (range_first 0 (iteration c0)) as (l & Hl); [lia|].
  assert (Hrounds : succeeds (t_ready s (F st, tv))
            (foldM (range 0 (iteration c0)) (F st, tv) (smooth_iteration pinv s))
            (fun loc' z => t_ready s loc' z /\ snd loc' = Some (block_end c0 T s))).
  { rewrite Hl. simpl. eapply succeeds_bind.
    - now apply smooth_iteration_succeeds.
    - intros loc1. apply (succeeds_foldM
        (fun loc' z => t_ready s loc' z /\ snd loc' = Some (block_end c0 T s))).
      intros acc x _ z [Hz _]. now apply smooth_iteration_succeeds. }
  destruct (Hrounds s1 (conj Hs1 Hready)) as (loc & s2 & E2 & [Hs2 _] & Hloc).
  assert (Hpost : steps (sound c0 T)
            (damped_update_F (fst loc) ;;; store_transition_matrix s)).
  { run_known sound_known sound_leaf.
    apply steps_write. intros z (Hc & (L1 & L2 & L3 & L4 & L5 & L6 & L7) & Hb & HF).
    eexists. split.
    - apply setitem_nonneg.
      match goal with
      | E : store_transition_matrices_on c0 = true |- _ => specialize (HF E)
      end.
      assert (0 <= s / tau c0) by (apply Z.div_pos; lia).
      assert (s / tau c0 <= (Z.of_nat T - 1) / tau c0)
        by (apply Z.div_le_mono; lia).
      lia.
    - unfold sound, lens; simpl. rewrite upd_length. auto 12. }
  destruct (Hpost s2 Hs2) as ([] & s3 & E3 & Hs3).
  exists (snd loc), s3. split; [|split; [exact Hs3|exact Hloc]].
  unfold smooth_block, bind, gets. unfold bind in E1.
  destruct ((if s =? 0 then ret tt else _predict_update s (Some (F st))) st)
    as [[[]|e] s0] eqn:E0; [|discriminate E1].
  rewrite E1. destruct Hs1 as (Hc1 & _). rewrite Hc1, E2.
  unfold bind in E3.
  destruct (damped_update_F (fst loc) s2) as [[[]|e] s4] eqn:E4; [|discriminate E3].
  rewrite E3. reflexivity.
Qed.

Lemma blocks_succeed (m : nat) : forall (i : nat) tv st,
  1 <= iteration c0 -> sound c0 T st -> (2 <= T)%nat ->
  (m = 0%nat \/ Z.of_nat (i + m - 1) * tau c0 < Z.of_nat T) ->
  (m = 0%nat \/ i = 0%nat \/ tv = Some (Z.of_nat i * tau c0)) ->
  exists tv' st',
    foldM (map (fun k => Z.of_nat k * tau c0) (seq i m)) tv (smooth_block pinv) st
      = (Ok tv', st') /\ sound c0 T st'.
Proof.
  induction m as [|m IH]; intros i tv st Hit Hst HT Hlast Htv.
  - exists tv, st. split; [reflexivity|exact Hst].
  - destruct Hlast as [Hlast|Hlast]; [discriminate|].
    destruct Htv as [Htv|Htv]; [discriminate|].
    assert (Hi : 0 <= Z.of_nat i * tau c0 < Z.of_nat T) by nia.
    destruct (smooth_block_succeeds (Z.of_nat i * tau c0) tv st Hit Hi Hst)
      as (tv1 & s1 & E1 & Hs1 & Htv1).
    { destruct Htv as [ -> | -> ]; [left; simpl; lia|now right]. }
    destruct (IH (S i) tv1 s1 Hit Hs1 HT) as (tv' & st' & E2 & Hs').
    { destruct m as [|m]; [now left|right].
      replace (S i + S m - 1)%nat with (i + S (S m) - 1)%nat by lia. exact Hlast. }
    { destruct m as [|m]; [now left|right; right].
      subst tv1. f_equal. unfold block_end. nia. }
    exists tv', st'. split; [|exact Hs']. simpl. unfold bind. now rewrite E1.
Qed.

Lemma smooth_forward_steps :
  mode c0 = Smooth -> 1 <= iteration c0 -> (2 <= T)%nat ->
  forall o, cfg o = c0 -> (exists bv, b o = Const bv) ->
    (store_transition_matrices_on c0 = true ->
     Z.of_nat (length (Fs o)) = (Z.of_nat T - 1) / tau c0 + 2) ->
    exists st', forward pinv o = (Ok tt, st') /\ sound c0 T st'.
Proof.
  intros Hmode Hit HT o Hc Hb HF.
  assert (Hfw : succeeds (fun s => s = o) (forward pinv) (fun _ => sound c0 T)).
  { unfold forward.
    apply succeeds_bind with (R := fun _ => sound c0 T).
    - intros s ->. exists tt, (allocate o). split; [reflexivity|].
      split; [exact Hc|]. split; [|split; [exact Hb|exact HF]].
      rewrite <- T_obs, <- Hc. apply lens_allocate.
    - intros _. change (steps (sound c0 T)
        (T0 <- gets (fun st => Z.of_nat (length (y (cfg st)))) ;;
         m0 <- gets (fun st => initial_mean (cfg st)) ;;
         write x_pred set_x_pred 0 m0 ;;;
         V0 <- gets (fun st => initial_covariance (cfg st)) ;;
         write V_pred set_V_pred 0 V0 ;;;
         md <- gets (fun st => mode (cfg st)) ;;
         match md with
         | Smooth =>
             tau' <- gets (fun st => tau (cfg st)) ;;
             blocks <- lift (range_step T0 tau') ;;
             foldM blocks None (smooth_block pinv) ;;; ret tt
         | Filter =>
             _filter_update pinv 0 ;;; for_ (range 1 T0) (filter_step pinv)
         end)).
      run_known sound_known sound_leaf. rewrite Hmode.
      eapply steps_bind_gets; [solve [sound_known]|].
      rewrite T_obs. unfold range_step.
      replace (tau c0 =? 0) with false by lia.
      replace (tau c0 <? 0) with false by lia.
      intros z Hz.
      set (q := (Z.of_nat T + tau c0 - 1) / tau c0).
      assert (Hq : tau c0 * q <= Z.of_nat T + tau c0 - 1 < tau c0 * q + tau c0).
      { unfold q. pose proof (Z.div_mod (Z.of_nat T + tau c0 - 1) (tau c0)).
        pose proof (Z.mod_pos_bound (Z.of_nat T + tau c0 - 1) (tau c0)). lia. }
      assert (Hq0 : 0 < q) by nia.
      destruct (blocks_succeed (Z.to_nat q) 0 None z Hit Hz HT) as (tv & st' & E & Hs').
      { right. replace (Z.of_nat (0 + Z.to_nat q - 1)) with (q - 1) by lia. nia. }
      { right; left; reflexivity. }
      assert (Hgoal :
                (blocks <- lift (Ok (map (fun k => Z.of_nat k * tau c0)
                                         (seq 0 (Z.to_nat q)))) ;;
                 foldM blocks None (smooth_block pinv) ;;; ret tt) z = (Ok tt, st')).
      { unfold bind, lift. rewrite E. reflexivity. }
      exists tt, st'. split; [exact Hgoal|exact Hs']. }
  destruct (Hfw o eq_refl) as ([] & st' & Hrun & Hs). eauto.
Qed.

End Returning.



Section ReturningInstances.

Local Open Scope Q_scope.

Lemma scalar_constants md vars T tau' it :
  constant_parameters (cfg (scalar_object md vars T tau' it)).
Proof.
  unfold scalar_object. destruct (__init__ (scalar_args md vars T tau' it)) as [o|e] eqn:E.
  - unfold __init__ in E. destruct (parse_mode _); [|discriminate].
    destruct (if arg_store_transition_matrices_on _ then _ else _); [|discriminate].
    injection E as <-. unfold constant_parameters.
    repeat split; eexists; reflexivity.
  - unfold constant_parameters. repeat split; eexists; reflexivity.
Defined.



End ReturningInstances.

(** ** The filter update of a scalar model *)

Lemma scalar_update_variance (v h r : Q) :
  (0 <= v)%Q -> (0 <= r)%Q ->
  let s := (h * (v * h + 0) + 0 + r)%Q in
  let k := (v * (h * / s + 0) + 0)%Q in
  let w := (v - (k * (h * v + 0) + 0))%Q in
  (0 <= w)%Q /\ (w <= v)%Q /\ ((s == 0)%Q -> (w == v)%Q).
Proof.
  intros Hv Hr s k w.
  assert (Hs : (0 <= s)%Q) by (unfold s; nra).
  destruct (Qeq_dec s 0) as [Hz|Hnz].
  - assert (Hi : (/ s == 0)%Q) by (rewrite Hz; reflexivity).
    assert (Hk : (k == 0)%Q) by (unfold k; rewrite Hi; ring).
    assert (Hw : (w == v)%Q) by (unfold w; rewrite Hk; ring).
    rewrite Hw. split; [lra|]. split; [lra|]. intros _. reflexivity.
  - assert (Hpos : (0 < s)%Q) by lra.
    assert (Hinv : (s * / s == 1)%Q) by (apply Qmult_inv_r; exact Hnz).
    assert (Hipos : (0 < / s)%Q) by (apply Qinv_lt_0_compat; exact Hpos).
    assert (Hw : (w == v * r * / s)%Q).
    { unfold w, k.
      transitivity (v * (s * / s) - v * v * h * h * / s)%Q;
        [rewrite Hinv; ring | unfold s; ring]. }
    assert (Hle : (v * r * / s <= v)%Q).
    { assert (Hrs : (r <= s)%Q) by (unfold s; nra).
      assert (Hvi : (0 <= v * / s)%Q) by nra.
      assert (Hone : (v * r * / s <= v * s * / s)%Q) by nra.
      assert (Hvs : (v * s * / s == v)%Q).
      { transitivity (v * (s * / s))%Q; [ring|rewrite Hinv; ring]. }
      lra. }
    assert (Hnn : (0 <= v * r * / s)%Q).
    { assert (0 <= v * r)%Q by nra. nra. }
    rewrite Hw. split; [exact Hnn|]. split; [exact Hle|]. intros Hz. contradiction.
Qed.

(** X22.  In exact arithmetic, for a scalar model with the reciprocal as
    pseudo-inverse (0 for 0), a predicted variance v >= 0 and an observation
    variance r >= 0,
    [_filter_update] stores a filtered variance between 0 and v: observing
    never increases the variance and never makes it negative.  When the
    innovation variance h^2 v + r is 0 the update changes nothing: the
    filtered variance is v. *)
Theorem scalar_filter_update_shrinks_variance (t : Z) (st st' : emkf) (v h r : Q) :
  H (cfg st) = Const [[h]] -> R (cfg st) = Const [[r]] ->
  getitem (V_pred st) t = Ok [[v]] ->
  (0 <= v)%Q -> (0 <= r)%Q ->
  _filter_update pinv_scalar t st = (Ok tt, st') ->
  exists w, getitem (V_filt st') t = Ok [[w]] /\
            (0 <= w)%Q /\ (w <= v)%Q /\
            ((h * (v * h + 0) + 0 + r == 0)%Q -> (w == v)%Q).
Proof.
  intros HH HR HV Hv Hr Hrun. unfold _filter_update in Hrun.
  apply bind_ok in Hrun as (Ht & s1 & E & Hrun). apply param_ok in E as [-> E].
  rewrite HH in E. injection E as <-.
  apply bind_ok in Hrun as (Rt & s1 & E & Hrun). apply param_ok in E as [-> E].
  rewrite HR in E. injection E as <-.
  apply bind_ok in Hrun as (dt & s1 & E & Hrun). apply param_ok in E as [-> _].
  apply bind_ok in Hrun as (Vp & s1 & E & Hrun). apply read_ok in E as [-> E].
  rewrite HV in E. injection E as <-. cbv zeta in Hrun.
  apply bind_ok in Hrun as (xp & s1 & E & Hrun). apply read_ok in E as [-> _].
  apply bind_ok in Hrun as (yt & s1 & E & Hrun). apply read_ok in E as [-> _].
  apply bind_ok in Hrun as ([] & s1 & E & Hrun).
  apply write_ok in E as (l & _ & ->).
  apply write_ok in Hrun as (l' & W & ->). simpl in W. simpl.
  apply getitem_setitem_same in W.
  eexists. split; [exact W|].
  exact (scalar_update_variance v h r Hv Hr).
Qed.

(** ** Which history entries "filter" mode writes *)

Ltac entry_known :=
  let s := fresh "s" in let Hc := fresh "Hc" in
  intros s (Hc & _); rewrite Hc; reflexivity.

Ltac entry_leaf :=
  let s := fresh "s" in let l := fresh "l" in
  first [ intros s l (? & ?) _ | intros s (? & ?) ];
  unfold entry_kept; simpl; solve [auto].

Section HistoryWrites.

Variable pinv : matrix -> matrix.
Variable c0 : config.
Variable i : Z.
Variable r0 : result matrix.

Hypothesis tau_pos : 1 <= tau c0.
Hypothesis i_nonneg : 0 <= i.
Hypothesis i_free : forall t,
  1 <= t < Z.of_nat (length (y c0)) - tau c0 -> (t - 1) mod tau c0 = 0 ->
  t / tau c0 + 1 <> i.

Lemma filter_step_keeps_entry t :
  1 <= t -> preserves (entry_kept c0 i r0) (filter_step pinv t).
Proof.
  intros Ht. frame_known entry_known entry_leaf.
  apply pres_write. intros s l (Hc & Hi) W. split; [exact Hc|]. simpl.
  rewrite <- Hi. eapply getitem_setitem_other; eauto.
  - assert (0 <= t / tau c0) by (apply Z.div_pos; lia). lia.
  - apply i_free; lia.
Qed.

Lemma filter_forward_keeps_entry :
  mode c0 = Filter -> preserves (entry_kept c0 i r0) (forward pinv).
Proof.
  intros Hmode. unfold forward. frame_known entry_known entry_leaf.
  rewrite Hmode.
  apply pres_bind; [frame_known entry_known entry_leaf|intros _].
  apply pres_for. intros t Ht%in_range. apply filter_step_keeps_entry. lia.
Qed.

End HistoryWrites.

(** X23.  In "filter" mode with a block length tau >= 1 the history is
    written only at the indices t // tau + 1 of the look-ahead points t
    (t = 1 modulo tau, 1 <= t < T - tau): any other entry reads after
    [forward] what it read before, whether the run returns or raises.  So
    the initial matrix at index 0 is never overwritten, and with tau = 1
    the entry at index 1 is never written. *)
Theorem filter_history_written_at_lookahead_only (pinv : matrix -> matrix)
    (o : emkf) (i : Z) :
  mode (cfg o) = Filter -> 1 <= tau (cfg o) -> 0 <= i ->
  (forall t, 1 <= t < Z.of_nat (length (y (cfg o))) - tau (cfg o) ->
             (t - 1) mod tau (cfg o) = 0 -> t / tau (cfg o) + 1 <> i) ->
  getitem (Fs (snd (forward pinv o))) i = getitem (Fs o) i.
Proof.
  intros Hmode Htau Hi Hfree.
  exact (proj2 (filter_forward_keeps_entry pinv (cfg o) i (getitem (Fs o) i)
                  Htau Hi Hfree Hmode o (conj eq_refl eq_refl))).
Qed.

Section MoreInstances2.

Local Open Scope Q_scope.

Lemma filter_history_written_at_lookahead_only_witness :
  let o := scalar_object "filter" ["F"%string] 3 1 1 in
  mode (cfg o) = Filter /\ (1 <= tau (cfg o))%Z /\ (0 <= 1)%Z /\
  (forall t, (1 <= t < Z.of_nat (length (y (cfg o))) - tau (cfg o))%Z ->
             ((t - 1) mod tau (cfg o) = 0)%Z -> (t / tau (cfg o) + 1 <> 1)%Z) /\
  getitem (Fs (snd (forward pinv_scalar o))) 1 = getitem (Fs o) 1 /\
  getitem (Fs o) 1 = Ok [[0]].
Proof.
  intros o.
  assert (H1 : mode (cfg o) = Filter) by reflexivity.
  assert (H2 : (1 <= tau (cfg o))%Z) by (simpl; lia).
  assert (H3 : (0 <= 1)%Z) by lia.
  assert (H4 : forall t, (1 <= t < Z.of_nat (length (y (cfg o))) - tau (cfg o))%Z ->
               ((t - 1) mod tau (cfg o) = 0)%Z -> (t / tau (cfg o) + 1 <> 1)%Z).
  { simpl. intros t Ht _. rewrite Z.div_1_r. lia. }
  split; [exact H1|]. split; [exact H2|]. split; [exact H3|]. split; [exact H4|].
  split; [|reflexivity].
  exact (filter_history_written_at_lookahead_only pinv_scalar o 1 H1 H2 H3 H4).
Defined.

Lemma scalar_filter_update_shrinks_variance_witness :
  let st := snd (forward pinv_scalar (scalar_object "smooth" ["F"%string] 2 1 1)) in
  let st' := snd (_filter_update pinv_scalar 1 st) in
  exists v,
    H (cfg st) = Const [[1]] /\ R (cfg st) = Const [[1]] /\
    getitem (V_pred st) 1 = Ok [[v]] /\ 0 <= v /\ 0 <= 1 /\
    _filter_update pinv_scalar 1 st = (Ok tt, st') /\
    exists w, getitem (V_filt st') 1 = Ok [[w]] /\
              0 <= w /\ w <= v /\
              (1 * (v * 1 + 0) + 0 + 1 == 0 -> w == v).
Proof.
  intros st st'.
  destruct (getitem (V_pred st) 1) as [[|[|v []] []]|] eqn:HV;
    try (exfalso; vm_compute in HV; discriminate HV).
  assert (H1 : H (cfg st) = Const [[1]]) by reflexivity.
  assert (H2 : R (cfg st) = Const [[1]]) by reflexivity.
  assert (H3 : 0 <= v).
  { vm_compute in HV. injection HV as <-. discriminate. }
  assert (H4 : 0 <= 1) by discriminate.
  assert (H5 : _filter_update pinv_scalar 1 st = (Ok tt, st'))
    by (vm_compute; reflexivity).
  exists v. split; [exact H1|]. split; [exact H2|]. split; [reflexivity|].
  split; [exact H3|]. split; [exact H4|]. split; [exact H5|].
  exact (scalar_filter_update_shrinks_variance 1 st st' v 1 1 H1 H2 HV H3 H4 H5).
Defined.

End MoreInstances2.

(** * Properties of the right-hand sides of model.py *)

Section OdeProperties.

Import Ode.
Local Open Scope Q_scope.

(** X24.  Every right-hand side that can return (damped oscillation, its
    variant with time-dependent coefficients, Duffing, Lorenz 63,
    FitzHugh-Nagumo, Lotka-Volterra, clock reaction) raises [IndexError] on
    a state vector shorter than the model's dimension, and otherwise returns
    a vector as long as the state whose entries past the model's dimension
    are zero. *)
Theorem ode_shape_and_short_state (m k r alpha beta sigma rho a b c d k1 k2 : Q)
    (w kt rt I : Q -> Q) (f : vec -> Q -> outcome vec) (n : nat) (x : vec) (t : Q) :
  In (f, n) (models m k r alpha beta sigma rho a b c d k1 k2 w kt rt I) ->
  ((length x < n)%nat -> f x t = Raise IndexError) /\
  ((n <= length x)%nat ->
   exists p, f x t = Done p /\ length p = length x /\
             forall j, (n <= j)%nat -> (j < length x)%nat -> nth_error p j = Some 0).
Proof.
  intros Hin.
  repeat (destruct Hin as [E|Hin]; [injection E as <- <-|]); [..|destruct Hin];
    (split; intros HL;
     [ destruct x as [|x0 [|x1 [|x2 [|x3 x']]]]; simpl in HL; try lia; reflexivity
     | destruct x as [|x0 [|x1 [|x2 [|x3 x']]]]; simpl in HL; try lia;
       (eexists; split; [reflexivity|]; split;
        [ rewrite ?upd_length; apply repeat_length
        | intros j Hj Hlt; rewrite ?nth_error_upd_other by lia;
          apply nth_error_repeat; exact Hlt ]) ]).
Qed.

(** X25.  [VanderPol.f] never returns: on a state of at least two components
    it raises [NameError] (its second component names [v], bound nowhere),
    and on a shorter one [IndexError]. *)
Theorem vanderpol_never_returns (mu : Q) (x : vec) (t : Q) :
  ((2 <= length x)%nat -> vanderpol mu x t = Raise NameError) /\
  ((length x < 2)%nat -> vanderpol mu x t = Raise IndexError) /\
  (forall p, vanderpol mu x t <> Done p).
Proof.
  destruct x as [|x0 [|x1 x']]; simpl; repeat split; intros; try lia;
    try reflexivity; discriminate.
Qed.

(** X26.  The clock reaction conserves A - B and A + T - L: on any state of
    at least four components the rates of A and B are equal, and (in exact
    arithmetic) the rate of A plus the rate of T minus the rate of L is
    zero. *)
Theorem clock_reaction_conserves (k1 k2 : Q) (x : vec) (t : Q) :
  (4 <= length x)%nat ->
  exists pA pB pT pL rest,
    clock_reaction k1 k2 x t = Done (pA :: pB :: pT :: pL :: rest) /\
    pA == pB /\ pA + pT - pL == 0.
Proof.
  intros HL. destruct x as [|xA [|xB [|xT [|xL x']]]]; simpl in HL; try lia.
  do 5 eexists. split; [reflexivity|]. split; [reflexivity|ring].
Qed.

(** X27.  The Lorenz 63 right-hand side does not depend on time, vanishes at
    the origin, and has the symmetry (x, y, z) -> (-x, -y, z): reflecting the
    state reflects the first two components of the rate and keeps the
    third. *)
Theorem lorentz63_symmetry (sigma rho beta u v z t t' : Q) :
  exists p0 p1 p2 q0 q1 q2 o0 o1 o2,
    lorentz63 sigma rho beta [u; v; z] t = Done [p0; p1; p2] /\
    lorentz63 sigma rho beta [u; v; z] t' = Done [p0; p1; p2] /\
    lorentz63 sigma rho beta [- u; - v; z] t = Done [q0; q1; q2] /\
    q0 == - p0 /\ q1 == - p1 /\ q2 == p2 /\
    lorentz63 sigma rho beta [0; 0; 0] t = Done [o0; o1; o2] /\
    o0 == 0 /\ o1 == 0 /\ o2 == 0.
Proof.
  do 9 eexists.
  split; [reflexivity|]. split; [reflexivity|]. split; [reflexivity|].
  split; [ring|]. split; [ring|]. split; [ring|].
  split; [reflexivity|]. split; [ring|]. split; ring.
Qed.

(** X28.  The Lotka-Volterra right-hand side vanishes at its two equilibria:
    the origin and, when b and c are not zero, the coexistence point
    (d / c, a / b) (in exact arithmetic). *)
Theorem lotka_volterra_equilibria (a b c d t : Q) :
  ~ b == 0 -> ~ c == 0 ->
  exists p0 p1 o0 o1,
    lotka_volterra a b c d [d / c; a / b] t = Done [p0; p1] /\
    p0 == 0 /\ p1 == 0 /\
    lotka_volterra a b c d [0; 0] t = Done [o0; o1] /\
    o0 == 0 /\ o1 == 0.
Proof.
  intros Hb Hc. do 4 eexists.
  split; [reflexivity|]. split; [field; auto|]. split; [field; auto|].
  split; [reflexivity|]. split; ring.
Qed.

Lemma clock_reaction_conserves_witness :
  (4 <= length [1; 2; 3; 4])%nat /\
  exists pA pB pT pL rest,
    clock_reaction 1 1 [1; 2; 3; 4] 0 = Done (pA :: pB :: pT :: pL :: rest) /\
    pA == pB /\ pA + pT - pL == 0.
Proof.
  assert (H1 : (4 <= length [1; 2; 3; 4])%nat) by (simpl; lia).
  split; [exact H1|]. exact (clock_reaction_conserves 1 1 [1; 2; 3; 4] 0 H1).
Defined.

Lemma ode_shape_and_short_state_witness :
  In (lorentz63 10 28 (8 # 3), 3%nat)
     (models 1 1 1 1 (8 # 3) 10 28 1 1 1 1 1 1
             (fun _ => 0) (fun _ => 1) (fun _ => 1) (fun _ => 0)) /\
  lorentz63 10 28 (8 # 3) [1; 2] 0 = Raise IndexError /\
  exists p, lorentz63 10 28 (8 # 3) [1; 2; 3; 4] 0 = Done p /\
            length p = 4%nat /\ nth_error p 3 = Some 0.
Proof.
  assert (H1 : In (lorentz63 10 28 (8 # 3), 3%nat)
                  (models 1 1 1 1 (8 # 3) 10 28 1 1 1 1 1 1
                          (fun _ => 0) (fun _ => 1) (fun _ => 1) (fun _ => 0)))
    by (do 3 right; left; reflexivity).
  split; [exact H1|]. split.
  - apply (ode_shape_and_short_state _ _ _ _ _ _ _ _ _ _ _ _ _ _ _ _ _ _ _
             [1; 2] 0 H1). simpl. lia.
  - destruct (ode_shape_and_short_state _ _ _ _ _ _ _ _ _ _ _ _ _ _ _ _ _ _ _
                [1; 2; 3; 4] 0 H1) as [_ Hlong].
    destruct Hlong as (p & Hp & Hlen & Hz); [simpl; lia|].
    exists p. split; [exact Hp|]. split; [exact Hlen|].
    apply Hz; simpl; lia.
Defined.

Lemma lotka_volterra_equilibria_witness :
  ~ 2 == 0 /\ ~ 3 == 0 /\
  exists p0 p1 o0 o1,
    lotka_volterra 1 2 3 4 [4 / 3; 1 / 2] 0 = Done [p0; p1] /\
    p0 == 0 /\ p1 == 0 /\
    lotka_volterra 1 2 3 4 [0; 0] 0 = Done [o0; o1] /\
    o0 == 0 /\ o1 == 0.
Proof.
  assert (H1 : ~ 2 == 0) by discriminate.
  assert (H2 : ~ 3 == 0) by discriminate.
  split; [exact H1|]. split; [exact H2|].
  exact (lotka_volterra_equilibria 1 2 3 4 0 H1 H2).
Defined.

End OdeProperties.
